(** * Timberjack benchmark analysis: a shallow embedding

    The development follows [benchmark/analyze_results.py] (the strict
    analysis pipeline: [load_data], the two pivots, [generate_scaling_analysis],
    [generate_rankings], [generate_timber_specific_analysis],
    [generate_comparative_analysis] and [main], which runs them in this
    order), [benchmark_data/generate_charts.py] (the lenient, headerless
    loader and its pivot) and the file names [benchmark/create_json_logs.py]
    writes.

    Data is modelled as the scripts have it.  A data frame is a list of rows,
    in frame order.  The measured columns [time_seconds] and [memory_mb] are
    binary64 floats ([PrimFloat.float]).  [size_numeric] is the result of
    mapping the size label through [size_mapping]: an integer, or missing
    (NaN).  Text cells are byte strings; comparing UTF-8 bytes is comparing
    code points, so [String.compare] is Python's order on [str].

    Division follows the operands the scripts divide.  The ratios of the
    scaling and comparative loops divide numpy scalars ([iloc[i][...]] and
    [.values[0]] take a cell from its own column): that is IEEE division, a
    zero divisor gives an infinity or NaN with a warning and no exception.
    The reciprocal in the comparison phrases is taken inside a row-wise
    [apply]; the rows of a frame that also has text columns come from an
    object array, whose numbers are Python floats, and [1 / 0.0] on those
    raises [ZeroDivisionError].

    The pandas operations the scripts call ([sort_values], [unique], [rank],
    [pivot], [reindex], [map], [dropna], [read_csv]) are modelled by the
    behaviour pandas has for the arguments used here.  [sort_values] on two
    columns is a stable lexicographic sort.  [sort_values] on one column sorts
    the present keys with numpy's default [argsort], which is not stable, and
    puts the rows with a missing key last, in frame order: the order among
    equal keys is whatever numpy returns, so the one-key sorts take the
    [argsort] as an argument ([Numpy]) of which only the permutation and the
    sortedness are known.

    Printing is left out.  Plotting is not computed: [generate_rankings],
    [generate_timber_specific_analysis] and [generate_comparative_analysis]
    draw nothing; [generate_scaling_analysis] draws its chart before its loop,
    and takes the outcome of the drawing as an argument, since an exception
    raised there ends the function before it writes anything; [main] takes
    the outcome of each chart in the same way.  [generate_time_comparison] and
    [generate_memory_comparison] stand for the table the function builds and
    then plots: [Ok] means the table was built, their theorems are about that
    table and the exception of the pivot. *)

From Stdlib Require Import ZArith String Ascii Bool Lia Floats Uint63.
From Stdlib Require Import DecimalString PeanoNat List Permutation Sorted.
From Stdlib Require OrderedTypeEx.
Import ListNotations.

Local Open Scope Z_scope.

(* ================================================================== *)
(** * Order facts on binary64 floats *)
(* ================================================================== *)

Module FloatOrder.

Definition sf_is_nan (s : spec_float) : bool :=
  match s with S754_nan => true | _ => false end.

(** The IEEE comparison, through the specification of the primitives. *)
Definition fcmp (x y : float) : option comparison :=
  SFcompare (Prim2SF x) (Prim2SF y).

Ltac sf_cases :=
  repeat match goal with
  | s : spec_float |- _ => destruct s as [[|]|[|]| |[|] ? ?]
  end; cbn [SFcompare sf_is_nan option_map CompOpp orb];
  try reflexivity; try discriminate.

Ltac cmp_cases :=
  change (Pos.compare_cont Eq) with Pos.compare in *;
  repeat match goal with
  | |- context [Z.compare ?a ?b] => destruct (Z.compare_spec a b)
  | H : context [Z.compare ?a ?b] |- _ => destruct (Z.compare_spec a b)
  | |- context [Pos.compare ?a ?b] => destruct (Pos.compare_spec a b)
  | H : context [Pos.compare ?a ?b] |- _ => destruct (Pos.compare_spec a b)
  end; subst; cbn [CompOpp] in *;
  try reflexivity; try discriminate; try lia.

Lemma SFcompare_none x y :
  SFcompare x y = None <-> sf_is_nan x || sf_is_nan y = true.
Proof. sf_cases; split; discriminate || reflexivity. Qed.

Lemma SFcompare_refl x : sf_is_nan x = false -> SFcompare x x = Some Eq.
Proof. sf_cases; intros _; cmp_cases. Qed.

Lemma SFcompare_antisym x y :
  SFcompare y x = option_map CompOpp (SFcompare x y).
Proof. sf_cases; cmp_cases. Qed.

Lemma SFcompare_lt_trans x y z :
  SFcompare x y = Some Lt -> SFcompare y z = Some Lt ->
  SFcompare x z = Some Lt.
Proof. sf_cases; intros H1 H2; cmp_cases. Qed.

Lemma SFcompare_eq_l x y z :
  SFcompare x y = Some Eq -> SFcompare x z = SFcompare y z.
Proof. sf_cases; intros H1; cmp_cases. Qed.

(** The primitives in terms of [fcmp]. *)

Lemma ltb_fcmp x y :
  (x <? y)%float = match fcmp x y with Some Lt => true | _ => false end.
Proof. rewrite FloatAxioms.ltb_spec. reflexivity. Qed.

Lemma eqb_fcmp x y :
  (x =? y)%float = match fcmp x y with Some Eq => true | _ => false end.
Proof. rewrite FloatAxioms.eqb_spec. reflexivity. Qed.

Lemma leb_fcmp x y :
  (x <=? y)%float =
  match fcmp x y with Some (Lt | Eq) => true | _ => false end.
Proof. rewrite FloatAxioms.leb_spec. reflexivity. Qed.

Lemma is_nan_sf x : is_nan x = sf_is_nan (Prim2SF x).
Proof.
  unfold is_nan. rewrite eqb_fcmp. unfold fcmp.
  destruct (sf_is_nan (Prim2SF x)) eqn:E.
  - destruct (Prim2SF x); try discriminate. reflexivity.
  - rewrite SFcompare_refl by assumption. reflexivity.
Qed.

Lemma fcmp_none x y :
  fcmp x y = None <-> is_nan x || is_nan y = true.
Proof. unfold fcmp. rewrite !is_nan_sf. apply SFcompare_none. Qed.

Lemma fcmp_some x y :
  is_nan x = false -> is_nan y = false -> exists c, fcmp x y = Some c.
Proof.
  intros Hx Hy. destruct (fcmp x y) as [c|] eqn:E; [now exists c|].
  apply fcmp_none in E. rewrite Hx, Hy in E. discriminate.
Qed.

Lemma fcmp_refl x : is_nan x = false -> fcmp x x = Some Eq.
Proof. rewrite is_nan_sf. apply SFcompare_refl. Qed.

Lemma fcmp_antisym x y : fcmp y x = option_map CompOpp (fcmp x y).
Proof. apply SFcompare_antisym. Qed.

Lemma fcmp_lt_trans x y z :
  fcmp x y = Some Lt -> fcmp y z = Some Lt -> fcmp x z = Some Lt.
Proof. apply SFcompare_lt_trans. Qed.

Lemma fcmp_eq_l x y z : fcmp x y = Some Eq -> fcmp x z = fcmp y z.
Proof. apply SFcompare_eq_l. Qed.

Lemma fcmp_eq_sym x y : fcmp x y = Some Eq -> fcmp y x = Some Eq.
Proof. intros H. rewrite fcmp_antisym, H. reflexivity. Qed.

Lemma fcmp_gt_lt x y : fcmp x y = Some Gt <-> fcmp y x = Some Lt.
Proof.
  rewrite (fcmp_antisym x y).
  destruct (fcmp x y) as [[| |]|]; cbn; split; congruence.
Qed.

Lemma fcmp_eq_r x y z : fcmp x y = Some Eq -> fcmp z x = fcmp z y.
Proof.
  intros H. rewrite (fcmp_antisym x z), (fcmp_antisym y z).
  now rewrite (fcmp_eq_l _ _ z H).
Qed.

Lemma fcmp_eq_not_nan x y :
  fcmp x y = Some Eq -> is_nan x = false /\ is_nan y = false.
Proof.
  intros H. destruct (is_nan x) eqn:Hx, (is_nan y) eqn:Hy; auto;
    assert (N : fcmp x y = None) by (apply fcmp_none; rewrite Hx, Hy; reflexivity);
    congruence.
Qed.

(** [x <= y] or [y] missing: the order [sort_values] and [rank] sort by
    (NaN goes last). *)
Definition fle_nan_last (x y : float) : bool :=
  if is_nan y then true else if is_nan x then false else (x <=? y)%float.

Lemma fle_nan_last_total x y :
  fle_nan_last x y = true \/ fle_nan_last y x = true.
Proof.
  unfold fle_nan_last. rewrite !leb_fcmp.
  destruct (is_nan x) eqn:Hx, (is_nan y) eqn:Hy; auto.
  destruct (fcmp_some x y Hx Hy) as [c Hc].
  rewrite (fcmp_antisym x y), Hc. destruct c; cbn; auto.
Qed.

Lemma fle_nan_last_trans x y z :
  fle_nan_last x y = true -> fle_nan_last y z = true ->
  fle_nan_last x z = true.
Proof.
  unfold fle_nan_last. rewrite !leb_fcmp.
  destruct (is_nan z) eqn:Hz; auto.
  destruct (is_nan y) eqn:Hy; [discriminate|].
  destruct (is_nan x) eqn:Hx; [discriminate|].
  destruct (fcmp x y) as [[| |]|] eqn:Hxy; try discriminate;
    destruct (fcmp y z) as [[| |]|] eqn:Hyz; try discriminate; intros _ _.
  - now rewrite (fcmp_eq_l _ _ z Hxy), Hyz.
  - now rewrite (fcmp_eq_l _ _ z Hxy), Hyz.
  - now rewrite <- (fcmp_eq_r _ _ x Hyz), Hxy.
  - now rewrite (fcmp_lt_trans _ _ _ Hxy Hyz).
Qed.

End FloatOrder.

(* ================================================================== *)
(** * A stable sort *)
(* ================================================================== *)

(** The insertion sort: it orders the rows by a key and keeps rows with
    equal keys in frame order.  It is the model of the sorts that are
    stable: [load_data] sorts on two keys, which pandas does with a stable
    lexsort, and [pivot] sorts labels that are all different.  The sorts on
    one column are not stable; their model follows this section. *)

Section StableSort.

Variable A : Type.
Variable leb : A -> A -> bool.

Fixpoint insert_sorted (x : A) (l : list A) : list A :=
  match l with
  | [] => [x]
  | y :: t => if leb x y then x :: y :: t else y :: insert_sorted x t
  end.

Fixpoint stable_sort (l : list A) : list A :=
  match l with
  | [] => []
  | x :: t => insert_sorted x (stable_sort t)
  end.

Definition le_rel (x y : A) : Prop := leb x y = true.

Lemma insert_sorted_perm x l : Permutation (insert_sorted x l) (x :: l).
Proof.
  induction l as [|y t IH]; cbn; [reflexivity|].
  destruct (leb x y); [reflexivity|].
  rewrite IH. apply perm_swap.
Qed.

Lemma stable_sort_perm l : Permutation (stable_sort l) l.
Proof.
  induction l as [|x t IH]; cbn; [reflexivity|].
  rewrite insert_sorted_perm. now constructor.
Qed.

Lemma stable_sort_length l : length (stable_sort l) = length l.
Proof. apply Permutation_length, stable_sort_perm. Qed.

Lemma stable_sort_in x l : In x (stable_sort l) <-> In x l.
Proof.
  split; apply Permutation_in;
    [apply stable_sort_perm | apply Permutation_sym, stable_sort_perm].
Qed.

Hypothesis leb_total : forall x y, leb x y = true \/ leb y x = true.
Hypothesis leb_trans :
  forall x y z, leb x y = true -> leb y z = true -> leb x z = true.

Lemma insert_sorted_sorted x l :
  StronglySorted le_rel l -> StronglySorted le_rel (insert_sorted x l).
Proof.
  induction 1 as [|y t Hs IH Hall]; cbn.
  - repeat constructor.
  - destruct (leb x y) eqn:E.
    + constructor; [now constructor|].
      constructor; [exact E|].
      eapply Forall_impl; [|exact Hall].
      intros z Hz. exact (leb_trans _ _ _ E Hz).
    + constructor; [exact IH|].
      assert (Hyx : leb y x = true)
        by (destruct (leb_total x y); congruence).
      rewrite Forall_forall in *. intros z Hz.
      apply (Permutation_in _ (insert_sorted_perm x t)) in Hz.
      destruct Hz as [<-|Hz]; auto.
Qed.

Lemma stable_sort_sorted l : StronglySorted le_rel (stable_sort l).
Proof.
  induction l; cbn; [constructor | now apply insert_sorted_sorted].
Qed.

(** Sorting a sorted list changes nothing. *)
Lemma stable_sort_id l : StronglySorted le_rel l -> stable_sort l = l.
Proof.
  induction 1 as [|x t Hs IH Hall]; cbn; [reflexivity|].
  rewrite IH. destruct t as [|y t']; [reflexivity|].
  cbn. inversion Hall as [|? ? Hxy _]; subst.
  unfold le_rel in Hxy. now rewrite Hxy.
Qed.

(** A selection of rows commutes with the sort: this is stability. *)
Lemma filter_insert_sorted p x l :
  StronglySorted le_rel l ->
  filter p (insert_sorted x l) =
  if p x then insert_sorted x (filter p l) else filter p l.
Proof.
  induction 1 as [|y t Hs IH Hall]; cbn.
  - now destruct (p x).
  - destruct (leb x y) eqn:E; cbn.
    + destruct (p x) eqn:Px; [|reflexivity].
      destruct (p y) eqn:Py; cbn; [now rewrite E|].
      f_equal.
      assert (Hx : Forall (le_rel x) (filter p t)).
      { rewrite Forall_forall in *. intros z Hz.
        apply filter_In in Hz. destruct Hz as [Hz _].
        exact (leb_trans _ _ _ E (Hall z Hz)). }
      destruct (filter p t) as [|z t']; [reflexivity|].
      cbn. inversion Hx as [|? ? Hxz _]; subst.
      unfold le_rel in Hxz. now rewrite Hxz.
    + rewrite IH. destruct (p x), (p y); cbn; try reflexivity.
      now rewrite E.
Qed.

Lemma filter_stable_sort p l :
  filter p (stable_sort l) = stable_sort (filter p l).
Proof.
  induction l as [|x t IH]; cbn; [reflexivity|].
  rewrite filter_insert_sorted by apply stable_sort_sorted.
  rewrite IH. now destruct (p x).
Qed.

(** Rows whose keys are all equal keep their frame order. *)
Lemma stable_sort_ties p l :
  (forall x y, In x l -> In y l -> p x = true -> p y = true ->
               leb x y = true) ->
  filter p (stable_sort l) = filter p l.
Proof.
  intros H. rewrite filter_stable_sort. apply stable_sort_id.
  assert (G : forall x y, In x (filter p l) -> In y (filter p l) ->
                          le_rel x y).
  { intros x y Hx Hy. apply filter_In in Hx, Hy.
    destruct Hx, Hy. now apply H. }
  induction (filter p l) as [|a m IHm]; constructor.
  - apply IHm. intros x y Hx Hy. apply G; now right.
  - rewrite Forall_forall. intros y Hy. apply G; [now left | now right].
Qed.

(** Two sorted arrangements of the same rows agree when no two distinct rows
    have equal keys. *)
Lemma sorted_perm_unique l1 l2 :
  (forall x y, In x l1 -> In y l1 ->
               leb x y = true -> leb y x = true -> x = y) ->
  StronglySorted le_rel l1 -> StronglySorted le_rel l2 ->
  Permutation l1 l2 -> l1 = l2.
Proof.
  intros Hanti H1. revert l2.
  induction H1 as [|x t Hs IH Hall]; intros l2 H2 P.
  - apply Permutation_nil in P. now subst.
  - destruct l2 as [|y t2].
    { apply Permutation_sym, Permutation_nil in P. discriminate. }
    inversion H2 as [|? ? Hs2 Hall2]; subst.
    assert (Hxy : x = y).
    { assert (Iy : In y (x :: t))
        by (apply (Permutation_in _ (Permutation_sym P)); now left).
      assert (Ix : In x (y :: t2))
        by (apply (Permutation_in _ P); now left).
      destruct Iy as [E|Iy]; [exact E|].
      destruct Ix as [E|Ix]; [now symmetry|].
      rewrite Forall_forall in Hall, Hall2.
      apply Hanti; [now left | now right | now apply Hall | now apply Hall2]. }
    subst y. f_equal. apply IH; auto.
    + intros a b Ha Hb. apply Hanti; now right.
    + eapply Permutation_cons_inv; exact P.
Qed.

Lemma stable_sort_perm_invariant l1 l2 :
  (forall x y, In x l1 -> In y l1 ->
               leb x y = true -> leb y x = true -> x = y) ->
  Permutation l1 l2 -> stable_sort l1 = stable_sort l2.
Proof.
  intros Hanti P. apply sorted_perm_unique; try apply stable_sort_sorted.
  - intros x y Hx Hy. apply Hanti; now apply stable_sort_in.
  - rewrite stable_sort_perm, P. symmetry. apply stable_sort_perm.
Qed.

End StableSort.

Arguments insert_sorted {A} leb x l.
Arguments stable_sort {A} leb l.
Arguments le_rel {A} leb x y.

(* ================================================================== *)
(** * [sort_values] on one column *)
(* ================================================================== *)

(** [df.sort_values(col)] with a single column sorts the rows whose key is
    present with numpy's [argsort] of the default [kind='quicksort'], and
    puts the rows whose key is missing after them, in frame order
    ([na_position='last']).  numpy promises of that [argsort] a sorted
    result and no more: which of two rows with equal keys comes first is
    not specified, and it differs between builds.

    [Numpy] is what the development takes from numpy: [np_argsort] gives,
    for a column of keys, the positions in the order of the sorted column;
    it is a permutation of all positions, and the keys ascend along it.
    What is proved of [sort_values] holds for every such function;
    [insertion] is one of them. *)

(** [l.take(idx)] *)
Definition take {A : Type} (idx : list nat) (l : list A) : list A :=
  flat_map (fun i => match nth_error l i with
                     | Some x => [x]
                     | None => []
                     end) idx.

Record Numpy : Type := mkNumpy {
  np_argsort : forall K : Type, (K -> K -> bool) -> list K -> list nat;
  np_argsort_perm : forall K leb ks,
    Permutation (np_argsort K leb ks) (seq 0 (length ks));
  np_argsort_sorted : forall K (leb : K -> K -> bool) ks,
    (forall a b, leb a b = true \/ leb b a = true) ->
    (forall a b c, leb a b = true -> leb b c = true -> leb a c = true) ->
    StronglySorted (le_rel leb) (take (np_argsort K leb ks) ks)
}.

(** The order of a column with missing values: a missing key is last. *)
Definition opt_leb {K : Type} (leb : K -> K -> bool) (a b : option K) : bool :=
  match a, b with
  | _, None => true
  | None, Some _ => false
  | Some x, Some y => leb x y
  end.

Definition present {A K : Type} (key : A -> option K) (x : A) : bool :=
  match key x with
  | Some _ => true
  | None => false
  end.

Definition missing {A K : Type} (key : A -> option K) (x : A) : bool :=
  negb (present key x).

(** The keys that are present, in frame order. *)
Definition present_keys {A K : Type} (key : A -> option K) (l : list A)
  : list K :=
  flat_map (fun x => match key x with
                     | Some k => [k]
                     | None => []
                     end) l.

Definition sort_values {A K : Type} (np : Numpy) (key : A -> option K)
  (leb : K -> K -> bool) (l : list A) : list A :=
  let non_nans := filter (present key) l in
  take (np_argsort np K leb (present_keys key non_nans)) non_nans
  ++ filter (missing key) l.

(** ** [take] *)

Lemma take_nil {A : Type} (idx : list nat) : take idx (@nil A) = [].
Proof.
  induction idx as [|i t IH]; [reflexivity|]. cbn.
  destruct i; exact IH.
Qed.

Lemma take_shift {A : Type} (a : A) (idx : list nat) (l : list A) :
  take (map S idx) (a :: l) = take idx l.
Proof.
  unfold take. induction idx as [|i t IH]; [reflexivity|].
  cbn [map flat_map nth_error]. now rewrite IH.
Qed.

Lemma take_seq {A : Type} (l : list A) : take (seq 0 (length l)) l = l.
Proof.
  induction l as [|a l IH]; [reflexivity|].
  cbn [length seq]. rewrite <- seq_shift.
  change (take (0%nat :: map S (seq 0 (length l))) (a :: l))
    with (a :: take (map S (seq 0 (length l))) (a :: l)).
  now rewrite take_shift, IH.
Qed.

Lemma take_perm {A : Type} (idx : list nat) (l : list A) :
  Permutation idx (seq 0 (length l)) -> Permutation (take idx l) l.
Proof.
  intros P. rewrite <- (take_seq l) at 2.
  unfold take. induction P as [| |x y t|? ? ? _ IH1 _ IH2]; cbn.
  - constructor.
  - now apply Permutation_app_head.
  - rewrite !app_assoc. apply Permutation_app_tail, Permutation_app_comm.
  - now rewrite IH1.
Qed.

Lemma take_map {A B : Type} (f : A -> B) (idx : list nat) (l : list A) :
  take idx (map f l) = map f (take idx l).
Proof.
  unfold take. induction idx as [|i t IH]; [reflexivity|].
  cbn [flat_map]. rewrite map_app, IH, nth_error_map.
  now destruct (nth_error l i).
Qed.

Lemma take_in {A : Type} (idx : list nat) (l : list A) x :
  In x (take idx l) -> In x l.
Proof.
  unfold take. intros H. apply in_flat_map in H.
  destruct H as [i [_ H]].
  destruct (nth_error l i) as [y|] eqn:E; [|destruct H].
  destruct H as [<-|[]]. eapply nth_error_In; eauto.
Qed.

(** ** Facts about [sort_values] *)

Lemma filter_all {A : Type} (p : A -> bool) l :
  Forall (fun x => p x = true) l -> filter p l = l.
Proof.
  induction 1 as [|a t Ha _ IH]; cbn; [reflexivity|].
  now rewrite Ha, IH.
Qed.

Lemma filter_none {A : Type} (p : A -> bool) l :
  Forall (fun x => p x = false) l -> filter p l = [].
Proof.
  induction 1 as [|a t Ha _ IH]; cbn; [reflexivity|].
  now rewrite Ha, IH.
Qed.

Lemma filter_partition_perm {A : Type} (p : A -> bool) (l : list A) :
  Permutation (filter p l ++ filter (fun x => negb (p x)) l) l.
Proof.
  induction l as [|a l IH]; [reflexivity|]. cbn.
  destruct (p a); cbn.
  - now constructor.
  - apply Permutation_sym, Permutation_cons_app, Permutation_sym, IH.
Qed.

Lemma present_keys_map {A K : Type} (key : A -> option K) (l : list A) :
  map key (filter (present key) l)
  = map Some (present_keys key (filter (present key) l)).
Proof.
  induction l as [|a l IH]; [reflexivity|]. cbn [filter].
  destruct (present key a) eqn:P; [|exact IH].
  unfold present in P. destruct (key a) as [k|] eqn:E; [|discriminate].
  cbn. rewrite E. cbn. now rewrite IH.
Qed.

Lemma present_keys_length {A K : Type} (key : A -> option K) (l : list A) :
  length (present_keys key (filter (present key) l))
  = length (filter (present key) l).
Proof.
  rewrite <- (length_map Some), <- present_keys_map. apply length_map.
Qed.

Lemma present_keys_all_missing {A K : Type} (key : A -> option K) l :
  (forall x, In x l -> key x = None) -> filter (present key) l = [].
Proof.
  induction l as [|a l IH]; intros H; [reflexivity|]. cbn [filter].
  assert (P : present key a = false)
    by (unfold present; now rewrite (H a (or_introl eq_refl))).
  rewrite P. apply IH. intros x Hx. apply H. now right.
Qed.

Section SortValues.

Variable np : Numpy.
Variables A K : Type.
Variable key : A -> option K.
Variable leb : K -> K -> bool.

(** The order of the rows by their keys. *)
Definition by_key (a b : A) : bool := opt_leb leb (key a) (key b).

Lemma sort_values_present (l : list A) :
  Permutation
    (take (np_argsort np K leb (present_keys key (filter (present key) l)))
          (filter (present key) l))
    (filter (present key) l).
Proof.
  apply take_perm. rewrite <- present_keys_length. apply np_argsort_perm.
Qed.

Lemma sort_values_perm (l : list A) :
  Permutation (sort_values np key leb l) l.
Proof.
  unfold sort_values. cbv zeta. rewrite sort_values_present.
  apply filter_partition_perm.
Qed.

Lemma sort_values_in (l : list A) x :
  In x (sort_values np key leb l) <-> In x l.
Proof.
  split; apply Permutation_in;
    [apply sort_values_perm | apply Permutation_sym, sort_values_perm].
Qed.

Lemma sort_values_length (l : list A) :
  length (sort_values np key leb l) = length l.
Proof. apply Permutation_length, sort_values_perm. Qed.

(** The rows without a key keep their frame order, after all others. *)
Lemma sort_values_missing (l : list A) :
  filter (missing key) (sort_values np key leb l) = filter (missing key) l.
Proof.
  unfold sort_values. cbv zeta. rewrite filter_app.
  assert (E : filter (missing key)
                (take (np_argsort np K leb
                         (present_keys key (filter (present key) l)))
                      (filter (present key) l)) = []).
  { apply filter_none. apply Forall_forall. intros x Hx.
    apply take_in, filter_In in Hx. unfold missing. now rewrite (proj2 Hx). }
  rewrite E. cbn. apply filter_all. apply Forall_forall.
  intros x Hx. now apply filter_In in Hx.
Qed.

Lemma sort_values_all_missing (l : list A) :
  (forall x, In x l -> key x = None) -> sort_values np key leb l = l.
Proof.
  intros H. unfold sort_values. cbv zeta.
  rewrite (present_keys_all_missing key l H), take_nil. cbn.
  apply filter_all. apply Forall_forall. intros x Hx.
  unfold missing, present. now rewrite (H x Hx).
Qed.

Hypothesis leb_total : forall a b, leb a b = true \/ leb b a = true.
Hypothesis leb_trans :
  forall a b c, leb a b = true -> leb b c = true -> leb a c = true.

Lemma by_key_total a b : by_key a b = true \/ by_key b a = true.
Proof.
  unfold by_key, opt_leb. destruct (key a), (key b); auto.
Qed.

Lemma by_key_trans a b c :
  by_key a b = true -> by_key b c = true -> by_key a c = true.
Proof.
  unfold by_key, opt_leb.
  destruct (key a), (key b), (key c); auto; try discriminate.
  apply leb_trans.
Qed.

Lemma missing_sorted (l : list A) :
  StronglySorted (le_rel by_key) (filter (missing key) l).
Proof.
  assert (N : forall x, In x (filter (missing key) l) -> key x = None).
  { intros x Hx. apply filter_In in Hx. destruct Hx as [_ Hx].
    unfold missing, present in Hx. now destruct (key x). }
  induction (filter (missing key) l) as [|a t IH]; constructor.
  - apply IH. intros x Hx. apply N. now right.
  - apply Forall_forall. intros y Hy. unfold le_rel, by_key.
    rewrite (N y (or_intror Hy)). now destruct (key a).
Qed.

(** The result is sorted by key, the rows without a key last. *)
Lemma sort_values_sorted (l : list A) :
  StronglySorted (le_rel by_key) (sort_values np key leb l).
Proof.
  unfold sort_values. cbv zeta.
  set (nn := filter (present key) l).
  set (idx := np_argsort np K leb (present_keys key nn)).
  assert (S : StronglySorted (le_rel leb) (take idx (present_keys key nn)))
    by (apply np_argsort_sorted; assumption).
  assert (M : map key (take idx nn)
              = map Some (take idx (present_keys key nn))).
  { rewrite <- !take_map. f_equal. apply present_keys_map. }
  assert (S1 : StronglySorted (le_rel by_key) (take idx nn)).
  { revert S M. generalize (take idx (present_keys key nn)).
    induction (take idx nn) as [|a t IH]; intros ks S M; [constructor|].
    destruct ks as [|k ks]; [discriminate|].
    cbn in M. injection M as Ha Mt.
    inversion S as [|? ? St Hall]; subst.
    constructor; [eapply IH; eauto|].
    apply Forall_forall. intros y Hy.
    apply (in_map key) in Hy. rewrite Mt in Hy.
    apply in_map_iff in Hy. destruct Hy as [k' [Hk' Hin]].
    unfold le_rel, by_key. rewrite Ha, <- Hk'. cbn.
    rewrite Forall_forall in Hall. now apply Hall. }
  assert (S2 := missing_sorted l).
  clear S M. induction S1 as [|a t St IH Hall]; [exact S2|].
  cbn. constructor; [exact IH|].
  apply Forall_app. split; [exact Hall|].
  apply Forall_forall. intros y Hy. apply filter_In in Hy.
  destruct Hy as [_ Hy]. unfold missing, present in Hy.
  unfold le_rel, by_key. destruct (key y); [discriminate|].
  now destruct (key a).
Qed.

(** Where no two rows have the same key, apart from missing ones, the
    result is the same for every [np]: it is the insertion sort's. *)
Lemma sort_values_determined (l : list A) :
  (forall x y k1 k2, In x l -> In y l -> key x = Some k1 -> key y = Some k2 ->
     leb k1 k2 = true -> leb k2 k1 = true -> x = y) ->
  sort_values np key leb l = stable_sort by_key l.
Proof.
  intros U.
  assert (Sl : StronglySorted (le_rel by_key) (stable_sort by_key l))
    by (apply stable_sort_sorted; [apply by_key_total | apply by_key_trans]).
  assert (Split : forall s, StronglySorted (le_rel by_key) s ->
            s = filter (present key) s ++ filter (missing key) s).
  { induction 1 as [|a t St IH Hall]; [reflexivity|]. cbn.
    unfold missing at 1. destruct (present key a) eqn:Pa; cbn.
    - now rewrite <- IH.
    - assert (N : filter (present key) t = []).
      { apply filter_none. apply Forall_forall. intros y Hy.
        rewrite Forall_forall in Hall. specialize (Hall y Hy).
        unfold le_rel, by_key, present in *.
        destruct (key a); [discriminate|]. now destruct (key y). }
      rewrite N. cbn. f_equal. rewrite IH at 1. now rewrite N. }
  rewrite (Split _ Sl).
  rewrite !(filter_stable_sort A by_key by_key_total by_key_trans).
  unfold sort_values. cbv zeta. f_equal.
  - apply (sorted_perm_unique A by_key).
    + intros x y Hx Hy Hxy Hyx.
      apply take_in, filter_In in Hx. apply take_in, filter_In in Hy.
      destruct Hx as [Hx Px], Hy as [Hy Py].
      unfold present in Px, Py. unfold by_key in Hxy, Hyx.
      destruct (key x) as [k1|] eqn:K1; [|discriminate].
      destruct (key y) as [k2|] eqn:K2; [|discriminate].
      cbn in Hxy, Hyx. eapply U; eauto.
    + pose proof (sort_values_sorted l) as S. unfold sort_values in S.
      cbv zeta in S. clear -S.
      induction (take _ _) as [|a t IH]; [constructor|].
      cbn in S. inversion S as [|? ? St Hall]; subst.
      constructor; [now apply IH|].
      now apply Forall_app in Hall.
    + apply stable_sort_sorted; [apply by_key_total | apply by_key_trans].
    + rewrite sort_values_present. symmetry. apply stable_sort_perm.
  - symmetry. apply stable_sort_id. apply missing_sorted.
Qed.

End SortValues.

Arguments by_key {A K} key leb a b.

(** ** One [argsort]: the insertion sort *)

Definition insertion_argsort (K : Type) (leb : K -> K -> bool)
  (ks : list K) : list nat :=
  map fst (stable_sort (fun a b => leb (snd a) (snd b))
             (combine (seq 0 (length ks)) ks)).

Lemma combine_seq_positions {K : Type} (ks : list K) s :
  map fst (combine (seq s (length ks)) ks) = seq s (length ks).
Proof.
  revert s. induction ks as [|k ks IH]; intros s; [reflexivity|].
  cbn. now rewrite IH.
Qed.

Lemma combine_seq_nth {K : Type} (ks : list K) i k :
  In (i, k) (combine (seq 0 (length ks)) ks) -> nth_error ks i = Some k.
Proof.
  assert (G : forall s, In (i, k) (combine (seq s (length ks)) ks) ->
                (s <= i)%nat /\ nth_error ks (i - s) = Some k).
  { induction ks as [|k0 ks IH]; intros s; cbn; [tauto|].
    intros [[= <- <-]|H].
    - rewrite Nat.sub_diag. split; [lia | reflexivity].
    - destruct (IH (S s) H) as [L E]. split; [lia|].
      replace (i - s)%nat with (S (i - S s)) by lia. exact E. }
  intros H. destruct (G 0%nat H) as [_ E]. now rewrite Nat.sub_0_r in E.
Qed.

Lemma insertion_argsort_perm K leb ks :
  Permutation (insertion_argsort K leb ks) (seq 0 (length ks)).
Proof.
  unfold insertion_argsort.
  rewrite <- (combine_seq_positions ks 0) at 2.
  apply Permutation_map, stable_sort_perm.
Qed.

Lemma insertion_argsort_sorted K (leb : K -> K -> bool) ks :
  (forall a b, leb a b = true \/ leb b a = true) ->
  (forall a b c, leb a b = true -> leb b c = true -> leb a c = true) ->
  StronglySorted (le_rel leb) (take (insertion_argsort K leb ks) ks).
Proof.
  intros T R. unfold insertion_argsort.
  set (pairs := stable_sort (fun a b => leb (snd a) (snd b))
                  (combine (seq 0 (length ks)) ks)).
  assert (S : StronglySorted (le_rel (fun a b : nat * K => leb (snd a) (snd b)))
                pairs).
  { apply stable_sort_sorted; [intros; apply T | intros ? ? ?; apply R]. }
  assert (N : forall p, In p pairs -> nth_error ks (fst p) = Some (snd p)).
  { intros [i k] Hp. apply stable_sort_in in Hp. cbn.
    now apply combine_seq_nth. }
  assert (E : take (map fst pairs) ks = map snd pairs).
  { clear S. unfold take. induction pairs as [|p t IH]; [reflexivity|].
    cbn. rewrite (N p (or_introl eq_refl)). cbn. f_equal.
    apply IH. intros q Hq. apply N. now right. }
  rewrite E. clear E N.
  induction S as [|p t St IH Hall]; cbn; constructor; [exact IH|].
  apply Forall_forall. intros k Hk. apply in_map_iff in Hk.
  destruct Hk as [q [<- Hq]]. rewrite Forall_forall in Hall.
  now apply Hall.
Qed.

Definition insertion : Numpy :=
  mkNumpy insertion_argsort insertion_argsort_perm insertion_argsort_sorted.

(* ================================================================== *)
(** * Python values: exceptions, strings, number formatting *)
(* ================================================================== *)

(** The exceptions the two scripts can meet. *)
Inductive exn : Type :=
| IndexError      (* [parts[1]] on a list with one element *)
| AttributeError  (* [.split] on a cell that is not a [str] *)
| ValueError      (* pandas: Index contains duplicate entries; matplotlib *)
| ZeroDivisionError   (* [1 / x] on a Python float that is zero *)
| TypeError.      (* matplotlib: no numeric data to plot *)

Inductive result (A : Type) : Type :=
| Ok (a : A)
| Raise (e : exn).

Arguments Ok {A} a.
Arguments Raise {A} e.

Definition bind {A B : Type} (r : result A) (k : A -> result B) : result B :=
  match r with
  | Ok a => k a
  | Raise e => Raise e
  end.

Notation "x <- r ;; k" := (bind r (fun x => k))
  (at level 61, r at next level, right associativity).

(** [s.split(sep)] for a one-character separator: never empty. *)
Fixpoint split (sep : ascii) (s : string) : list string :=
  match s with
  | EmptyString => [EmptyString]
  | String c rest =>
      if Ascii.eqb c sep then EmptyString :: split sep rest
      else match split sep rest with
           | p :: ps => String c p :: ps
           | [] => [String c EmptyString]
           end
  end.

(** [x.split('_')[1].split('.')[0]] *)
Definition size_token (x : string) : result string :=
  match nth_error (split "_"%char x) 1 with
  | Some seg => Ok (hd EmptyString (split "."%char seg))
  | None => Raise IndexError
  end.

(** An int64 read as a binary64 (what [/] on two numpy integers does first). *)
Definition Z2F (z : Z) : float :=
  if z <? 0 then (- PrimFloat.of_uint63 (Uint63.of_Z (- z)))%float
  else PrimFloat.of_uint63 (Uint63.of_Z z).

Definition string_of_Z (n : Z) : string :=
  NilZero.string_of_uint (N.to_uint (Z.to_N n)).

Fixpoint zeros (n : nat) : string :=
  match n with
  | O => EmptyString
  | S k => String "0"%char (zeros k)
  end.

(** The digits of [n / 10^d], with [d] decimals. *)
Definition fixed_digits (d : nat) (n : Z) : string :=
  let p := 10 ^ Z.of_nat d in
  let frac := string_of_Z (n mod p) in
  match d with
  | O => string_of_Z n
  | _ => (string_of_Z (n / p) ++ "." ++
          zeros (d - String.length frac) ++ frac)%string
  end.

(** [m * 2^e * 10^d] rounded to the nearest integer, halves to even. *)
Definition scaled_round (d : nat) (m : positive) (e : Z) : Z :=
  let num := Z.pos m * 10 ^ Z.of_nat d in
  if 0 <=? e then num * 2 ^ e
  else
    let den := 2 ^ (- e) in
    let q := num / den in
    let r := num mod den in
    if (den <? 2 * r) || ((2 * r =? den) && Z.odd q) then q + 1 else q.

(** [f"{x:.df}"]: the exact binary value, correctly rounded to [d]
    decimals. *)
Definition format_f (d : nat) (x : float) : string :=
  match Prim2SF x with
  | S754_nan => "nan"%string
  | S754_infinity s => if s then "-inf"%string else "inf"%string
  | S754_zero s =>
      ((if s then "-" else "") ++ fixed_digits d 0)%string
  | S754_finite s m e =>
      ((if s then "-" else "") ++ fixed_digits d (scaled_round d m e))%string
  end.

(** The first occurrences, in order of appearance: [Series.unique()]. *)
Fixpoint unique_from (seen : list string) (l : list string) : list string :=
  match l with
  | [] => []
  | x :: t =>
      if existsb (String.eqb x) seen then unique_from seen t
      else x :: unique_from (x :: seen) t
  end.

Definition unique (l : list string) : list string := unique_from [] l.

Lemma unique_from_in seen l x :
  In x (unique_from seen l) <-> In x l /\ ~ In x seen.
Proof.
  revert seen. induction l as [|y t IH]; intros seen; cbn.
  - tauto.
  - destruct (existsb (String.eqb y) seen) eqn:E.
    + apply existsb_exists in E. destruct E as [z [Hz Hyz]].
      apply String.eqb_eq in Hyz. subst z.
      rewrite IH. split.
      * intros [H1 H2]. auto.
      * intros [[->|H1] H2]; [contradiction | auto].
    + assert (Hy : ~ In y seen).
      { intros Hy. assert (existsb (String.eqb y) seen = true).
        { apply existsb_exists. exists y. split; [exact Hy|].
          apply String.eqb_refl. }
        congruence. }
      cbn. rewrite IH. cbn. split.
      * intros [<-|[H1 H2]]; [auto | split; [now right | tauto]].
      * intros [[<-|H1] H2]; [now left|].
        destruct (String.eqb_spec y x) as [->|N]; [now left|].
        right. split; [exact H1|]. intros [?|?]; [contradiction | tauto].
Qed.

Lemma unique_from_NoDup seen l : NoDup (unique_from seen l).
Proof.
  revert seen. induction l as [|y t IH]; intros seen; cbn.
  - constructor.
  - destruct (existsb (String.eqb y) seen); [apply IH|].
    constructor; [|apply IH].
    rewrite unique_from_in. intros [_ H]. apply H. now left.
Qed.

Lemma unique_in l x : In x (unique l) <-> In x l.
Proof. unfold unique. rewrite unique_from_in. cbn. tauto. Qed.

Lemma unique_NoDup l : NoDup (unique l).
Proof. apply unique_from_NoDup. Qed.

(* ================================================================== *)
(** * Pivot tables: [DataFrame.pivot] and [reindex] *)
(* ================================================================== *)

(** [df.pivot(index=i, columns=c, values=v)] reads a frame as a list of
    [(i, c, v)] triples.  The result has one row per index label and one
    cell per column label, both in sorted order; a cell no triple fills is
    missing ([None], pandas' NaN).  Two triples for the same cell are an
    error: pandas raises [ValueError] (Index contains duplicate entries,
    cannot reshape). *)

Section Pivot.

Variables K V : Type.
Variable keqb : K -> K -> bool.
Variable kleb : K -> K -> bool.

Record Frame : Type := mkFrame {
  columns : list K;
  rows : list (string * list (K * option V))
}.

Definition index (fr : Frame) : list string := map fst (rows fr).

Definition same_cell (i : string) (c : K) (e : string * K * V) : bool :=
  String.eqb (fst (fst e)) i && keqb (snd (fst e)) c.

Fixpoint has_duplicates (l : list (string * K * V)) : bool :=
  match l with
  | [] => false
  | e :: t => existsb (same_cell (fst (fst e)) (snd (fst e))) t
              || has_duplicates t
  end.

Fixpoint dedup (seen : list K) (l : list K) : list K :=
  match l with
  | [] => []
  | x :: t =>
      if existsb (keqb x) seen then dedup seen t
      else x :: dedup (x :: seen) t
  end.

Definition cell_value (l : list (string * K * V)) (i : string) (c : K)
  : option V :=
  option_map snd (find (same_cell i c) l).

Definition pivot (l : list (string * K * V)) : result Frame :=
  if has_duplicates l then Raise ValueError
  else
    let idx := stable_sort String.leb (unique (map (fun e => fst (fst e)) l)) in
    let cols := stable_sort kleb (dedup [] (map (fun e => snd (fst e)) l)) in
    Ok (mkFrame cols
          (map (fun i => (i, map (fun c => (c, cell_value l i c)) cols)) idx)).

Definition find_row (fr : Frame) (i : string)
  : option (list (K * option V)) :=
  option_map snd (find (fun r => String.eqb (fst r) i) (rows fr)).

(** [fr.reindex(labels)]: the rows of [labels], in that order; a label the
    frame does not have gets a row of missing values. *)
Definition reindex (labels : list string) (fr : Frame) : Frame :=
  mkFrame (columns fr)
    (map (fun i =>
            (i, match find_row fr i with
                | Some r => r
                | None => map (fun c => (c, None)) (columns fr)
                end)) labels).

(** [fr.loc[i, c]]: [None] when the frame has no such row or column. *)
Definition frame_get (fr : Frame) (i : string) (c : K)
  : option (option V) :=
  match find_row fr i with
  | Some r => option_map snd (find (fun kv => keqb (fst kv) c) r)
  | None => None
  end.

Lemma index_reindex labels fr : index (reindex labels fr) = labels.
Proof.
  unfold index, reindex; cbn. rewrite map_map. cbn. apply map_id.
Qed.

Lemma has_duplicates_pair l n1 n2 e1 e2 :
  (n1 < n2)%nat ->
  nth_error l n1 = Some e1 -> nth_error l n2 = Some e2 ->
  same_cell (fst (fst e1)) (snd (fst e1)) e2 = true ->
  has_duplicates l = true.
Proof.
  revert n1 n2. induction l as [|e t IH]; intros n1 n2 Hlt H1 H2 Hs.
  - destruct n1; discriminate.
  - cbn. destruct n1 as [|n1].
    + cbn in H1. injection H1 as ->.
      destruct n2 as [|n2]; [lia|]. cbn in H2.
      apply orb_true_iff. left. apply existsb_exists.
      exists e2. split; [eapply nth_error_In; eauto | exact Hs].
    + destruct n2 as [|n2]; [lia|]. cbn in H1, H2.
      apply orb_true_iff. right. apply (IH n1 n2); auto. lia.
Qed.

End Pivot.

Arguments mkFrame {K V} columns rows.
Arguments columns {K V} f.
Arguments rows {K V} f.
Arguments index {K V} fr.
Arguments same_cell {K V} keqb i c e.
Arguments has_duplicates {K V} keqb l.
Arguments dedup {K} keqb seen l.
Arguments cell_value {K V} keqb l i c.
Arguments pivot {K V} keqb kleb l.
Arguments find_row {K V} fr i.
Arguments reindex {K V} labels fr.
Arguments frame_get {K V} keqb fr i c.

(* ================================================================== *)
(** * benchmark/analyze_results.py: the Record Loader *)
(* ================================================================== *)

(** A row of [benchmark_results.csv] as [pd.read_csv] returns it.
    [raw_log] is the text of the [log] cell when the cell is a [str], and
    [None] when it is not: an empty field is read as a float NaN, and when
    every field of the column is numeric the whole column is read as
    numbers.  Neither has a [split].  The [tool] column is taken to be text:
    no field of it is empty, and not all of them are numbers. *)
Record RawRow : Type := mkRawRow {
  raw_tool : string;
  raw_log : option string;
  raw_time_seconds : float;
  raw_memory_mb : float
}.

(** A row of the frame [load_data] returns. *)
Record Row : Type := mkRow {
  tool : string;
  log : string;
  time_seconds : float;
  memory_mb : float;
  size_name : string;
  size_numeric : option Z      (* [None] is NaN *)
}.

Definition size_mapping : list (string * Z) :=
  [("10k"%string, 10000); ("100k"%string, 100000); ("1m"%string, 1000000)].

Definition size_order : list string := ["10k"; "100k"; "1m"]%string.

Fixpoint dict_get (d : list (string * Z)) (k : string) : option Z :=
  match d with
  | [] => None
  | (k', v) :: t => if String.eqb k' k then Some v else dict_get t k
  end.

(** The two derived columns of one row:
    [df['log'].apply(lambda x: x.split('_')[1].split('.')[0])], then
    [df['size_name'].map(size_mapping)]; [Series.map] with a dict gives NaN
    for a key the dict does not have. *)
Definition add_size (r : RawRow) : result Row :=
  match raw_log r with
  | None => Raise AttributeError   (* a float or an int has no [split] *)
  | Some x =>
      name <- size_token x ;;
      Ok (mkRow (raw_tool r) x (raw_time_seconds r) (raw_memory_mb r)
                name (dict_get size_mapping name))
  end.

Fixpoint map_result {A B : Type} (f : A -> result B) (l : list A)
  : result (list B) :=
  match l with
  | [] => Ok []
  | a :: t => b <- f a ;; bs <- map_result f t ;; Ok (b :: bs)
  end.

(** Missing sizes sort last. *)
Definition size_leb (a b : option Z) : bool :=
  match a, b with
  | _, None => true
  | None, Some _ => false
  | Some x, Some y => x <=? y
  end.

(** The order of [sort_values(['tool', 'size_numeric'])]. *)
Definition tool_size_leb (r1 r2 : Row) : bool :=
  match String.compare (tool r1) (tool r2) with
  | Lt => true
  | Gt => false
  | Eq => size_leb (size_numeric r1) (size_numeric r2)
  end.

Definition load_data (csv : list RawRow) : result (list Row) :=
  df <- map_result add_size csv ;;
  Ok (stable_sort tool_size_leb df).

(* ================================================================== *)
(** * The Pivot Aggregator *)
(* ================================================================== *)

(** [df.pivot(index='size_name', columns='tool', values=metric)], then
    [reindex(size_order)]: lines 46-50 and 74-78.  The chart each function
    draws from this table comes after, and is not modelled. *)
Definition pivot_by (metric : Row -> float) (df : list Row)
  : result (Frame string float) :=
  pivot_df <- pivot String.eqb String.leb
                (map (fun r => (size_name r, tool r, metric r)) df) ;;
  Ok (reindex size_order pivot_df).

(** The table [generate_time_comparison] plots. *)
Definition generate_time_comparison (df : list Row) :=
  pivot_by time_seconds df.

(** The table [generate_memory_comparison] plots. *)
Definition generate_memory_comparison (df : list Row) :=
  pivot_by memory_mb df.

(* ================================================================== *)
(** * The Scaling Analyzer: [generate_scaling_analysis] *)
(* ================================================================== *)

(** One row of [scaling_data], together with the three numbers the loop
    body computes and formats it from. *)
Record ScalingEntry : Type := mkScalingEntry {
  se_Tool : string;                (* 'Tool' *)
  se_Size_Change : string;         (* 'Size Change' *)
  se_Time_Increase : string;       (* 'Time Increase' *)
  se_Scaling_Factor : string;      (* 'Scaling Factor' *)
  size_ratio : float;
  time_ratio : float;
  scaling_factor : float
}.

Definition size_float (s : option Z) : float :=
  match s with
  | Some z => Z2F z
  | None => nan
  end.

(** The body of the inner loop, for [prev = tool_data.iloc[i-1]] and
    [curr = tool_data.iloc[i]]. *)
Definition scaling_entry (t : string) (prev curr : Row) : ScalingEntry :=
  let size_ratio :=
    (size_float (size_numeric curr) / size_float (size_numeric prev))%float in
  let time_ratio := (time_seconds curr / time_seconds prev)%float in
  let scaling_factor := (time_ratio / size_ratio)%float in
  mkScalingEntry t
    (size_name prev ++ " → " ++ size_name curr)%string
    (format_f 2 time_ratio ++ "x")%string
    (format_f 3 scaling_factor)
    size_ratio time_ratio scaling_factor.

Definition by_size (a b : Row) : bool :=
  size_leb (size_numeric a) (size_numeric b).

(** [df[df['tool'] == tool].sort_values('size_numeric')] *)
Definition tool_rows (np : Numpy) (df : list Row) (t : string) : list Row :=
  sort_values np size_numeric Z.leb
    (filter (fun r => String.eqb (tool r) t) df).

(** [for i in range(1, len(tool_data))], guarded by
    [len(tool_data) >= 2]. *)
Definition scaling_loop (t : string) (tool_data : list Row)
  : list ScalingEntry :=
  if (2 <=? length tool_data)%nat then
    flat_map
      (fun i =>
         match nth_error tool_data (i - 1)%nat, nth_error tool_data i with
         | Some prev, Some curr => [scaling_entry t prev curr]
         | _, _ => []
         end)
      (seq 1 (length tool_data - 1)%nat)
  else [].

Definition scaling_for_tool (np : Numpy) (df : list Row) (t : string)
  : list ScalingEntry :=
  scaling_loop t (tool_rows np df t).

(** [scaling_data] after the loop over [df['tool'].unique()]
    (lines 130-148). *)
Definition scaling_data (np : Numpy) (df : list Row) : list ScalingEntry :=
  flat_map (scaling_for_tool np df) (unique (map tool df)).

(** [generate_scaling_analysis] first draws and saves its chart (lines
    102-128), then runs the loop and writes [scaling_factors.csv].  The
    chart is matplotlib's work, which is not modelled: [chart] is its
    outcome in the run at hand, [Ok tt] when it was drawn and [Raise e] when
    drawing raised [e] (matplotlib does raise on some tables, for one on a
    table none of whose sizes is in [size_mapping]).  An exception of the
    chart ends the function before the loop. *)
Definition generate_scaling_analysis (np : Numpy) (chart : result unit)
  (df : list Row) : result (list ScalingEntry) :=
  _ <- chart ;;
  Ok (scaling_data np df).

(** The adjacent pairs of a list, in order. *)
Fixpoint adjacent {A : Type} (l : list A) : list (A * A) :=
  match l with
  | a :: (b :: _) as t => (a, b) :: adjacent t
  | _ => []
  end.

Lemma adjacent_length {A : Type} (l : list A) :
  length (adjacent l) = (length l - 1)%nat.
Proof.
  induction l as [|a [|b t] IH]; cbn in *; try reflexivity.
  rewrite IH. lia.
Qed.

Lemma size_leb_total a b : size_leb a b = true \/ size_leb b a = true.
Proof. destruct a, b; cbn; auto. lia. Qed.

Lemma size_leb_trans a b c :
  size_leb a b = true -> size_leb b c = true -> size_leb a c = true.
Proof. destruct a, b, c; cbn; auto; try discriminate. lia. Qed.

Lemma size_leb_antisym a b :
  size_leb a b = true -> size_leb b a = true -> a = b.
Proof.
  destruct a, b; cbn; auto; try discriminate.
  intros. f_equal. lia.
Qed.

Lemma by_size_total a b : by_size a b = true \/ by_size b a = true.
Proof. apply size_leb_total. Qed.

Lemma by_size_trans a b c :
  by_size a b = true -> by_size b c = true -> by_size a c = true.
Proof. apply size_leb_trans. Qed.

Lemma flat_map_ext_on {A B : Type} (f g : A -> list B) l :
  (forall x, In x l -> f x = g x) -> flat_map f l = flat_map g l.
Proof.
  induction l as [|a t IH]; intros H; cbn; [reflexivity|].
  rewrite H by now left. rewrite IH; [reflexivity|].
  intros x Hx. apply H. now right.
Qed.

Lemma index_loop_adjacent {A B : Type} (f : A -> A -> B) (l : list A) :
  flat_map
    (fun i =>
       match nth_error l (i - 1)%nat, nth_error l i with
       | Some prev, Some curr => [f prev curr]
       | _, _ => []
       end)
    (seq 1 (length l - 1)%nat)
  = map (fun pc => f (fst pc) (snd pc)) (adjacent l).
Proof.
  induction l as [|a [|b t] IH]; try reflexivity.
  change (adjacent (a :: b :: t)) with ((a, b) :: adjacent (b :: t)).
  cbn [map fst snd].
  rewrite <- IH.
  cbn [length].
  replace (S (S (length t)) - 1)%nat with (S (length t)) by lia.
  replace (S (length t) - 1)%nat with (length t) by lia.
  cbn [seq flat_map].
  change (nth_error (a :: b :: t) (1 - 1)) with (Some a).
  change (nth_error (a :: b :: t) 1) with (Some b).
  cbn [app]. f_equal.
  rewrite <- seq_shift, flat_map_concat_map, map_map,
    <- flat_map_concat_map.
  apply flat_map_ext_on. intros i Hi.
  apply in_seq in Hi.
  destruct i as [|i]; [lia|].
  cbn [nth_error Nat.sub]. rewrite Nat.sub_0_r. reflexivity.
Qed.

Lemma scaling_loop_adjacent t l :
  scaling_loop t l =
  map (fun pc => scaling_entry t (fst pc) (snd pc)) (adjacent l).
Proof.
  unfold scaling_loop. rewrite index_loop_adjacent.
  destruct l as [|a [|b l']]; reflexivity.
Qed.

Lemma scaling_loop_tool t l :
  Forall (fun e => se_Tool e = t) (scaling_loop t l).
Proof.
  rewrite scaling_loop_adjacent. apply Forall_forall.
  intros e He. apply in_map_iff in He. destruct He as [pc [<- _]].
  reflexivity.
Qed.

Lemma filter_flat_map {A B : Type} (p : B -> bool) (f : A -> list B) l :
  filter p (flat_map f l) = flat_map (fun x => filter p (f x)) l.
Proof.
  induction l as [|a t IH]; cbn; [reflexivity|].
  now rewrite filter_app, IH.
Qed.

Lemma flat_map_single {B : Type} (g : string -> list B) (t : string) l :
  NoDup l ->
  flat_map (fun x => if String.eqb x t then g x else []) l =
  if existsb (String.eqb t) l then g t else [].
Proof.
  induction 1 as [|a l Ha Hl IH]; cbn; [reflexivity|].
  rewrite IH. rewrite (String.eqb_sym t a).
  destruct (String.eqb_spec a t) as [->|N]; cbn; [|reflexivity].
  destruct (existsb (String.eqb t) l) eqn:E; [|apply app_nil_r].
  apply existsb_exists in E. destruct E as [z [Hz Hzt]].
  apply String.eqb_eq in Hzt. subst z. contradiction.
Qed.

Lemma Zleb_total a b : (a <=? b) = true \/ (b <=? a) = true.
Proof. lia. Qed.

Lemma Zleb_trans a b c :
  (a <=? b) = true -> (b <=? c) = true -> (a <=? c) = true.
Proof. lia. Qed.

(** [by_size] is the order of the [size_numeric] column. *)
Lemma by_size_by_key a b : by_size a b = by_key size_numeric Z.leb a b.
Proof. reflexivity. Qed.

Lemma tool_rows_perm np df t :
  Permutation (tool_rows np df t)
              (filter (fun r => String.eqb (tool r) t) df).
Proof. apply sort_values_perm. Qed.

Lemma tool_rows_sorted np df t :
  StronglySorted (le_rel by_size) (tool_rows np df t).
Proof.
  apply (sort_values_sorted np Row Z size_numeric Z.leb
           Zleb_total Zleb_trans).
Qed.

(** The rows of a tool come in one order only, whatever [np], when no two
    of them have the same size (missing sizes apart, which keep frame
    order). *)
Lemma tool_rows_determined np df t :
  (forall r1 r2, In r1 df -> In r2 df -> tool r1 = t -> tool r2 = t ->
     size_numeric r1 = size_numeric r2 -> size_numeric r1 <> None ->
     r1 = r2) ->
  tool_rows np df t
  = stable_sort by_size (filter (fun r => String.eqb (tool r) t) df).
Proof.
  intros U. unfold tool_rows.
  apply (sort_values_determined np Row Z size_numeric Z.leb
           Zleb_total Zleb_trans).
  intros x y k1 k2 Hx Hy K1 K2 L1 L2.
  apply filter_In in Hx, Hy. destruct Hx as [Hx Tx], Hy as [Hy Ty].
  apply String.eqb_eq in Tx, Ty.
  apply U; auto; rewrite K1; [|discriminate].
  rewrite K2. f_equal. lia.
Qed.

Lemma tool_rows_absent np df t :
  ~ In t (map tool df) -> tool_rows np df t = [].
Proof.
  intros N. unfold tool_rows.
  assert (E : filter (fun r => String.eqb (tool r) t) df = []).
  { apply filter_none. apply Forall_forall. intros r Hr.
    destruct (String.eqb_spec (tool r) t) as [<-|]; [|reflexivity].
    elim N. now apply in_map. }
  rewrite E. apply sort_values_all_missing. intros x [].
Qed.

(** The entries of one tool are exactly those its own loop appended. *)
Lemma scaling_entries_of_tool np df t :
  filter (fun e => String.eqb (se_Tool e) t) (scaling_data np df)
  = scaling_for_tool np df t.
Proof.
  unfold scaling_data. rewrite filter_flat_map.
  rewrite (flat_map_ext_on _
    (fun x => if String.eqb x t then scaling_for_tool np df x else [])).
  - rewrite flat_map_single by apply unique_NoDup.
    destruct (existsb (String.eqb t) (unique (map tool df))) eqn:E;
      [reflexivity|].
    unfold scaling_for_tool. rewrite tool_rows_absent; [reflexivity|].
    intros I.
    assert (existsb (String.eqb t) (unique (map tool df)) = true);
      [|congruence].
    apply existsb_exists. exists t.
    split; [now apply unique_in | apply String.eqb_refl].
  - intros x _. unfold scaling_for_tool.
    pose proof (scaling_loop_tool x (tool_rows np df x)) as F.
    destruct (String.eqb_spec x t) as [->|N].
    + apply filter_all. eapply Forall_impl; [|exact F].
      intros e ->. apply String.eqb_refl.
    + apply filter_none. eapply Forall_impl; [|exact F].
      intros e ->. now apply String.eqb_neq.
Qed.

(** The loop raises nothing: the function returns the loop's entries when
    the chart was drawn, and ends with the chart's exception otherwise. *)
Lemma generate_scaling_analysis_inv np chart df scaling_df :
  generate_scaling_analysis np chart df = Ok scaling_df ->
  chart = Ok tt /\ scaling_df = scaling_data np df.
Proof.
  unfold generate_scaling_analysis.
  destruct chart as [[]|e]; cbn [bind]; [|discriminate].
  intros [= <-]. auto.
Qed.


(** On a table without equal sizes within a tool the entries are the same
    for every [np]. *)
Lemma scaling_data_determined np df :
  (forall r1 r2, In r1 df -> In r2 df -> tool r1 = tool r2 ->
     size_numeric r1 = size_numeric r2 -> size_numeric r1 <> None ->
     r1 = r2) ->
  scaling_data np df = scaling_data insertion df.
Proof.
  intros U. unfold scaling_data. apply flat_map_ext_on. intros t _.
  unfold scaling_for_tool.
  rewrite !tool_rows_determined; [reflexivity| |];
    intros r1 r2 H1 H2 T1 T2; apply U; auto; congruence.
Qed.


Lemma filter_perm {A : Type} (p : A -> bool) l1 l2 :
  Permutation l1 l2 -> Permutation (filter p l1) (filter p l2).
Proof.
  induction 1 as [|x l1 l2 _ IH|x y l|l1 l2 l3 _ IH1 _ IH2]; cbn.
  - constructor.
  - destruct (p x); [now constructor | exact IH].
  - destruct (p x), (p y); try reflexivity. apply perm_swap.
  - now rewrite IH1.
Qed.


(** ** Exact doubling *)







(** ** Sample tables *)

Definition row (t x : string) (time mem : float) (name : string)
  (n : option Z) : Row := mkRow t x time mem name n.

(** Time and size both double between the two records of tool A. *)
Definition df_doubling : list Row :=
  [ row "A" "x_20k.json" 3 70 "20k" (Some 20000);
    row "A" "x_10k.json" 1.5 50 "10k" (Some 10000) ].

Example df_doubling_entries :
  generate_scaling_analysis insertion (Ok tt) df_doubling =
  Ok [ mkScalingEntry "A" "10k → 20k" "2.00x" "1.000" 2 2 1 ].
Proof. vm_compute. reflexivity. Qed.



(** ** Zero times, and independence between tools *)






(** ** Row order *)

(** Two measurements of tool A whose labels [5k] and [7k] are not in
    [size_mapping], so that both get a missing [size_numeric], and one
    measurement of tool B at [10k]. *)
Definition csv_unmapped : list RawRow :=
  [ mkRawRow "A" (Some "x_5k.json"%string) 1 50;
    mkRawRow "A" (Some "x_7k.json"%string) 2 60;
    mkRawRow "B" (Some "x_10k.json"%string) 3 70 ].

Definition csv_unmapped_swapped : list RawRow :=
  [ mkRawRow "A" (Some "x_7k.json"%string) 2 60;
    mkRawRow "A" (Some "x_5k.json"%string) 1 50;
    mkRawRow "B" (Some "x_10k.json"%string) 3 70 ].

Definition df_unmapped : list Row :=
  [ row "A" "x_5k.json" 1 50 "5k" None;
    row "A" "x_7k.json" 2 60 "7k" None;
    row "B" "x_10k.json" 3 70 "10k" (Some 10000) ].

Definition df_unmapped_swapped : list Row :=
  [ row "A" "x_7k.json" 2 60 "7k" None;
    row "A" "x_5k.json" 1 50 "5k" None;
    row "B" "x_10k.json" 3 70 "10k" (Some 10000) ].

Example load_csv_unmapped :
  load_data csv_unmapped = Ok df_unmapped /\
  load_data csv_unmapped_swapped = Ok df_unmapped_swapped.
Proof. split; vm_compute; reflexivity. Qed.

(** The two pivots that run before the scaling analysis accept the table:
    the labels [5k], [7k] and [10k] are distinct cells. *)
Example pivot_unmapped_ok :
  generate_time_comparison df_unmapped =
    Ok (mkFrame ["A"; "B"]%string
          [ ("10k"%string, [("A"%string, None); ("B"%string, Some 3%float)]);
            ("100k"%string, [("A"%string, None); ("B"%string, None)]);
            ("1m"%string, [("A"%string, None); ("B"%string, None)]) ]).
Proof. vm_compute. reflexivity. Qed.

Lemma df_unmapped_sizes r1 r2 :
  In r1 df_unmapped -> In r2 df_unmapped -> tool r1 = tool r2 ->
  size_numeric r1 = size_numeric r2 -> size_numeric r1 <> None -> r1 = r2.
Proof.
  unfold df_unmapped. intros H1 H2 Ht Hs N. cbn in H1, H2.
  destruct H1 as [<-|[<-|[<-|[]]]]; destruct H2 as [<-|[<-|[<-|[]]]];
    try reflexivity; try discriminate; now elim N.
Qed.

Lemma df_unmapped_swapped_sizes r1 r2 :
  In r1 df_unmapped_swapped -> In r2 df_unmapped_swapped ->
  tool r1 = tool r2 ->
  size_numeric r1 = size_numeric r2 -> size_numeric r1 <> None -> r1 = r2.
Proof.
  unfold df_unmapped_swapped. intros H1 H2 Ht Hs N. cbn in H1, H2.
  destruct H1 as [<-|[<-|[<-|[]]]]; destruct H2 as [<-|[<-|[<-|[]]]];
    try reflexivity; try discriminate; now elim N.
Qed.

(** Counterexample to C10 as stated: [df_unmapped_swapped] is
    [df_unmapped] with its first two rows exchanged (and each is what
    [load_data] returns for the CSV rows in that order), yet for every [np]
    the entry for tool A is [5k → 7k] with time increase 2.00x for one and
    [7k → 5k] with 0.50x for the other: the rows without a size stay in
    frame order. *)
Lemma scaling_depends_on_row_order :
  Permutation df_unmapped df_unmapped_swapped /\
  forall np : Numpy,
  exists scaling_df scaling_df',
    generate_scaling_analysis np (Ok tt) df_unmapped = Ok scaling_df /\
    generate_scaling_analysis np (Ok tt) df_unmapped_swapped
    = Ok scaling_df' /\
    map se_Size_Change scaling_df = ["5k → 7k"%string] /\
    map se_Time_Increase scaling_df = ["2.00x"%string] /\
    map se_Size_Change scaling_df' = ["7k → 5k"%string] /\
    map se_Time_Increase scaling_df' = ["0.50x"%string] /\
    filter (fun e => String.eqb (se_Tool e) "A") scaling_df <>
    filter (fun e => String.eqb (se_Tool e) "A") scaling_df'.
Proof.
  split; [apply perm_swap|]. intros np.
  exists (scaling_data np df_unmapped),
         (scaling_data np df_unmapped_swapped).
  split; [reflexivity|]. split; [reflexivity|].
  rewrite (scaling_data_determined np _ df_unmapped_sizes).
  rewrite (scaling_data_determined np _ df_unmapped_swapped_sizes).
  repeat split; try (vm_compute; reflexivity).
  intros H. apply (f_equal (map se_Size_Change)) in H.
  vm_compute in H. discriminate.
Qed.

(** C10, amended: when no tool has two different records with the same
    [size_numeric] (two missing sizes count as the same), the entries
    produced for each tool are the same for every permutation of the rows,
    in any two runs that get to the loop. *)
Theorem scaling_row_order_independent
  (np : Numpy) (chart chart' : result unit) (df df' : list Row)
  (scaling_df scaling_df' : list ScalingEntry) :
  Permutation df df' ->
  (forall r1 r2, In r1 df -> In r2 df ->
     tool r1 = tool r2 -> size_numeric r1 = size_numeric r2 -> r1 = r2) ->
  generate_scaling_analysis np chart df = Ok scaling_df ->
  generate_scaling_analysis np chart' df' = Ok scaling_df' ->
  forall t,
    filter (fun e => String.eqb (se_Tool e) t) scaling_df =
    filter (fun e => String.eqb (se_Tool e) t) scaling_df'.
Proof.
  intros P Huniq G G' t.
  apply generate_scaling_analysis_inv in G, G'.
  destruct G as [_ ->], G' as [_ ->].
  rewrite !scaling_entries_of_tool.
  unfold scaling_for_tool. f_equal.
  apply (sorted_perm_unique Row by_size).
  - intros x y Hx Hy Hxy Hyx.
    apply (Permutation_in _ (tool_rows_perm np df t)) in Hx, Hy.
    apply filter_In in Hx, Hy. destruct Hx as [Hx Tx], Hy as [Hy Ty].
    apply String.eqb_eq in Tx, Ty.
    apply Huniq; auto; [congruence|].
    now apply size_leb_antisym.
  - apply tool_rows_sorted.
  - apply tool_rows_sorted.
  - rewrite !tool_rows_perm. now apply filter_perm.
Qed.

Definition df_two_tools : list Row :=
  [ row "timber" "x_10k.json" 1 50 "10k" (Some 10000);
    row "toolB" "x_10k.json" 2 80 "10k" (Some 10000);
    row "timber" "x_100k.json" 9 90 "100k" (Some 100000) ].

Definition df_two_tools_permuted : list Row :=
  [ row "timber" "x_100k.json" 9 90 "100k" (Some 100000);
    row "timber" "x_10k.json" 1 50 "10k" (Some 10000);
    row "toolB" "x_10k.json" 2 80 "10k" (Some 10000) ].

Lemma scaling_row_order_independent_witness :
  filter (fun e => String.eqb (se_Tool e) "timber")
         (scaling_data insertion df_two_tools) =
  filter (fun e => String.eqb (se_Tool e) "timber")
         (scaling_data insertion df_two_tools_permuted).
Proof.
  apply (scaling_row_order_independent insertion (Ok tt) (Ok tt)
           df_two_tools df_two_tools_permuted).
  - unfold df_two_tools, df_two_tools_permuted.
    apply Permutation_sym, (Permutation_cons_app [_; _] []). reflexivity.
  - unfold df_two_tools. intros r1 r2 H1 H2 Ht Hs. cbn in H1, H2.
    destruct H1 as [<-|[<-|[<-|[]]]]; destruct H2 as [<-|[<-|[<-|[]]]];
      try reflexivity; discriminate.
  - reflexivity.
  - reflexivity.
Defined.

(* ================================================================== *)
(** * Facts about the Record Loader *)
(* ================================================================== *)

Lemma map_result_ok {A B : Type} (f : A -> result B) (l : list A) :
  (forall a, In a l -> exists b, f a = Ok b) ->
  exists bs, map_result f l = Ok bs /\
             Forall2 (fun a b => f a = Ok b) l bs.
Proof.
  induction l as [|a t IH]; intros H; cbn.
  - exists []. split; [reflexivity | constructor].
  - destruct (H a (or_introl eq_refl)) as [b Hb].
    destruct IH as [bs [E F]]; [intros; apply H; now right|].
    exists (b :: bs). rewrite Hb, E. cbn. split; [reflexivity|].
    now constructor.
Qed.

Lemma map_result_inv {A B : Type} (f : A -> result B) (l : list A) bs :
  map_result f l = Ok bs -> Forall2 (fun a b => f a = Ok b) l bs.
Proof.
  revert bs. induction l as [|a t IH]; intros bs; cbn.
  - intros [= <-]. constructor.
  - destruct (f a) as [b|e] eqn:Ea; cbn; [|discriminate].
    destruct (map_result f t) as [bs'|e] eqn:Et; cbn; [|discriminate].
    intros [= <-]. constructor; auto.
Qed.

Lemma Forall2_in_r {A B : Type} (R : A -> B -> Prop) l1 l2 b :
  Forall2 R l1 l2 -> In b l2 -> exists a, In a l1 /\ R a b.
Proof.
  induction 1 as [|x y l1 l2 HR _ IH]; cbn; [tauto|].
  intros [<-|Hb].
  - exists x. auto.
  - destruct (IH Hb) as [a [Ha HRa]]. exists a. auto.
Qed.

Lemma dict_get_none d k :
  ~ In k (map fst d) -> dict_get d k = None.
Proof.
  induction d as [|[k' v] t IH]; cbn; [reflexivity|].
  intros H. destruct (String.eqb_spec k' k) as [->|N]; [tauto|].
  apply IH. tauto.
Qed.

Lemma add_size_row r r' :
  add_size r = Ok r' ->
  raw_log r = Some (log r') /\ size_token (log r') = Ok (size_name r') /\
  tool r' = raw_tool r /\ time_seconds r' = raw_time_seconds r /\
  memory_mb r' = raw_memory_mb r /\
  size_numeric r' = dict_get size_mapping (size_name r').
Proof.
  unfold add_size. destruct (raw_log r) as [x|]; [|discriminate].
  destruct (size_token x) as [name|e] eqn:E; cbn; [|discriminate].
  intros [= <-]. cbn. auto 10.
Qed.

(** The sizes [load_data] assigns come from [size_mapping]: none is zero. *)
Lemma load_data_size_not_zero csv df r :
  load_data csv = Ok df -> In r df -> size_numeric r <> Some 0.
Proof.
  unfold load_data.
  destruct (map_result add_size csv) as [l|e] eqn:E; cbn; [|discriminate].
  intros [= <-] Hr. apply stable_sort_in in Hr.
  apply map_result_inv in E.
  destruct (Forall2_in_r _ _ _ _ E Hr) as [a [_ Ha]].
  apply add_size_row in Ha. destruct Ha as [_ [_ [_ [_ [_ Hs]]]]].
  rewrite Hs. unfold size_mapping. cbn [dict_get].
  repeat match goal with
  | |- context [String.eqb ?a ?b] => destruct (String.eqb a b)
  end; discriminate.
Qed.

(** A measurement whose label [5k] is not in [size_mapping]. *)
Definition csv_5k : list RawRow :=
  [ mkRawRow "timber" (Some "x_5k.json"%string) 1 50 ].

(** Counterexample to C4 as stated: the load of [csv_5k] does not fail; the
    row comes back with the label [5k] and a missing [size_numeric]. *)
Lemma load_data_unmapped_label_succeeds :
  load_data csv_5k = Ok [ row "timber" "x_5k.json" 1 50 "5k" None ].
Proof. vm_compute. reflexivity. Qed.

Lemma Forall2_in_l {A B : Type} (R : A -> B -> Prop) l1 l2 a :
  Forall2 R l1 l2 -> In a l1 -> exists b, In b l2 /\ R a b.
Proof.
  induction 1 as [|x y l1 l2 HR _ IH]; cbn; [tauto|].
  intros [<-|Ha].
  - exists y. auto.
  - destruct (IH Ha) as [b [Hb HRb]]. exists b. auto.
Qed.

Lemma dict_get_in d k : In k (map fst d) -> dict_get d k <> None.
Proof.
  induction d as [|[k' v] t IH]; cbn; [tauto|].
  destruct (String.eqb_spec k' k) as [->|N]; [discriminate|].
  intros [?|H]; [contradiction | auto].
Qed.

(** C4, amended: the Record Loader raises no error for a size token that is
    absent from the lookup table.  Whether the load succeeds depends only on
    every row's log identifier having a size token (a second
    [_]-separated segment); when it succeeds, the frame is the rows of the
    file, each with its tool, log and measurements, its label and the
    table's value for the label; the row of a label that is not in the
    table is kept, with a missing (NaN) [size_numeric], never a number. *)
Theorem load_data_unmapped_label_is_missing (csv : list RawRow) :
  ((exists df, load_data csv = Ok df) <->
   (forall a, In a csv ->
      exists x name, raw_log a = Some x /\ size_token x = Ok name)) /\
  (forall df, load_data csv = Ok df ->
     (exists l,
        Permutation df l /\
        Forall2 (fun a r =>
                   raw_log a = Some (log r) /\ tool r = raw_tool a /\
                   time_seconds r = raw_time_seconds a /\
                   memory_mb r = raw_memory_mb a /\
                   size_token (log r) = Ok (size_name r) /\
                   size_numeric r = dict_get size_mapping (size_name r))
                csv l) /\
     (forall a x name,
        In a csv -> raw_log a = Some x -> size_token x = Ok name ->
        ~ In name (map fst size_mapping) ->
        In (mkRow (raw_tool a) x (raw_time_seconds a) (raw_memory_mb a)
                  name None) df) /\
     (forall a x name,
        In a csv -> raw_log a = Some x -> size_token x = Ok name ->
        In (mkRow (raw_tool a) x (raw_time_seconds a) (raw_memory_mb a)
                  name (dict_get size_mapping name)) df) /\
     (forall r, In r df ->
        (size_numeric r = None <->
         ~ In (size_name r) (map fst size_mapping)))).
Proof.
  split.
  - split.
    + intros [df L] a Ha. unfold load_data in L.
      destruct (map_result add_size csv) as [l|e] eqn:E; cbn in L;
        [|discriminate].
      apply map_result_inv in E.
      destruct (Forall2_in_l _ _ _ _ E Ha) as [r [_ Hr]].
      apply add_size_row in Hr. destruct Hr as [Hl [Ht _]]. eauto.
    + intros H.
      destruct (map_result_ok add_size csv) as [bs [E F]].
      { intros r Hr. destruct (H r Hr) as [x [name [Hx Hn]]].
        unfold add_size. rewrite Hx, Hn. cbn. eauto. }
      exists (stable_sort tool_size_leb bs).
      unfold load_data. now rewrite E.
  - intros df L. unfold load_data in L.
    destruct (map_result add_size csv) as [l|e] eqn:E; cbn in L;
      [|discriminate].
    injection L as <-. apply map_result_inv in E.
    assert (K : forall a x name,
              In a csv -> raw_log a = Some x -> size_token x = Ok name ->
              In (mkRow (raw_tool a) x (raw_time_seconds a)
                        (raw_memory_mb a) name
                        (dict_get size_mapping name))
                 (stable_sort tool_size_leb l)).
    { intros a x name Ha Hx Hn. apply stable_sort_in.
      destruct (Forall2_in_l _ _ _ _ E Ha) as [r [Hr Hadd]].
      unfold add_size in Hadd. rewrite Hx, Hn in Hadd. cbn in Hadd.
      injection Hadd as <-. exact Hr. }
    split; [|split; [|split]].
    + exists l. split; [apply stable_sort_perm|].
      eapply Forall2_impl; [|exact E].
      intros a r H. apply add_size_row in H. tauto.
    + intros a x name Ha Hx Hn N.
      rewrite <- (dict_get_none size_mapping name N). eauto.
    + exact K.
    + intros r Hr. apply stable_sort_in in Hr.
      destruct (Forall2_in_r _ _ _ _ E Hr) as [a [_ Ha]].
      apply add_size_row in Ha.
      destruct Ha as [_ [_ [_ [_ [_ Hs]]]]]. rewrite Hs. split.
      * intros N I. now apply (dict_get_in size_mapping _ I).
      * apply dict_get_none.
Qed.

Lemma load_data_unmapped_label_is_missing_witness :
  In (mkRow "timber" "x_5k.json" 1 50 "5k" None)
     [ row "timber" "x_5k.json" 1 50 "5k" None ].
Proof.
  destruct (load_data_unmapped_label_is_missing csv_5k) as [_ H].
  destruct (H [ row "timber" "x_5k.json" 1 50 "5k" None ] eq_refl)
    as [_ [U _]].
  refine (U (mkRawRow "timber" (Some "x_5k.json"%string) 1 50)
            "x_5k.json"%string "5k"%string _ _ _ _).
  - now left.
  - reflexivity.
  - reflexivity.
  - cbn. intuition discriminate.
Defined.

(* ================================================================== *)
(** * Facts about pivot tables *)
(* ================================================================== *)

Section PivotFacts.

Variables K V : Type.
Variable keqb : K -> K -> bool.
Variable kleb : K -> K -> bool.
Hypothesis keqb_eq : forall a b, keqb a b = true <-> a = b.

Lemma find_labelled {B : Type} (g : string -> B) (i : string) idx :
  In i idx ->
  find (fun r => String.eqb (fst r) i) (map (fun j => (j, g j)) idx)
  = Some (i, g i).
Proof.
  induction idx as [|j t IH]; cbn; [tauto|].
  destruct (String.eqb_spec j i) as [->|N]; [reflexivity|].
  intros [?|H]; [contradiction | auto].
Qed.

Lemma find_unlabelled {B : Type} (g : string -> B) (i : string) idx :
  ~ In i idx ->
  find (fun r => String.eqb (fst r) i) (map (fun j => (j, g j)) idx) = None.
Proof.
  induction idx as [|j t IH]; cbn; [reflexivity|].
  destruct (String.eqb_spec j i) as [->|N]; [tauto|].
  intros H. apply IH. tauto.
Qed.

Lemma find_column {B : Type} (g : K -> B) (c : K) cols :
  In c cols ->
  find (fun kv => keqb (fst kv) c) (map (fun k => (k, g k)) cols)
  = Some (c, g c).
Proof.
  induction cols as [|k t IH]; cbn; [tauto|].
  destruct (keqb k c) eqn:E.
  - apply keqb_eq in E. now subst.
  - intros [->|H]; [|auto].
    assert (keqb c c = true) by now apply keqb_eq. congruence.
Qed.

Lemma dedup_in seen l x :
  In x (dedup keqb seen l) <-> In x l /\ ~ In x seen.
Proof.
  revert seen. induction l as [|y t IH]; intros seen; cbn; [tauto|].
  destruct (existsb (keqb y) seen) eqn:E.
  - apply existsb_exists in E. destruct E as [z [Hz Hyz]].
    apply keqb_eq in Hyz. subst z. rewrite IH. split.
    + intros [H1 H2]. auto.
    + intros [[->|H1] H2]; [contradiction | auto].
  - assert (Hy : ~ In y seen).
    { intros Hy. assert (existsb (keqb y) seen = true); [|congruence].
      apply existsb_exists. exists y. split; [exact Hy|]. now apply keqb_eq. }
    cbn. rewrite IH. cbn. split.
    + intros [<-|[H1 H2]]; [auto | split; [now right | tauto]].
    + intros [[<-|H1] H2]; [now left|].
      destruct (keqb y x) eqn:Eyx.
      * apply keqb_eq in Eyx. now left.
      * right. split; [exact H1|]. intros [->|?]; [|tauto].
        assert (keqb x x = true) by now apply keqb_eq. congruence.
Qed.

Lemma same_cell_iff i c (e : string * K * V) :
  same_cell keqb i c e = true <-> fst (fst e) = i /\ snd (fst e) = c.
Proof.
  unfold same_cell. rewrite andb_true_iff, String.eqb_eq, keqb_eq. tauto.
Qed.

(** Without duplicates, the triple found for a cell is the only one. *)
Lemma find_cell_unique (l : list (string * K * V)) e :
  has_duplicates keqb l = false -> In e l ->
  find (same_cell keqb (fst (fst e)) (snd (fst e))) l = Some e.
Proof.
  induction l as [|a t IH]; cbn; [tauto|].
  intros Hd He. apply orb_false_iff in Hd. destruct Hd as [Ha Ht].
  destruct (same_cell keqb (fst (fst e)) (snd (fst e)) a) eqn:E.
  - destruct He as [->|He]; [reflexivity|].
    apply same_cell_iff in E. destruct E as [E1 E2].
    assert (existsb (same_cell keqb (fst (fst a)) (snd (fst a))) t = true);
      [|congruence].
    apply existsb_exists. exists e. split; [exact He|].
    apply same_cell_iff. auto.
  - destruct He as [->|He]; [|auto].
    assert (same_cell keqb (fst (fst e)) (snd (fst e)) e = true)
      by now apply same_cell_iff.
    congruence.
Qed.

Lemma pivot_ok_iff (l : list (string * K * V)) :
  (exists fr, pivot keqb kleb l = Ok fr) <-> has_duplicates keqb l = false.
Proof.
  unfold pivot. destruct (has_duplicates keqb l); split; eauto.
  - intros [fr H]. discriminate.
  - discriminate.
Qed.

(** Every triple is in the table, at its own cell. *)
Lemma pivot_get (l : list (string * K * V)) fr i c v :
  pivot keqb kleb l = Ok fr -> In (i, c, v) l ->
  frame_get keqb fr i c = Some (Some v).
Proof.
  unfold pivot. destruct (has_duplicates keqb l) eqn:Hd; [discriminate|].
  intros [= <-] He. unfold frame_get, find_row. cbn [rows].
  rewrite find_labelled.
  2:{ apply stable_sort_in, unique_in.
      apply (in_map (fun e => fst (fst e))) in He. exact He. }
  cbn. rewrite find_column.
  2:{ apply stable_sort_in, dedup_in. split; [|tauto].
      apply (in_map (fun e => snd (fst e))) in He. exact He. }
  cbn. unfold cell_value.
  pose proof (find_cell_unique l (i, c, v) Hd He) as F.
  cbn [fst snd] in F. rewrite F. reflexivity.
Qed.

Lemma pivot_index (l : list (string * K * V)) fr i :
  pivot keqb kleb l = Ok fr ->
  (In i (index fr) <-> In i (map (fun e => fst (fst e)) l)).
Proof.
  unfold pivot. destruct (has_duplicates keqb l); [discriminate|].
  intros [= <-]. unfold index. cbn [rows]. rewrite map_map. cbn.
  rewrite map_id, stable_sort_in, unique_in. tauto.
Qed.

Lemma find_row_some (fr : Frame K V) i :
  In i (index fr) -> exists r, find_row fr i = Some r.
Proof.
  unfold index, find_row. induction (rows fr) as [|[j r] t IH]; cbn; [tauto|].
  destruct (String.eqb_spec j i) as [->|N]; cbn; [eauto|].
  intros [?|H]; [contradiction | auto].
Qed.

Lemma find_row_none (fr : Frame K V) i :
  ~ In i (index fr) -> find_row fr i = None.
Proof.
  unfold index, find_row. induction (rows fr) as [|[j r] t IH]; cbn; [auto|].
  destruct (String.eqb_spec j i) as [->|N]; cbn; [tauto|].
  intros H. apply IH. tauto.
Qed.

(** Reindexing keeps the cells of the rows it keeps. *)
Lemma reindex_get labels (fr : Frame K V) i c :
  In i labels -> In i (index fr) ->
  frame_get keqb (reindex labels fr) i c = frame_get keqb fr i c.
Proof.
  intros Hl Hi. destruct (find_row_some fr i Hi) as [r Hr].
  unfold frame_get at 1. unfold find_row at 1, reindex. cbn [rows].
  rewrite (find_labelled
    (fun i => match find_row fr i with
              | Some r => r
              | None => map (fun c => (c, None)) (columns fr)
              end)) by exact Hl.
  cbn. unfold frame_get. rewrite Hr. reflexivity.
Qed.

(** A label the frame lacks becomes a row of missing values. *)
Lemma reindex_absent labels (fr : Frame K V) i :
  In i labels -> ~ In i (index fr) ->
  find_row (reindex labels fr) i
  = Some (map (fun c => (c, None)) (columns fr)).
Proof.
  intros Hl Hi. unfold find_row at 1, reindex. cbn [rows].
  rewrite (find_labelled
    (fun i => match find_row fr i with
              | Some r => r
              | None => map (fun c => (c, None)) (columns fr)
              end)) by exact Hl.
  cbn. now rewrite (find_row_none fr i Hi).
Qed.

End PivotFacts.

Lemma pivot_by_duplicate metric df n1 n2 r1 r2 :
  n1 <> n2 ->
  nth_error df n1 = Some r1 -> nth_error df n2 = Some r2 ->
  tool r1 = tool r2 -> size_name r1 = size_name r2 ->
  pivot_by metric df = Raise ValueError.
Proof.
  intros Hn H1 H2 Ht Hs.
  assert (D : has_duplicates String.eqb
                (map (fun r => (size_name r, tool r, metric r)) df) = true).
  { destruct (Nat.lt_total n1 n2) as [L|[E|L]]; [|contradiction|].
    - eapply (has_duplicates_pair _ _ _ _ n1 n2); [exact L| | |].
      + rewrite nth_error_map, H1. reflexivity.
      + rewrite nth_error_map, H2. reflexivity.
      + cbn. unfold same_cell. cbn. rewrite Hs, Ht, !String.eqb_refl.
        reflexivity.
    - eapply (has_duplicates_pair _ _ _ _ n2 n1); [exact L| | |].
      + rewrite nth_error_map, H2. reflexivity.
      + rewrite nth_error_map, H1. reflexivity.
      + cbn. unfold same_cell. cbn. rewrite Hs, Ht, !String.eqb_refl.
        reflexivity. }
  unfold pivot_by, pivot. rewrite D. reflexivity.
Qed.

Lemma pivot_by_cell metric df fr r :
  pivot_by metric df = Ok fr ->
  In r df -> In (size_name r) size_order ->
  frame_get String.eqb fr (size_name r) (tool r) = Some (Some (metric r)).
Proof.
  unfold pivot_by.
  destruct (pivot String.eqb String.leb
              (map (fun r => (size_name r, tool r, metric r)) df))
    as [fr0|e] eqn:P; cbn; [|discriminate].
  intros [= <-] Hr Hs.
  assert (I : In (size_name r, tool r, metric r)
                 (map (fun r => (size_name r, tool r, metric r)) df))
    by (apply in_map_iff; eauto).
  rewrite reindex_get.
  - eapply pivot_get; [exact String.eqb_eq | exact P | exact I].
  - exact Hs.
  - eapply pivot_index; [exact P|].
    apply (in_map (fun e => fst (fst e))) in I. exact I.
Qed.

Definition df_repeated_key : list Row :=
  [ row "timber" "x_10k.json" 1 50 "10k" (Some 10000);
    row "timber" "y_10k.json" 3 55 "10k" (Some 10000) ].

Example pivot_repeated_key_raises :
  generate_time_comparison df_repeated_key = Raise ValueError /\
  generate_memory_comparison df_repeated_key = Raise ValueError.
Proof. split; reflexivity. Qed.

(** C8: whenever two records of the input share the same
    [(tool, size_label)], both pivots fail (pandas raises [ValueError]:
    Index contains duplicate entries) instead of overwriting a cell; and
    whenever a pivot succeeds, the cell of every record's
    [(size_label, tool)] holds that record's own value: the pivot is
    injective on the key. *)
Theorem pivot_fails_on_duplicate_key (df : list Row) :
  (forall n1 n2 r1 r2,
      n1 <> n2 ->
      nth_error df n1 = Some r1 -> nth_error df n2 = Some r2 ->
      tool r1 = tool r2 -> size_name r1 = size_name r2 ->
      generate_time_comparison df = Raise ValueError /\
      generate_memory_comparison df = Raise ValueError) /\
  (forall fr, generate_time_comparison df = Ok fr ->
      forall r, In r df -> In (size_name r) size_order ->
      frame_get String.eqb fr (size_name r) (tool r)
        = Some (Some (time_seconds r))) /\
  (forall fr, generate_memory_comparison df = Ok fr ->
      forall r, In r df -> In (size_name r) size_order ->
      frame_get String.eqb fr (size_name r) (tool r)
        = Some (Some (memory_mb r))).
Proof.
  split; [|split].
  - intros n1 n2 r1 r2 Hn H1 H2 Ht Hs.
    split; eapply pivot_by_duplicate; eauto.
  - intros fr H r. now apply pivot_by_cell.
  - intros fr H r. now apply pivot_by_cell.
Qed.

(** ** Buckets with no measurement *)

(** Measurements at [10k] and [1m] only. *)
Definition df_no_100k : list Row :=
  [ row "timber" "x_10k.json" 1 50 "10k" (Some 10000);
    row "timber" "x_1m.json" 90 70 "1m" (Some 1000000) ].

(** [reindex(size_order)] always yields the three buckets, in the fixed
    order; a bucket without data is a row of missing values. *)
Lemma pivot_by_keeps_every_bucket metric df fr :
  pivot_by metric df = Ok fr ->
  index fr = size_order /\
  forall s, In s size_order -> ~ In s (map size_name df) ->
    find_row fr s = Some (map (fun c => (c, None)) (columns fr)).
Proof.
  unfold pivot_by.
  destruct (pivot String.eqb String.leb
              (map (fun r => (size_name r, tool r, metric r)) df))
    as [fr0|e] eqn:P; cbn [bind]; [|discriminate].
  intros [= <-]. split; [apply index_reindex|].
  intros s Hs Hn.
  change (columns (reindex size_order fr0)) with (columns fr0).
  apply reindex_absent; [exact Hs|].
  intros Hi. eapply pivot_index in Hi; [|exact P].
  rewrite map_map in Hi. cbn in Hi. contradiction.
Qed.

(** C6, at the input [df_no_100k]: the rows do come in the fixed bucket
    order, but the bucket [100k], absent from the data, is not omitted: both
    pivots carry a [100k] row whose cell is missing (NaN). *)
Theorem strict_pivot_keeps_absent_bucket :
  generate_time_comparison df_no_100k =
    Ok (mkFrame ["timber"%string]
          [ ("10k"%string, [("timber"%string, Some 1%float)]);
            ("100k"%string, [("timber"%string, None)]);
            ("1m"%string, [("timber"%string, Some 90%float)]) ]) /\
  generate_memory_comparison df_no_100k =
    Ok (mkFrame ["timber"%string]
          [ ("10k"%string, [("timber"%string, Some 50%float)]);
            ("100k"%string, [("timber"%string, None)]);
            ("1m"%string, [("timber"%string, Some 70%float)]) ]).
Proof. split; vm_compute; reflexivity. Qed.

(* ================================================================== *)
(** * benchmark_data/generate_charts.py: the lenient, headerless path *)
(* ================================================================== *)

Module Charts.

(** The strings [read_csv] reads as a missing value by default. *)
Definition na_values : list string :=
  [ ""; "#N/A"; "#N/A N/A"; "#NA"; "-1.#IND"; "-1.#QNAN"; "-NaN"; "-nan";
    "1.#IND"; "1.#QNAN"; "<NA>"; "N/A"; "NA"; "NULL"; "NaN"; "None"; "n/a";
    "nan"; "null" ]%string.

Definition read_field (s : string) : option string :=
  if existsb (String.eqb s) na_values then None else Some s.

(** A row of the frame: the three named columns, and [size] once it is
    assigned.  The third column is kept as the text of the field; its
    conversion to a number plays no part below. *)
Record ChartRow : Type := mkChartRow {
  tool : option string;
  log : option string;
  time_seconds : option string;
  size : option string
}.

Fixpoint pad (n : nat) (l : list (option string)) : list (option string) :=
  match n, l with
  | O, _ => []
  | S k, [] => None :: pad k []
  | S k, x :: t => x :: pad k t
  end.

(** [pd.read_csv(f, header=None, names=['tool', 'log', 'time_seconds'],
    on_bad_lines='skip')] on the lines of the file, each split into its
    fields.  Blank lines are skipped.  The expected number of fields is
    that of the first line, and at least three; a line with more fields is a
    bad line and is skipped; a line with fewer fields is kept, with missing
    values in its trailing columns.  Fields before the last three (only when
    the first line has more than three) form the index. *)
Definition read_csv (lines : list (list string)) : list ChartRow :=
  let lines := filter (fun l => negb (length l =? 0)%nat) lines in
  let width := Nat.max 3 (length (hd [] lines)) in
  flat_map
    (fun l =>
       if (length l <=? width)%nat then
         match skipn (width - 3) (pad width (map read_field l)) with
         | [t; x; s] => [mkChartRow t x s None]
         | _ => []
         end
       else [])
    lines.

(** [extract_size]: the token, or [None] when [IndexError] or
    [AttributeError] is caught. *)
Definition extract_size (log : option string) : result (option string) :=
  match
    match log with
    | Some x => size_token x
    | None => Raise AttributeError
    end
  with
  | Ok s => Ok (Some s)
  | Raise IndexError => Ok None
  | Raise AttributeError => Ok None
  | Raise e => Raise e
  end.

(** [df['size'] = df['log'].apply(extract_size)] *)
Definition assign_size (df : list ChartRow) : result (list ChartRow) :=
  map_result
    (fun r => s <- extract_size (log r) ;;
              Ok (mkChartRow (tool r) (log r) (time_seconds r) s))
    df.

(** [df.dropna(subset=['size'])] *)
Definition dropna_size (df : list ChartRow) : list ChartRow :=
  filter (fun r => match size r with Some _ => true | None => false end) df.

(** The frame the script pivots. *)
Definition load (lines : list (list string)) : result (list ChartRow) :=
  df <- assign_size (read_csv lines) ;;
  Ok (dropna_size df).

Definition tool_eqb (a b : option string) : bool :=
  match a, b with
  | Some x, Some y => String.eqb x y
  | None, None => true
  | _, _ => false
  end.

(** The order of the column labels: pandas puts a missing tool first. *)
Definition tool_leb (a b : option string) : bool :=
  match a, b with
  | None, _ => true
  | Some _, None => false
  | Some x, Some y => String.leb x y
  end.

Definition triples (df : list ChartRow)
  : list (string * option string * option string) :=
  flat_map
    (fun r => match size r with
              | Some s => [(s, tool r, time_seconds r)]
              | None => []
              end)
    df.

(** [time_df], after
    [reindex([s for s in size_order if s in time_df.index])]. *)
Definition time_df (lines : list (list string))
  : result (Frame (option string) (option string)) :=
  df <- load lines ;;
  fr <- pivot tool_eqb tool_leb (triples df) ;;
  Ok (reindex
        (filter (fun s => existsb (String.eqb s) (index fr)) size_order)
        fr).

Lemma extract_size_total x : exists o, extract_size x = Ok o.
Proof.
  unfold extract_size, size_token. destruct x as [x|]; [|eauto].
  destruct (nth_error (split "_" x) 1); eauto.
Qed.

Lemma extract_size_some x s :
  extract_size x = Ok (Some s) <->
  exists y, x = Some y /\ size_token y = Ok s.
Proof.
  unfold extract_size. destruct x as [y|].
  - destruct (size_token y) as [s'|e] eqn:E; split.
    + intros [= <-]. exists y. split; [reflexivity | exact E].
    + intros [z [[= <-] H]]. congruence.
    + unfold size_token in E.
      destruct (nth_error (split "_" y) 1); [discriminate|].
      injection E as <-. discriminate.
    + intros [z [[= <-] H]]. congruence.
  - split; [discriminate | intros [y [H _]]; discriminate].
Qed.

(** The lenient load raises nothing, whatever the lines are. *)
Lemma load_total lines : exists df, load lines = Ok df.
Proof.
  unfold load, assign_size.
  destruct (map_result_ok
    (fun r => s <- extract_size (log r) ;;
              Ok (mkChartRow (tool r) (log r) (time_seconds r) s))
    (read_csv lines)) as [bs [E _]].
  - intros r _. destruct (extract_size_total (log r)) as [o Ho].
    rewrite Ho. cbn. eauto.
  - rewrite E. cbn. eauto.
Qed.

(** Every row that is kept has a size token extracted from its log. *)
Lemma load_rows_have_size lines df r :
  load lines = Ok df -> In r df ->
  exists x s, log r = Some x /\ size_token x = Ok s /\ size r = Some s.
Proof.
  unfold load, assign_size.
  destruct (map_result _ (read_csv lines)) as [bs|e] eqn:E; cbn;
    [|discriminate].
  intros [= <-] Hr. apply filter_In in Hr. destruct Hr as [Hr Hs].
  apply map_result_inv in E.
  destruct (Forall2_in_r _ _ _ _ E Hr) as [a [_ Ha]].
  destruct (extract_size (log a)) as [o|e] eqn:Eo; cbn in Ha;
    [|discriminate].
  injection Ha as <-. cbn in *. destruct o as [s|]; [|discriminate].
  apply extract_size_some in Eo. destruct Eo as [x [Hx Ht]]. eauto.
Qed.

(** The rows of [time_df] are the buckets of [size_order] that occur in
    the data, in the fixed order: an absent bucket is left out. *)
Lemma time_df_index lines df fr :
  load lines = Ok df -> time_df lines = Ok fr ->
  index fr =
  filter (fun s => existsb (fun r => match size r with
                                     | Some s' => String.eqb s s'
                                     | None => false
                                     end) df)
         size_order.
Proof.
  intros L. unfold time_df. rewrite L. cbn [bind].
  generalize size_order. intros order.
  destruct (pivot tool_eqb tool_leb (triples df)) as [fr0|e] eqn:P;
    cbn [bind]; [|discriminate].
  intros [= <-]. rewrite index_reindex.
  apply filter_ext_in. intros s _.
  apply eq_true_iff_eq. rewrite !existsb_exists. split.
  - intros [i [Hi Hsi]]. apply String.eqb_eq in Hsi. subst i.
    eapply pivot_index in Hi; [|exact P].
    apply in_map_iff in Hi. destruct Hi as [[[s' t] v] [Hs He]].
    cbn in Hs. subst s'. unfold triples in He.
    apply in_flat_map in He. destruct He as [r [Hr He]].
    exists r. split; [exact Hr|].
    destruct (size r) as [s'|]; [|contradiction].
    destruct He as [[= -> _ _]|[]]. apply String.eqb_refl.
  - intros [r [Hr Hs]]. destruct (size r) as [s'|] eqn:Es; [|discriminate].
    apply String.eqb_eq in Hs. subst s'.
    exists s. split; [|apply String.eqb_refl].
    eapply pivot_index; [exact P|].
    apply in_map_iff. exists (s, tool r, time_seconds r).
    split; [reflexivity|]. unfold triples. apply in_flat_map.
    exists r. split; [exact Hr|]. rewrite Es. now left.
Qed.

(** A three-field line, and a line that stops after the log identifier. *)
Definition lines_short : list (list string) :=
  [ ["timber"; "x_10k.json"; "1.0"]; ["grep"; "x_10k.json"] ]%string.

(** C9, at the input [lines_short]: the second line has two fields instead
    of three.  [on_bad_lines='skip'] skips lines with too many fields only;
    this one is read with a missing [time_seconds], its size token [10k] is
    extracted, and the row is kept: it reaches the pivot as a missing cell
    for [grep].  (The load itself does not fail.) *)
Theorem short_row_is_kept :
  load lines_short =
    Ok [ mkChartRow (Some "timber") (Some "x_10k.json") (Some "1.0")
                    (Some "10k");
         mkChartRow (Some "grep") (Some "x_10k.json") None
                    (Some "10k") ]%string /\
  time_df lines_short =
    Ok (mkFrame [Some "grep"; Some "timber"]
          [ ("10k", [(Some "grep", Some None);
                     (Some "timber", Some (Some "1.0"))]) ])%string.
Proof. split; vm_compute; reflexivity. Qed.

(** Lines that are skipped or dropped: too many fields, no log, a log
    without [_]. *)
Example bad_lines_are_skipped :
  load [ ["timber"; "x_10k.json"; "1.0"];
         ["a"; "b_1m.log"; "2.0"; "extra"];
         ["awk"];
         ["sed"; "nounderscore.json"; "3.0"];
         [];
         ["jq"; "NA"; "4.0"] ]%string
  = Ok [ mkChartRow (Some "timber") (Some "x_10k.json") (Some "1.0")
                    (Some "10k") ]%string.
Proof. vm_compute. reflexivity. Qed.

(** With data at [10k] and [1m] only, [time_df] has two rows. *)
Example time_df_omits_absent_bucket :
  option_map (@index _ _)
    (match time_df [ ["timber"; "x_1m.json"; "90.0"];
                     ["timber"; "x_10k.json"; "1.0"] ]%string with
     | Ok fr => Some fr
     | Raise _ => None
     end)
  = Some ["10k"; "1m"]%string.
Proof. vm_compute. reflexivity. Qed.

End Charts.

(* ================================================================== *)
(** * [Series.rank()]: average ranks *)
(* ================================================================== *)

(** [rank()] with its defaults ([method='average'], [na_option='keep'],
    ascending) argsorts the values with the missing ones last, then walks
    the sorted values once: [dups] counts the run of equal values being read
    and [sum_ranks] adds up their 1-based positions; when the next value
    differs the whole run is given [sum_ranks / dups], or NaN when it is the
    run of missing values. *)

Definition by_value (a b : nat * float) : bool :=
  FloatOrder.fle_nan_last (snd a) (snd b).

(** The values in sorted order, each with the position it came from. *)
Definition argsort (vals : list float) : list (nat * float) :=
  stable_sort by_value (combine (seq 0 (length vals)) vals).

Definition next_val_diff (v : float) (rest : list float) : bool :=
  match rest with
  | [] => true                                        (* at_end *)
  | w :: _ => if is_nan v && is_nan w then false else negb (v =? w)%float
  end.

Fixpoint rank_loop (i dups : nat) (sum_ranks : Z) (sorted : list float)
  : list float :=
  match sorted with
  | [] => []
  | v :: rest =>
      let dups := S dups in
      let sum_ranks := sum_ranks + Z.of_nat (S i) in
      if next_val_diff v rest then
        repeat (if is_nan v then nan
                else (Z2F sum_ranks / Z2F (Z.of_nat dups))%float) dups
        ++ rank_loop (S i) 0 0 rest
      else rank_loop (S i) dups sum_ranks rest
  end.

Definition rank (vals : list float) : list float :=
  let order := argsort vals in
  let out := combine (map fst order) (rank_loop 0 0 0 (map snd order)) in
  map (fun i => match find (fun p => Nat.eqb (fst p) i) out with
                | Some p => snd p
                | None => nan
                end)
      (seq 0 (length vals)).

(** ** The tie-averaging rule, stated on the values *)

Definition count_lt (v : float) (l : list float) : nat :=
  length (filter (fun w => (w <? v)%float) l).

Definition count_eq (v : float) (l : list float) : nat :=
  length (filter (fun w => (w =? v)%float) l).

(** The sum of the [k] consecutive positions after position [a]. *)
Fixpoint position_sum (a k : nat) : Z :=
  match k with
  | O => 0
  | S k' => Z.of_nat (S a) + position_sum (S a) k'
  end.

(** The mean of the positions that the values equal to [v] jointly occupy:
    they come after the [count_lt v l] smaller values. *)
Definition average_rank (v : float) (l : list float) : float :=
  (Z2F (position_sum (count_lt v l) (count_eq v l))
   / Z2F (Z.of_nat (count_eq v l)))%float.

Lemma position_sum_closed a k :
  2 * position_sum a k =
  Z.of_nat k * (2 * Z.of_nat a + Z.of_nat k + 1).
Proof. revert a. induction k as [|k IH]; intros a; cbn [position_sum]; [lia|].
  rewrite Z.mul_add_distr_l, IH. lia.
Qed.

Section FloatFacts.

Import FloatOrder.

Lemma feqb_sym a b : (a =? b)%float = (b =? a)%float.
Proof.
  rewrite !eqb_fcmp, (fcmp_antisym a b).
  destruct (fcmp a b) as [[| |]|]; reflexivity.
Qed.

Lemma feqb_refl a : is_nan a = false -> (a =? a)%float = true.
Proof. intros H. now rewrite eqb_fcmp, fcmp_refl. Qed.

Lemma feqb_not_nan a b :
  (a =? b)%float = true -> is_nan a = false /\ is_nan b = false.
Proof.
  rewrite eqb_fcmp. destruct (fcmp a b) as [[| |]|] eqn:E; try discriminate.
  intros _. now apply fcmp_eq_not_nan.
Qed.

Lemma feqb_compat_r a b x :
  (a =? b)%float = true -> (x =? a)%float = (x =? b)%float.
Proof.
  rewrite !eqb_fcmp. destruct (fcmp a b) as [[| |]|] eqn:E; try discriminate.
  intros _. now rewrite (fcmp_eq_r _ _ x E).
Qed.

Lemma fltb_compat_r a b x :
  (a =? b)%float = true -> (x <? a)%float = (x <? b)%float.
Proof.
  rewrite eqb_fcmp, !ltb_fcmp.
  destruct (fcmp a b) as [[| |]|] eqn:E; try discriminate.
  intros _. now rewrite (fcmp_eq_r _ _ x E).
Qed.

Lemma fle_not_eq_lt a b :
  is_nan a = false -> is_nan b = false ->
  fle_nan_last a b = true -> (a =? b)%float = false -> (a <? b)%float = true.
Proof.
  intros Ha Hb. unfold fle_nan_last. rewrite Ha, Hb.
  rewrite leb_fcmp, eqb_fcmp, ltb_fcmp.
  destruct (fcmp a b) as [[| |]|]; congruence.
Qed.

Lemma flt_le_trans a b x :
  (a <? b)%float = true -> fle_nan_last b x = true -> is_nan x = false ->
  (a <? x)%float = true.
Proof.
  intros Hab Hbx Hx. unfold fle_nan_last in Hbx. rewrite Hx in Hbx.
  rewrite ltb_fcmp in *. rewrite leb_fcmp in Hbx.
  destruct (fcmp a b) as [[| |]|] eqn:E; try discriminate.
  destruct (is_nan b); [discriminate|].
  destruct (fcmp b x) as [[| |]|] eqn:F; try discriminate.
  - now rewrite <- (fcmp_eq_r _ _ a F), E.
  - now rewrite (fcmp_lt_trans _ _ _ E F).
Qed.

Lemma flt_not_eq a b : (a <? b)%float = true -> (b =? a)%float = false.
Proof.
  rewrite ltb_fcmp, eqb_fcmp, (fcmp_antisym a b).
  destruct (fcmp a b) as [[| |]|]; cbn; congruence.
Qed.

Lemma fle_not_gt a b :
  fle_nan_last a b = true -> is_nan b = false -> (b <? a)%float = false.
Proof.
  unfold fle_nan_last. intros H Hb. rewrite Hb in H.
  destruct (is_nan a); [discriminate|].
  rewrite leb_fcmp in H. rewrite ltb_fcmp, (fcmp_antisym a b).
  destruct (fcmp a b) as [[| |]|]; cbn; congruence.
Qed.

Lemma fle_nan_first a b :
  is_nan a = true -> fle_nan_last a b = true -> is_nan b = true.
Proof.
  unfold fle_nan_last. intros Ha. rewrite Ha.
  destruct (is_nan b); [reflexivity | discriminate].
Qed.

Lemma nan_not_lt a b : is_nan a = true -> (a <? b)%float = false.
Proof.
  intros Ha. rewrite ltb_fcmp.
  assert (N : fcmp a b = None) by (apply fcmp_none; now rewrite Ha).
  now rewrite N.
Qed.

Lemma nan_not_eq a b : is_nan a = true -> (a =? b)%float = false.
Proof.
  intros Ha. rewrite eqb_fcmp.
  assert (N : fcmp a b = None) by (apply fcmp_none; now rewrite Ha).
  now rewrite N.
Qed.

End FloatFacts.

Definition sorted_values : list float -> Prop :=
  StronglySorted (le_rel FloatOrder.fle_nan_last).

Definition hd_eq (v : float) (l : list float) : bool :=
  match l with
  | v0 :: _ => (v =? v0)%float
  | [] => false
  end.

(** What the walk assigns to the run of [v], entered at position [i] with
    [dups] equal values already read and their positions summed in
    [sum_ranks]. *)
Definition run_rank (i dups : nat) (sum_ranks : Z) (l : list float)
  (v : float) : float :=
  if hd_eq v l then
    (Z2F (sum_ranks + position_sum i (count_eq v l))
     / Z2F (Z.of_nat (dups + count_eq v l)))%float
  else
    (Z2F (position_sum (i + count_lt v l) (count_eq v l))
     / Z2F (Z.of_nat (count_eq v l)))%float.

Lemma count_eq_cons v w l :
  count_eq v (w :: l) = ((if (w =? v)%float then 1 else 0) + count_eq v l)%nat.
Proof. unfold count_eq. cbn. now destruct (w =? v)%float. Qed.

Lemma count_lt_cons v w l :
  count_lt v (w :: l) = ((if (w <? v)%float then 1 else 0) + count_lt v l)%nat.
Proof. unfold count_lt. cbn. now destruct (w <? v)%float. Qed.

Lemma count_eq_compat a b l :
  (a =? b)%float = true -> count_eq a l = count_eq b l.
Proof.
  intros H. unfold count_eq. f_equal. apply filter_ext.
  intros x. now apply feqb_compat_r.
Qed.

Lemma count_lt_compat a b l :
  (a =? b)%float = true -> count_lt a l = count_lt b l.
Proof.
  intros H. unfold count_lt. f_equal. apply filter_ext.
  intros x. now apply fltb_compat_r.
Qed.

Lemma count_zero (p : float -> bool) l :
  (forall x, In x l -> p x = false) -> length (filter p l) = O.
Proof.
  intros H. rewrite filter_none; [reflexivity|].
  apply Forall_forall. exact H.
Qed.

Lemma sorted_values_inv {v l} :
  sorted_values (v :: l) ->
  sorted_values l /\ forall x, In x l -> FloatOrder.fle_nan_last v x = true.
Proof.
  intros H. inversion H as [|? ? Hs Hall]; subst. split; [exact Hs|].
  now apply Forall_forall.
Qed.

(** Nothing in a sorted list is below its head. *)
Lemma count_lt_head {v v0 rest} :
  sorted_values (v0 :: rest) -> (v =? v0)%float = true ->
  count_lt v (v0 :: rest) = O.
Proof.
  intros Hs Hv. destruct (sorted_values_inv Hs) as [_ Hall].
  destruct (feqb_not_nan _ _ Hv) as [_ N0].
  apply count_zero. intros x Hx.
  rewrite (fltb_compat_r v v0 x Hv).
  destruct (is_nan x) eqn:Nx; [now apply nan_not_lt|].
  destruct Hx as [<-|Hx].
  - rewrite FloatOrder.ltb_fcmp, FloatOrder.fcmp_refl by assumption.
    reflexivity.
  - apply fle_not_gt; auto.
Qed.

(** After a strict step up, nothing equals the old head any more. *)
Lemma above_head v0 w rest x :
  sorted_values (w :: rest) -> (v0 <? w)%float = true ->
  In x (w :: rest) ->
  (x =? v0)%float = false /\ (is_nan x = false -> (v0 <? x)%float = true).
Proof.
  intros Hs Hlt Hx. destruct (sorted_values_inv Hs) as [_ Hall].
  destruct (is_nan x) eqn:Nx.
  - split; [now apply nan_not_eq | discriminate].
  - assert (L : (v0 <? x)%float = true).
    { destruct Hx as [<-|Hx]; [exact Hlt|].
      eapply flt_le_trans; eauto. }
    split; [now apply flt_not_eq | auto].
Qed.

Lemma nth_error_repeat_lt {A : Type} (a : A) n q (l : list A) :
  (q < n)%nat -> nth_error (repeat a n ++ l) q = Some a.
Proof.
  intros H. rewrite nth_error_app1 by now rewrite repeat_length.
  now apply nth_error_repeat.
Qed.

Lemma nth_error_repeat_ge {A : Type} (a : A) n j (l : list A) :
  nth_error (repeat a n ++ l) (n + j) = nth_error l j.
Proof.
  rewrite nth_error_app2 by (rewrite repeat_length; lia).
  rewrite repeat_length. f_equal. lia.
Qed.

Lemma rank_loop_cons i d sm v rest :
  rank_loop i d sm (v :: rest) =
  if next_val_diff v rest then
    repeat (if is_nan v then nan
            else (Z2F (sm + Z.of_nat (S i)) / Z2F (Z.of_nat (S d)))%float)
           (S d)
    ++ rank_loop (S i) 0 0 rest
  else rank_loop (S i) (S d) (sm + Z.of_nat (S i)) rest.
Proof. reflexivity. Qed.

Lemma rank_loop_spec l :
  sorted_values l -> forall i d sm,
  (forall j v, nth_error l j = Some v -> is_nan v = false ->
     nth_error (rank_loop i d sm l) (d + j) = Some (run_rank i d sm l v)) /\
  (forall q v0 rest, l = v0 :: rest -> is_nan v0 = false -> (q < d)%nat ->
     nth_error (rank_loop i d sm l) q = Some (run_rank i d sm l v0)).
Proof.
  induction l as [|v0 rest IH]; intros Hs i d sm.
  { split; [intros [|j] v H; discriminate | intros q a b H; discriminate]. }
  destruct (sorted_values_inv Hs) as [Hrest Hall].
  specialize (IH Hrest).
  destruct (is_nan v0) eqn:N0.
  { (* a missing head: everything after it is missing too *)
    split.
    - intros j v Hj Hv. exfalso.
      apply nth_error_In in Hj. destruct Hj as [<-|Hj]; [congruence|].
      pose proof (fle_nan_first v0 v N0 (Hall v Hj)). congruence.
    - intros q a b [= <- <-] Ha. congruence. }
  assert (E00 : (v0 =? v0)%float = true) by now apply feqb_refl.
  (* the value given to the run of v0 when it closes here *)
  assert (Hclose : next_val_diff v0 rest = true ->
     count_eq v0 rest = O ->
     (forall x, In x rest -> is_nan x = false -> (v0 <? x)%float = true) ->
     (forall j v, nth_error (v0 :: rest) j = Some v -> is_nan v = false ->
        nth_error (rank_loop i d sm (v0 :: rest)) (d + j)
        = Some (run_rank i d sm (v0 :: rest) v)) /\
     (forall q, (q < d)%nat ->
        nth_error (rank_loop i d sm (v0 :: rest)) q
        = Some (run_rank i d sm (v0 :: rest) v0))).
  { intros D C0 Habove.
    assert (R0 : run_rank i d sm (v0 :: rest) v0 =
                 (Z2F (sm + Z.of_nat (S i)) / Z2F (Z.of_nat (S d)))%float).
    { unfold run_rank, hd_eq. rewrite E00, count_eq_cons, E00, C0.
      cbn [position_sum Nat.add]. f_equal; f_equal; lia. }
    rewrite rank_loop_cons, D, N0. split.
    - intros [|j] v Hj Hv.
      + injection Hj as <-. rewrite Nat.add_0_r, R0.
        apply nth_error_repeat_lt. lia.
      + cbn [nth_error] in Hj.
        replace (d + S j)%nat with (S d + j)%nat by lia.
        rewrite nth_error_repeat_ge.
        destruct (IH (S i) O 0) as [IH1 _].
        replace j with (0 + j)%nat at 1 by reflexivity.
        rewrite (IH1 j v Hj Hv). f_equal.
        assert (Hin : In v rest) by (eapply nth_error_In; eauto).
        pose proof (Habove v Hin Hv) as Lt.
        assert (Ne : (v =? v0)%float = false) by now apply flt_not_eq.
        unfold run_rank at 2. unfold hd_eq. rewrite Ne.
        rewrite count_lt_cons, Lt, count_eq_cons.
        rewrite (feqb_sym v0 v), Ne. cbn [Nat.add].
        unfold run_rank. destruct (hd_eq v rest) eqn:Hh.
        * destruct rest as [|w rest']; [discriminate|]. cbn in Hh.
          rewrite (count_lt_head Hrest Hh).
          rewrite Z.add_0_l. cbn [Nat.add].
          replace (i + 1)%nat with (S i) by lia. reflexivity.
        * replace (i + S (count_lt v rest))%nat
            with (S i + count_lt v rest)%nat by lia. reflexivity.
    - intros q Hq. rewrite R0. apply nth_error_repeat_lt. lia. }
  destruct rest as [|w rest'].
  { destruct Hclose as [H1 H2]; [reflexivity | reflexivity | intros x []|].
    split; [exact H1|]. intros q a b [= <- <-] _. apply H2. }
  destruct (v0 =? w)%float eqn:E0w.
  - (* the run goes on *)
    destruct (feqb_not_nan _ _ E0w) as [_ Nw].
    assert (Eww : (w =? w)%float = true) by now apply feqb_refl.
    assert (ND : next_val_diff v0 (w :: rest') = false).
    { cbn. now rewrite N0, E0w. }
    destruct (IH (S i) (S d) (sm + Z.of_nat (S i))) as [IH1 IH2].
    assert (Run : forall v, (v =? w)%float = true ->
      run_rank (S i) (S d) (sm + Z.of_nat (S i)) (w :: rest') v
      = run_rank i d sm (v0 :: w :: rest') v).
    { intros v Hv.
      assert (Hv0 : (v =? v0)%float = true).
      { rewrite (feqb_compat_r v0 w v E0w). exact Hv. }
      unfold run_rank, hd_eq. rewrite Hv, Hv0.
      rewrite (count_eq_cons v v0), (feqb_sym v0 v), Hv0.
      cbn [position_sum Nat.add]. f_equal; f_equal; lia. }
    rewrite rank_loop_cons, ND. split.
    + intros [|j] v Hj Hv.
      * injection Hj as <-. rewrite Nat.add_0_r.
        rewrite (IH2 d w rest' eq_refl Nw) by lia.
        f_equal. rewrite (Run w Eww).
        unfold run_rank, hd_eq. rewrite E00.
        rewrite (feqb_sym w v0), E0w.
        now rewrite (count_eq_compat w v0) by (now rewrite feqb_sym).
      * cbn [nth_error] in Hj.
        replace (d + S j)%nat with (S d + j)%nat by lia.
        rewrite (IH1 j v Hj Hv). f_equal.
        destruct (v =? w)%float eqn:Evw; [now apply Run|].
        assert (Ev0 : (v =? v0)%float = false).
        { now rewrite (feqb_compat_r v0 w v E0w). }
        unfold run_rank, hd_eq. rewrite Evw, Ev0.
        rewrite (count_lt_cons v v0), (count_eq_cons v v0).
        rewrite (feqb_sym v0 v), Ev0.
        assert (Hin : In v (w :: rest')) by (eapply nth_error_In; eauto).
        rewrite (fle_not_eq_lt v0 v N0 Hv (Hall v Hin))
          by (now rewrite feqb_sym).
        cbn [Nat.add].
        replace (i + S (count_lt v (w :: rest')))%nat
          with (S i + count_lt v (w :: rest'))%nat by lia. reflexivity.
    + intros q a b [= <- <-] _ Hq.
      rewrite (IH2 q w rest' eq_refl Nw) by lia.
      f_equal. rewrite (Run w Eww).
      unfold run_rank, hd_eq. rewrite E00, (feqb_sym w v0), E0w.
      now rewrite (count_eq_compat w v0) by (now rewrite feqb_sym).
  - (* the run of v0 closes before w *)
    assert (D : next_val_diff v0 (w :: rest') = true).
    { cbn. now rewrite N0, E0w. }
    assert (Above : forall x, In x (w :: rest') ->
              (x =? v0)%float = false /\
              (is_nan x = false -> (v0 <? x)%float = true)).
    { destruct (is_nan w) eqn:Nw.
      - intros x Hx. assert (Nx : is_nan x = true).
        { destruct Hx as [<-|Hx]; [exact Nw|].
          destruct (sorted_values_inv Hrest) as [_ Hw].
          eapply fle_nan_first; eauto. }
        split; [now apply nan_not_eq | congruence].
      - intros x Hx. eapply above_head; eauto.
        apply fle_not_eq_lt; auto. apply Hall. now left. }
    destruct Hclose as [H1 H2]; [exact D | | |].
    + apply count_zero. intros x Hx. now apply Above.
    + intros x Hx. now apply Above.
    + split; [exact H1|]. intros q a b [= <- <-] _. apply H2.
Qed.

(** The run of missing values at the end is given NaN. *)
Lemma rank_loop_nan l : forall i d sm,
  (forall j v, nth_error l j = Some v -> is_nan v = true ->
     nth_error (rank_loop i d sm l) (d + j) = Some nan) /\
  (forall q v0 rest, l = v0 :: rest -> is_nan v0 = true -> (q < d)%nat ->
     nth_error (rank_loop i d sm l) q = Some nan).
Proof.
  induction l as [|v0 rest IH]; intros i d sm.
  { split; [intros [|j] v H; discriminate | intros q a b H; discriminate]. }
  rewrite rank_loop_cons.
  destruct (next_val_diff v0 rest) eqn:D.
  - split.
    + intros [|j] v Hj Hv.
      * injection Hj as <-. rewrite Hv, Nat.add_0_r.
        apply nth_error_repeat_lt. lia.
      * cbn [nth_error] in Hj.
        replace (d + S j)%nat with (S d + j)%nat by lia.
        rewrite nth_error_repeat_ge.
        destruct (IH (S i) O 0) as [IH1 _]. exact (IH1 j v Hj Hv).
    + intros q a b [= <- <-] Ha Hq. rewrite Ha.
      apply nth_error_repeat_lt. lia.
  - destruct (IH (S i) (S d) (sm + Z.of_nat (S i))) as [IH1 IH2].
    assert (Hw : is_nan v0 = true ->
                 exists w rest', rest = w :: rest' /\ is_nan w = true).
    { intros N0. destruct rest as [|w rest']; [discriminate|].
      exists w, rest'. split; [reflexivity|].
      cbn in D. rewrite N0 in D. cbn in D.
      destruct (is_nan w); [reflexivity|].
      rewrite (nan_not_eq v0 w N0) in D. discriminate. }
    split.
    + intros [|j] v Hj Hv.
      * injection Hj as <-. rewrite Nat.add_0_r.
        destruct (Hw Hv) as [w [rest' [-> Nw]]].
        apply (IH2 d w rest' eq_refl Nw). lia.
      * cbn [nth_error] in Hj.
        replace (d + S j)%nat with (S d + j)%nat by lia.
        exact (IH1 j v Hj Hv).
    + intros q a b [= <- <-] Ha Hq.
      destruct (Hw Ha) as [w [rest' [-> Nw]]].
      apply (IH2 q w rest' eq_refl Nw). lia.
Qed.

Lemma run_rank_start l v :
  sorted_values l ->
  run_rank 0 0 0 l v = average_rank v l.
Proof.
  intros Hs. unfold run_rank, average_rank.
  destruct (hd_eq v l) eqn:H; [|reflexivity].
  destruct l as [|v0 rest]; [discriminate|]. cbn in H.
  rewrite (count_lt_head Hs H). rewrite Z.add_0_l. reflexivity.
Qed.

Lemma find_combine_nodup {B : Type} (ks : list nat) (rs : list B) j k r :
  NoDup ks -> nth_error ks j = Some k -> nth_error rs j = Some r ->
  find (fun p => Nat.eqb (fst p) k) (combine ks rs) = Some (k, r).
Proof.
  intros Hn. revert rs j. induction Hn as [|a ks Ha Hn IH]; intros rs j Hk Hr.
  - destruct j; discriminate.
  - destruct rs as [|b rs]; [destruct j; discriminate|].
    destruct j as [|j]; cbn in Hk, Hr |- *.
    + injection Hk as ->. injection Hr as ->.
      now rewrite Nat.eqb_refl.
    + destruct (Nat.eqb_spec a k) as [->|N].
      * exfalso. apply Ha. eapply nth_error_In; eauto.
      * eapply IH; eauto.
Qed.

Lemma combine_seq_fst {B : Type} (l : list B) s :
  map fst (combine (seq s (length l)) l) = seq s (length l).
Proof.
  revert s. induction l as [|b t IH]; intros s; cbn; [reflexivity|].
  now rewrite IH.
Qed.

Lemma combine_seq_snd {B : Type} (l : list B) s :
  map snd (combine (seq s (length l)) l) = l.
Proof.
  revert s. induction l as [|b t IH]; intros s; cbn; [reflexivity|].
  now rewrite IH.
Qed.

Lemma combine_seq_in {B : Type} (l : list B) s i v :
  nth_error l i = Some v -> In ((s + i)%nat, v) (combine (seq s (length l)) l).
Proof.
  revert s i. induction l as [|b t IH]; intros s i H.
  - destruct i; discriminate.
  - destruct i as [|i]; cbn in *.
    + injection H as ->. left. f_equal. lia.
    + right. replace (s + S i)%nat with (S s + i)%nat by lia. now apply IH.
Qed.

Lemma by_value_total a b : by_value a b = true \/ by_value b a = true.
Proof. apply FloatOrder.fle_nan_last_total. Qed.

Lemma by_value_trans a b c :
  by_value a b = true -> by_value b c = true -> by_value a c = true.
Proof. apply FloatOrder.fle_nan_last_trans. Qed.

Lemma sorted_map {A B : Type} (f : A -> B) (lebA : A -> A -> bool)
  (lebB : B -> B -> bool) l :
  (forall x y, lebA x y = lebB (f x) (f y)) ->
  StronglySorted (le_rel lebA) l -> StronglySorted (le_rel lebB) (map f l).
Proof.
  intros H. induction 1 as [|a t Hs IH Hall]; cbn; constructor; auto.
  rewrite Forall_forall in *. intros y Hy.
  apply in_map_iff in Hy. destruct Hy as [x [<- Hx]].
  unfold le_rel. rewrite <- H. now apply Hall.
Qed.

Lemma argsort_sorted vals : sorted_values (map snd (argsort vals)).
Proof.
  apply (sorted_map snd by_value); [reflexivity|].
  apply stable_sort_sorted; [apply by_value_total | apply by_value_trans].
Qed.

Lemma argsort_values vals : Permutation (map snd (argsort vals)) vals.
Proof.
  unfold argsort. rewrite stable_sort_perm. now rewrite combine_seq_snd.
Qed.

Lemma argsort_positions vals :
  Permutation (map fst (argsort vals)) (seq 0 (length vals)).
Proof.
  unfold argsort. rewrite stable_sort_perm. now rewrite combine_seq_fst.
Qed.

Lemma count_lt_perm v l1 l2 :
  Permutation l1 l2 -> count_lt v l1 = count_lt v l2.
Proof. intros P. apply Permutation_length, filter_perm, P. Qed.

Lemma count_eq_perm v l1 l2 :
  Permutation l1 l2 -> count_eq v l1 = count_eq v l2.
Proof. intros P. apply Permutation_length, filter_perm, P. Qed.

(** The tie-averaging rule: a value that is not missing gets the mean of
    the positions its run occupies; a missing value gets NaN. *)
Lemma rank_average vals i v :
  nth_error vals i = Some v ->
  nth_error (rank vals) i
  = Some (if is_nan v then nan else average_rank v vals).
Proof.
  intros Hi.
  assert (Hlt : (i < length vals)%nat)
    by (apply nth_error_Some; congruence).
  unfold rank. rewrite nth_error_map, nth_error_seq.
  destruct (Nat.ltb_spec i (length vals)) as [_|]; [|lia].
  cbn [option_map Nat.add]. f_equal.
  assert (Hin : In (i, v) (argsort vals)).
  { apply stable_sort_in. exact (combine_seq_in vals 0 i v Hi). }
  apply In_nth_error in Hin. destruct Hin as [j Hj].
  assert (Hk : nth_error (map fst (argsort vals)) j = Some i)
    by (rewrite nth_error_map, Hj; reflexivity).
  assert (Hv : nth_error (map snd (argsort vals)) j = Some v)
    by (rewrite nth_error_map, Hj; reflexivity).
  assert (Nd : NoDup (map fst (argsort vals))).
  { eapply Permutation_NoDup;
      [apply Permutation_sym, argsort_positions | apply seq_NoDup]. }
  assert (Hr : nth_error (rank_loop 0 0 0 (map snd (argsort vals))) j
               = Some (if is_nan v then nan else average_rank v vals)).
  { destruct (is_nan v) eqn:Nv.
    - destruct (rank_loop_nan (map snd (argsort vals)) 0 0 0) as [H _].
      exact (H j v Hv Nv).
    - destruct (rank_loop_spec _ (argsort_sorted vals) 0 0 0) as [H _].
      specialize (H j v Hv Nv). cbn [Nat.add] in H. rewrite H. f_equal.
      rewrite run_rank_start by apply argsort_sorted.
      unfold average_rank.
      rewrite (count_lt_perm v _ _ (argsort_values vals)).
      rewrite (count_eq_perm v _ _ (argsort_values vals)). reflexivity. }
  rewrite (find_combine_nodup _ _ j _ _ Nd Hk Hr). reflexivity.
Qed.

Lemma rank_length vals : length (rank vals) = length vals.
Proof. unfold rank. now rewrite length_map, length_seq. Qed.

(* ================================================================== *)
(** * The Ranking Engine: [generate_rankings] *)
(* ================================================================== *)

(** A row of [size_df] once the three columns are assigned. *)
Record Ranked : Type := mkRanked {
  base : Row;
  time_rank : float;
  memory_rank : float;
  combined_score : float
}.

(** A row of [result_df]. *)
Record RankingRow : Type := mkRankingRow {
  rk_Tool : string;              (* 'Tool' *)
  rk_Time : string;              (* 'Time (s)', [{:.3f}] *)
  rk_Memory : string;            (* 'Memory (MB)', [{:.2f}] *)
  rk_Time_Rank : float;          (* 'Time Rank' *)
  rk_Memory_Rank : float;        (* 'Memory Rank' *)
  rk_Combined_Score : float      (* 'Combined Score' *)
}.

Fixpoint zip_ranks (size_df : list Row) (tr mr : list float) : list Ranked :=
  match size_df, tr, mr with
  | r :: size_df', t :: tr', m :: mr' =>
      mkRanked r t m ((t + m) / 2)%float :: zip_ranks size_df' tr' mr'
  | _, _, _ => []
  end.

(** [size_df] with [time_rank], [memory_rank] and [combined_score]. *)
Definition rank_bucket (size_df : list Row) : list Ranked :=
  zip_ranks size_df
    (rank (map time_seconds size_df)) (rank (map memory_mb size_df)).

Definition by_score (a b : Ranked) : bool :=
  FloatOrder.fle_nan_last (combined_score a) (combined_score b).

(** The [combined_score] cell as a sort key: missing when it is NaN. *)
Definition score_key (x : Ranked) : option float :=
  if is_nan (combined_score x) then None else Some (combined_score x).

Definition bucket (df : list Row) (size : string) : list Row :=
  filter (fun r => String.eqb (size_name r) size) df.

(** [size_df.sort_values('combined_score')] *)
Definition ranking_table (np : Numpy) (df : list Row) (size : string)
  : list Ranked :=
  sort_values np score_key FloatOrder.fle_nan_last
    (rank_bucket (bucket df size)).

Definition result_row (x : Ranked) : RankingRow :=
  mkRankingRow (tool (base x))
    (format_f 3 (time_seconds (base x)))
    (format_f 2 (memory_mb (base x)))
    (time_rank x) (memory_rank x) (combined_score x).

(** The tables written to [ranking_{size}.csv], one per size in
    [df['size_name'].unique()]. *)
Definition generate_rankings (np : Numpy) (df : list Row)
  : list (string * list RankingRow) :=
  map (fun size => (size, map result_row (ranking_table np df size)))
      (unique (map size_name df)).

Lemma zip_ranks_nth size_df tr mr i r t m :
  nth_error size_df i = Some r -> nth_error tr i = Some t ->
  nth_error mr i = Some m ->
  nth_error (zip_ranks size_df tr mr) i
  = Some (mkRanked r t m ((t + m) / 2)%float).
Proof.
  revert tr mr i.
  induction size_df as [|r0 l IH]; intros [|t0 tr] [|m0 mr] [|i];
    cbn; try discriminate.
  - now intros [= ->] [= ->] [= ->].
  - apply IH.
Qed.

Lemma zip_ranks_base size_df tr mr :
  length tr = length size_df -> length mr = length size_df ->
  map base (zip_ranks size_df tr mr) = size_df.
Proof.
  revert tr mr.
  induction size_df as [|r0 l IH]; intros [|t0 tr] [|m0 mr];
    cbn; try discriminate; try reflexivity.
  intros [= Ht] [= Hm]. now rewrite IH.
Qed.

Lemma zip_ranks_score size_df tr mr x :
  In x (zip_ranks size_df tr mr) ->
  combined_score x = ((time_rank x + memory_rank x) / 2)%float.
Proof.
  revert tr mr.
  induction size_df as [|r0 l IH]; intros [|t0 tr] [|m0 mr];
    cbn; try tauto.
  intros [<-|H]; [reflexivity | eauto].
Qed.

Lemma rank_bucket_base size_df : map base (rank_bucket size_df) = size_df.
Proof.
  apply zip_ranks_base; now rewrite rank_length, length_map.
Qed.

(** Each row of a bucket gets the average rank of its time among the
    bucket's times, and of its memory among the bucket's memories. *)
Lemma rank_bucket_nth size_df i r :
  nth_error size_df i = Some r ->
  exists x,
    nth_error (rank_bucket size_df) i = Some x /\ base x = r /\
    time_rank x =
      (if is_nan (time_seconds r) then nan
       else average_rank (time_seconds r) (map time_seconds size_df)) /\
    memory_rank x =
      (if is_nan (memory_mb r) then nan
       else average_rank (memory_mb r) (map memory_mb size_df)) /\
    combined_score x = ((time_rank x + memory_rank x) / 2)%float.
Proof.
  intros Hi. eexists. split.
  - unfold rank_bucket. apply zip_ranks_nth; [exact Hi| |].
    + apply rank_average. rewrite nth_error_map, Hi. reflexivity.
    + apply rank_average. rewrite nth_error_map, Hi. reflexivity.
  - cbn. auto.
Qed.

Lemma feqb_not_lt a b :
  (a =? b)%float = true ->
  (a <? b)%float = false /\ (b <? a)%float = false.
Proof.
  rewrite FloatOrder.eqb_fcmp, !FloatOrder.ltb_fcmp,
    (FloatOrder.fcmp_antisym a b).
  destruct (FloatOrder.fcmp a b) as [[| |]|]; cbn; auto; discriminate.
Qed.

(** Three equal values on their own all get rank 2. *)
Lemma rank_three_equal a b c :
  (a =? b)%float = true -> (b =? c)%float = true ->
  rank [a; b; c] = [2; 2; 2]%float.
Proof.
  intros Hab Hbc.
  destruct (feqb_not_nan _ _ Hab) as [Na Nb].
  destruct (feqb_not_nan _ _ Hbc) as [_ Nc].
  assert (Hac : (a =? c)%float = true)
    by (now rewrite <- (feqb_compat_r b c a Hbc)).
  assert (R : forall i v, nth_error [a; b; c] i = Some v ->
                nth_error (rank [a; b; c]) i = Some 2%float).
  { intros i v Hi. rewrite (rank_average _ _ _ Hi).
    assert (Ev : (v =? a)%float = true /\ is_nan v = false).
    { destruct i as [|[|[|i]]]; cbn in Hi.
      - injection Hi as <-. split; [now apply feqb_refl | exact Na].
      - injection Hi as <-. split; [now rewrite feqb_sym | exact Nb].
      - injection Hi as <-. split; [now rewrite feqb_sym | exact Nc].
      - destruct i; discriminate. }
    destruct Ev as [Ev Nv]. rewrite Nv. f_equal.
    unfold average_rank.
    rewrite (count_lt_compat v a _ Ev), (count_eq_compat v a _ Ev).
    unfold count_lt, count_eq. cbn [filter].
    rewrite (feqb_refl a Na), (feqb_sym b a), Hab, (feqb_sym c a), Hac.
    rewrite (FloatOrder.ltb_fcmp a a), (FloatOrder.fcmp_refl a Na).
    rewrite (proj2 (feqb_not_lt _ _ Hab)), (proj2 (feqb_not_lt _ _ Hac)).
    vm_compute. reflexivity. }
  pose proof (rank_length [a; b; c]) as L.
  destruct (rank [a; b; c]) as [|x [|y [|z [|? ?]]]]; try discriminate.
  pose proof (R 0%nat a eq_refl) as R0.
  pose proof (R 1%nat b eq_refl) as R1.
  pose proof (R 2%nat c eq_refl) as R2.
  cbn in R0, R1, R2. congruence.
Qed.

(** The rank [rank()] gives a value [v] of the column [l]. *)
Definition rank_of (v : float) (l : list float) : float :=
  if is_nan v then nan else average_rank v l.

(** The row of [size_df] for the record [r], with its three columns. *)
Definition ranked_row (size_df : list Row) (r : Row) : Ranked :=
  let t := rank_of (time_seconds r) (map time_seconds size_df) in
  let m := rank_of (memory_mb r) (map memory_mb size_df) in
  mkRanked r t m ((t + m) / 2)%float.

Lemma rank_bucket_ranked_rows size_df :
  rank_bucket size_df = map (ranked_row size_df) size_df.
Proof.
  apply nth_error_ext. intros i.
  rewrite nth_error_map.
  destruct (nth_error size_df i) as [r|] eqn:E.
  - destruct (rank_bucket_nth size_df i r E)
      as [x [Hx [Hb [Ht [Hm Hs]]]]].
    rewrite Hx. cbn. f_equal. destruct x as [b t m s]. cbn in *.
    unfold ranked_row, rank_of. subst. reflexivity.
  - apply nth_error_None. apply nth_error_None in E.
    rewrite <- (length_map base), rank_bucket_base. exact E.
Qed.

Lemma rank_of_perm v w l1 l2 :
  Permutation l1 l2 ->
  ((v =? w)%float = true \/ (is_nan v = true /\ is_nan w = true)) ->
  rank_of v l1 = rank_of w l2.
Proof.
  intros P [E|[Nv Nw]]; unfold rank_of.
  - destruct (feqb_not_nan _ _ E) as [Nv Nw]. rewrite Nv, Nw.
    unfold average_rank.
    rewrite (count_lt_compat v w l1 E), (count_eq_compat v w l1 E).
    now rewrite (count_lt_perm w _ _ P), (count_eq_perm w _ _ P).
  - now rewrite Nv, Nw.
Qed.

Lemma rank_of_self_perm v l1 l2 :
  Permutation l1 l2 -> rank_of v l1 = rank_of v l2.
Proof.
  intros P. destruct (is_nan v) eqn:N.
  - unfold rank_of. now rewrite N.
  - apply rank_of_perm; [exact P|]. left. now apply feqb_refl.
Qed.

Lemma bucket_perm df df' size :
  Permutation df df' -> Permutation (bucket df size) (bucket df' size).
Proof. apply filter_perm. Qed.


(** ** The rows of the ranking table *)

Lemma fle_both_eq a b :
  FloatOrder.fle_nan_last a b = true -> FloatOrder.fle_nan_last b a = true ->
  is_nan a = false -> is_nan b = false -> (a =? b)%float = true.
Proof.
  unfold FloatOrder.fle_nan_last. intros H1 H2 Na Nb.
  rewrite Na, Nb in *. rewrite FloatOrder.leb_fcmp in H1, H2.
  rewrite FloatOrder.eqb_fcmp.
  rewrite (FloatOrder.fcmp_antisym a b) in H2.
  destruct (FloatOrder.fcmp a b) as [[| |]|]; cbn in *; congruence.
Qed.

(** [by_score] is the order of the [combined_score] column. *)
Lemma by_score_by_key a b :
  by_score a b = by_key score_key FloatOrder.fle_nan_last a b.
Proof.
  unfold by_score, by_key, score_key, opt_leb, FloatOrder.fle_nan_last.
  destruct (is_nan (combined_score a)) eqn:Na,
           (is_nan (combined_score b)) eqn:Nb; try reflexivity.
  now rewrite Na, Nb.
Qed.

Lemma ranking_table_perm np df size :
  Permutation (ranking_table np df size) (rank_bucket (bucket df size)).
Proof. apply sort_values_perm. Qed.

Lemma ranking_table_in np df size x :
  In x (ranking_table np df size) <-> In x (rank_bucket (bucket df size)).
Proof. apply sort_values_in. Qed.

Lemma ranking_table_sorted np df size :
  StronglySorted (le_rel by_score) (ranking_table np df size).
Proof.
  pose proof (sort_values_sorted np Ranked float score_key
                FloatOrder.fle_nan_last FloatOrder.fle_nan_last_total
                FloatOrder.fle_nan_last_trans
                (rank_bucket (bucket df size))) as S.
  fold (ranking_table np df size) in S.
  induction S as [|a t St IH Hall]; constructor; [exact IH|].
  eapply Forall_impl; [|exact Hall].
  intros y Hy. unfold le_rel in *. now rewrite by_score_by_key.
Qed.

Definition df_three_tied : list Row :=
  [ row "awk" "x_10k.json" 2 30 "10k" (Some 10000);
    row "grep" "x_10k.json" 2 10 "10k" (Some 10000);
    row "timber" "x_10k.json" 2 20 "10k" (Some 10000) ].

Example three_tied_ranking :
  generate_rankings insertion df_three_tied =
  [ ("10k"%string,
     [ mkRankingRow "grep" "2.000" "10.00" 2 1 1.5;
       mkRankingRow "timber" "2.000" "20.00" 2 2 2;
       mkRankingRow "awk" "2.000" "30.00" 2 3 2.5 ]) ].
Proof. vm_compute. reflexivity. Qed.





(** ** The order of the ranking table *)

Lemma compare_lt_trans a b c :
  String.compare a b = Lt -> String.compare b c = Lt ->
  String.compare a c = Lt.
Proof.
  intros H1 H2.
  apply OrderedTypeEx.String_as_OT.cmp_lt in H1, H2.
  apply OrderedTypeEx.String_as_OT.cmp_lt.
  eapply OrderedTypeEx.String_as_OT.lt_trans; eauto.
Qed.

Lemma tool_size_leb_total r1 r2 :
  tool_size_leb r1 r2 = true \/ tool_size_leb r2 r1 = true.
Proof.
  unfold tool_size_leb.
  rewrite (String.compare_antisym (tool r2) (tool r1)).
  destruct (String.compare (tool r1) (tool r2)); cbn; auto.
  apply size_leb_total.
Qed.

Lemma tool_size_leb_trans r1 r2 r3 :
  tool_size_leb r1 r2 = true -> tool_size_leb r2 r3 = true ->
  tool_size_leb r1 r3 = true.
Proof.
  unfold tool_size_leb.
  destruct (String.compare (tool r1) (tool r2)) eqn:E12; try discriminate;
    destruct (String.compare (tool r2) (tool r3)) eqn:E23; try discriminate.
  - apply String.compare_eq_iff in E12, E23. rewrite E12, E23.
    pose proof (proj2 (OrderedTypeEx.String_as_OT.cmp_eq (tool r3) (tool r3))
                  eq_refl) as R.
    unfold OrderedTypeEx.String_as_OT.cmp in R. rewrite R.
    apply size_leb_trans.
  - apply String.compare_eq_iff in E12. rewrite E12, E23. auto.
  - apply String.compare_eq_iff in E23. rewrite <- E23, E12. auto.
  - now rewrite (compare_lt_trans _ _ _ E12 E23).
Qed.

Lemma tool_size_leb_tool r1 r2 :
  tool_size_leb r1 r2 = true -> String.leb (tool r1) (tool r2) = true.
Proof.
  unfold tool_size_leb, String.leb.
  now destruct (String.compare (tool r1) (tool r2)).
Qed.

Lemma sorted_weaken {A : Type} (R S : A -> A -> Prop) l :
  (forall x y, R x y -> S x y) ->
  StronglySorted R l -> StronglySorted S l.
Proof.
  intros H. induction 1 as [|a t Hs IH Hall]; constructor; auto.
  eapply Forall_impl; [|exact Hall]. auto.
Qed.

Lemma sorted_filter {A : Type} (R : A -> A -> Prop) (p : A -> bool) l :
  StronglySorted R l -> StronglySorted R (filter p l).
Proof.
  induction 1 as [|a t Hs IH Hall]; cbn; [constructor|].
  destruct (p a); [|exact IH]. constructor; [exact IH|].
  rewrite Forall_forall in *. intros x Hx.
  apply filter_In in Hx. now apply Hall.
Qed.

Lemma sorted_unmap {A B : Type} (f : A -> B) (R : B -> B -> Prop) l :
  StronglySorted R (map f l) ->
  StronglySorted (fun a b => R (f a) (f b)) l.
Proof.
  induction l as [|a t IH]; cbn; intros H; [constructor|].
  inversion H as [|? ? Hs Hall]; subst. constructor; [auto|].
  rewrite Forall_forall in *. intros x Hx. apply Hall. now apply in_map.
Qed.

(** [load_data] returns the rows in ascending order of tool name. *)
Lemma load_data_sorted_by_tool csv df :
  load_data csv = Ok df ->
  StronglySorted (fun a b => String.leb (tool a) (tool b) = true) df.
Proof.
  unfold load_data.
  destruct (map_result add_size csv) as [l|e]; cbn; [|discriminate].
  intros [= <-].
  apply (sorted_weaken (le_rel tool_size_leb)).
  - intros x y. apply tool_size_leb_tool.
  - apply stable_sort_sorted;
      [apply tool_size_leb_total | apply tool_size_leb_trans].
Qed.

Lemma by_score_total a b : by_score a b = true \/ by_score b a = true.
Proof. apply FloatOrder.fle_nan_last_total. Qed.

Lemma by_score_trans a b c :
  by_score a b = true -> by_score b c = true -> by_score a c = true.
Proof. apply FloatOrder.fle_nan_last_trans. Qed.

Lemma sorted_nth {A : Type} (R : A -> A -> Prop) l :
  StronglySorted R l ->
  forall i j x y, (i < j)%nat ->
    nth_error l i = Some x -> nth_error l j = Some y -> R x y.
Proof.
  induction 1 as [|a l S IH F]; intros i j x y Hij Hi Hj.
  - destruct i; discriminate.
  - destruct j as [|j]; [lia|]. cbn in Hj. destruct i as [|i].
    + cbn in Hi. injection Hi as <-.
      rewrite Forall_forall in F. apply F. eapply nth_error_In; eauto.
    + cbn in Hi. apply (IH i j); auto. lia.
Qed.

(** Tool b is fast and heavy, tool a slow and light: their scores tie. *)
Definition csv_tie : list RawRow :=
  [ mkRawRow "b" (Some "x_10k.json"%string) 1 20;
    mkRawRow "a" (Some "x_10k.json"%string) 2 10 ].

(** The frame [load_data] returns for [csv_tie]: a before b. *)
Definition df_tie_loaded : list Row :=
  [ row "a" "x_10k.json" 2 10 "10k" (Some 10000);
    row "b" "x_10k.json" 1 20 "10k" (Some 10000) ].

(** The same two records, b before a. *)
Definition df_tie_unsorted : list Row :=
  [ row "b" "x_10k.json" 1 20 "10k" (Some 10000);
    row "a" "x_10k.json" 2 10 "10k" (Some 10000) ].

Lemma ranking_table_tie np :
  ranking_table np df_tie_loaded "10k"
  = take (np_argsort np float FloatOrder.fle_nan_last [1.5; 1.5]%float)
         [ mkRanked (row "a" "x_10k.json" 2 10 "10k" (Some 10000)) 2 1 1.5;
           mkRanked (row "b" "x_10k.json" 1 20 "10k" (Some 10000)) 1 2 1.5 ]
  /\
  ranking_table np df_tie_unsorted "10k"
  = take (np_argsort np float FloatOrder.fle_nan_last [1.5; 1.5]%float)
         [ mkRanked (row "b" "x_10k.json" 1 20 "10k" (Some 10000)) 1 2 1.5;
           mkRanked (row "a" "x_10k.json" 2 10 "10k" (Some 10000)) 2 1 1.5 ].
Proof.
  unfold ranking_table, sort_values. cbv zeta.
  split;
    repeat match goal with
    | |- context [filter ?p ?l] =>
        let v := eval vm_compute in (filter p l) in
        change (filter p l) with v
    end;
    match goal with
    | |- context [present_keys ?k ?l] =>
        let v := eval vm_compute in (present_keys k l) in
        change (present_keys k l) with v
    end;
    rewrite app_nil_r; reflexivity.
Qed.

(** Counterexample to C7 as stated.  In [csv_tie] tools a and b have the
    same [combined_score] 1.5.  Whatever [np] is, the ranking lists b before
    a for one of the two frames with these records: the frame [load_data]
    returns, which has a before b, or the one with b before a.  The order
    [np] gives two equal scores is the same for both frames, because it
    only sees the score column; the tool names play no part in it. *)
Lemma ranking_tie_not_by_name :
  load_data csv_tie = Ok df_tie_loaded /\
  Permutation df_tie_loaded df_tie_unsorted /\
  forall np : Numpy,
    generate_rankings np df_tie_loaded =
    [ ("10k"%string,
       [ mkRankingRow "b" "1.000" "20.00" 1 2 1.5;
         mkRankingRow "a" "2.000" "10.00" 2 1 1.5 ]) ] \/
    generate_rankings np df_tie_unsorted =
    [ ("10k"%string,
       [ mkRankingRow "b" "1.000" "20.00" 1 2 1.5;
         mkRankingRow "a" "2.000" "10.00" 2 1 1.5 ]) ].
Proof.
  split; [vm_compute; reflexivity|].
  split; [apply perm_swap|].
  intros np. destruct (ranking_table_tie np) as [El Eu].
  pose proof (np_argsort_perm np float FloatOrder.fle_nan_last
                [1.5; 1.5]%float) as P.
  cbn [length seq] in P.
  apply Permutation_sym, Permutation_length_2_inv in P.
  unfold generate_rankings.
  change (unique (map size_name df_tie_loaded)) with ["10k"%string].
  change (unique (map size_name df_tie_unsorted)) with ["10k"%string].
  cbn [map]. rewrite El, Eu.
  destruct P as [-> | ->]; [right | left]; vm_compute; reflexivity.
Qed.

Example ranking_tie_loaded :
  generate_rankings insertion df_tie_loaded =
  [ ("10k"%string,
     [ mkRankingRow "a" "2.000" "10.00" 2 1 1.5;
       mkRankingRow "b" "1.000" "20.00" 1 2 1.5 ]) ].
Proof. vm_compute. reflexivity. Qed.

(** C7, amended: for every size bucket the output rows are the bucket's
    rows sorted by [combined_score] ascending, the rows with a missing
    score last, in the order they have in the bucket.  The sort has one key
    and is not stable:
    where two rows have different scores their order is fixed, and where
    they have equal scores it is [np]'s, which is given the score column
    and nothing else. *)
Theorem ranking_sorted_by_score_only
  (np : Numpy) (df : list Row) (size : string) :
  let size_df := rank_bucket (bucket df size) in
  Permutation (ranking_table np df size) size_df /\
  StronglySorted (le_rel by_score) (ranking_table np df size) /\
  (forall i j x y, (i < j)%nat ->
     nth_error (ranking_table np df size) i = Some x ->
     nth_error (ranking_table np df size) j = Some y ->
     is_nan (combined_score y) = true \/
     (combined_score x <=? combined_score y)%float = true) /\
  filter (missing score_key) (ranking_table np df size)
  = filter (missing score_key) size_df /\
  ((forall x y, In x size_df -> In y size_df ->
      (combined_score x =? combined_score y)%float = true -> x = y) ->
   forall np', ranking_table np' df size = ranking_table np df size) /\
  (forall df' size',
     present_keys score_key
       (filter (present score_key) (rank_bucket (bucket df' size')))
     = present_keys score_key (filter (present score_key) size_df) ->
     exists idx,
       Permutation idx
         (seq 0 (length (filter (present score_key) size_df))) /\
       ranking_table np df size
       = take idx (filter (present score_key) size_df)
         ++ filter (missing score_key) size_df /\
       ranking_table np df' size'
       = take idx (filter (present score_key)
                     (rank_bucket (bucket df' size')))
         ++ filter (missing score_key) (rank_bucket (bucket df' size'))).
Proof.
  intros size_df.
  split; [apply ranking_table_perm|].
  split; [apply ranking_table_sorted|].
  split.
  { intros i j x y Hij Hi Hj.
    pose proof (sorted_nth _ _ (ranking_table_sorted np df size)
                  i j x y Hij Hi Hj) as R.
    unfold le_rel, by_score, FloatOrder.fle_nan_last in R.
    destruct (is_nan (combined_score y)); [now left|].
    destruct (is_nan (combined_score x)); [discriminate | now right]. }
  split; [apply sort_values_missing|].
  split.
  { intros U np'.
    assert (D : forall n : Numpy,
              ranking_table n df size
              = stable_sort (by_key score_key FloatOrder.fle_nan_last)
                            size_df).
    { intros n.
      apply (sort_values_determined n Ranked float score_key
               FloatOrder.fle_nan_last FloatOrder.fle_nan_last_total
               FloatOrder.fle_nan_last_trans).
      intros x y k1 k2 Hx Hy K1 K2 L1 L2. apply U; auto.
      unfold score_key in K1, K2.
      destruct (is_nan (combined_score x)) eqn:Nx; [discriminate|].
      destruct (is_nan (combined_score y)) eqn:Ny; [discriminate|].
      injection K1 as <-. injection K2 as <-.
      now apply fle_both_eq. }
    now rewrite !D. }
  intros df' size' E.
  exists (np_argsort np float FloatOrder.fle_nan_last
            (present_keys score_key (filter (present score_key) size_df))).
  split.
  { rewrite <- present_keys_length. apply np_argsort_perm. }
  split; [reflexivity|].
  unfold ranking_table, sort_values. cbv zeta. now rewrite E.
Qed.

(* ================================================================== *)
(** * The Comparative Ratio Engine: [generate_comparative_analysis] *)
(* ================================================================== *)

(** One dict of [comparative_data]. *)
Record ComparativeData : Type := mkComparativeData {
  cd_File_Size : string;         (* 'File Size' *)
  cd_Tool : string;              (* 'Tool' *)
  Time_Ratio : float;            (* 'Time Ratio' *)
  Memory_Ratio : float;          (* 'Memory Ratio' *)
  Timber_Time : float;           (* 'Timber Time (s)' *)
  Tool_Time : float;             (* 'Tool Time (s)' *)
  Timber_Memory : float;         (* 'Timber Memory (MB)' *)
  Tool_Memory : float            (* 'Tool Memory (MB)' *)
}.

(** A row of [comparative_df] with its two display columns. *)
Record ComparativeEntry : Type := mkComparativeEntry {
  data : ComparativeData;
  Time_Comparison : string;      (* 'Time Comparison' *)
  Memory_Comparison : string     (* 'Memory Comparison' *)
}.

Definition is_timber (r : Row) : bool := String.eqb (tool r) "timber".

(** The body of the loop over sizes.  The baseline is the first timber row
    of the bucket; a bucket without one is skipped.  The two ratios divide
    a numpy scalar, so a zero divisor gives an infinity or NaN. *)
Definition comparative_rows (size : string) (size_df : list Row)
  : list ComparativeData :=
  match filter is_timber size_df with
  | [] => []
  | t :: _ =>
      let timber_time := time_seconds t in
      let timber_memory := memory_mb t in
      flat_map
        (fun row =>
           if is_timber row then []
           else
             [ mkComparativeData size (tool row)
                 (timber_time / time_seconds row)%float
                 (timber_memory / memory_mb row)%float
                 timber_time (time_seconds row)
                 timber_memory (memory_mb row) ])
        size_df
  end.

Definition comparative_data (df : list Row) : list ComparativeData :=
  flat_map (fun size => comparative_rows size (bucket df size))
           (unique (map size_name df)).

(** [1 / x['Time Ratio']] inside [comparative_df.apply(..., axis=1)].  The
    lambda gets each row as a Series over a row of [comparative_df.values];
    with the text columns 'File Size' and 'Tool' that array has dtype object
    and holds its numbers as Python floats, for which a zero divisor raises
    (a numpy scalar would give an infinity). *)
Definition reciprocal (x : float) : result float :=
  if (x =? 0)%float then Raise ZeroDivisionError else Ok (1 / x)%float.

Definition time_comparison (ratio : float) : result string :=
  if (ratio <? 1)%float then
    inv <- reciprocal ratio ;;
    Ok ("Timber is " ++ format_f 2 inv ++ "x slower")%string
  else Ok ("Timber is " ++ format_f 2 ratio ++ "x faster")%string.

Definition memory_comparison (ratio : float) : result string :=
  if (ratio <? 1)%float then
    inv <- reciprocal ratio ;;
    Ok ("Timber uses " ++ format_f 2 inv ++ "x more memory")%string
  else Ok ("Timber uses " ++ format_f 2 ratio ++ "x less memory")%string.

Definition add_comparisons (d : ComparativeData) : result ComparativeEntry :=
  tc <- time_comparison (Time_Ratio d) ;;
  mc <- memory_comparison (Memory_Ratio d) ;;
  Ok (mkComparativeEntry d tc mc).

(** [comparative_df] as it is written to [comparative_analysis.csv]; with
    no data the function prints a notice and returns (the empty list
    here).  Each row gets both display columns; the pivots that follow in
    the script only feed the chart. *)
Definition generate_comparative_analysis (df : list Row)
  : result (list ComparativeEntry) :=
  map_result add_comparisons (comparative_data df).

Lemma comparative_rows_in size size_df t rest r :
  filter is_timber size_df = t :: rest ->
  In r size_df -> is_timber r = false ->
  In (mkComparativeData size (tool r)
        (time_seconds t / time_seconds r)%float
        (memory_mb t / memory_mb r)%float
        (time_seconds t) (time_seconds r) (memory_mb t) (memory_mb r))
     (comparative_rows size size_df).
Proof.
  intros Ht Hr Hn. unfold comparative_rows. rewrite Ht.
  apply in_flat_map. exists r. split; [exact Hr|].
  rewrite Hn. now left.
Qed.

Lemma comparative_rows_inv size size_df d :
  In d (comparative_rows size size_df) ->
  exists t rest r,
    filter is_timber size_df = t :: rest /\ In r size_df /\
    is_timber r = false /\
    d = mkComparativeData size (tool r)
          (time_seconds t / time_seconds r)%float
          (memory_mb t / memory_mb r)%float
          (time_seconds t) (time_seconds r) (memory_mb t) (memory_mb r).
Proof.
  unfold comparative_rows.
  destruct (filter is_timber size_df) as [|t rest]; [intros []|].
  intros H. apply in_flat_map in H. destruct H as [r [Hr H]].
  destruct (is_timber r) eqn:E; [destruct H|].
  destruct H as [<-|[]]. exists t, rest, r. auto.
Qed.

Lemma time_comparison_slower ratio :
  (ratio <? 1)%float = true -> (ratio =? 0)%float = false ->
  time_comparison ratio
  = Ok ("Timber is " ++ format_f 2 (1 / ratio) ++ "x slower")%string.
Proof.
  intros H1 H0. unfold time_comparison, reciprocal. now rewrite H1, H0.
Qed.

Lemma time_comparison_faster ratio :
  (1 <=? ratio)%float = true ->
  time_comparison ratio
  = Ok ("Timber is " ++ format_f 2 ratio ++ "x faster")%string.
Proof.
  intros H. unfold time_comparison.
  assert (L : (ratio <? 1)%float = false).
  { rewrite FloatOrder.leb_fcmp in H.
    rewrite FloatOrder.ltb_fcmp, (FloatOrder.fcmp_antisym 1 ratio).
    destruct (FloatOrder.fcmp 1 ratio) as [[| |]|]; cbn;
      congruence. }
  now rewrite L.
Qed.

Lemma add_comparisons_inv d e :
  add_comparisons d = Ok e ->
  data e = d /\ time_comparison (Time_Ratio d) = Ok (Time_Comparison e) /\
  memory_comparison (Memory_Ratio d) = Ok (Memory_Comparison e).
Proof.
  unfold add_comparisons.
  destruct (time_comparison (Time_Ratio d)) as [tc|]; cbn; [|discriminate].
  destruct (memory_comparison (Memory_Ratio d)) as [mc|]; cbn;
    [|discriminate].
  intros [= <-]. cbn. auto.
Qed.

Lemma add_comparisons_ok d :
  (Time_Ratio d =? 0)%float = false ->
  (Memory_Ratio d =? 0)%float = false ->
  exists e, add_comparisons d = Ok e.
Proof.
  intros Ht Hm.
  unfold add_comparisons, time_comparison, memory_comparison, reciprocal.
  rewrite Ht, Hm.
  destruct (Time_Ratio d <? 1)%float, (Memory_Ratio d <? 1)%float;
    cbn; eauto.
Qed.

Lemma Forall2_map_eq {A B : Type} (f : B -> A) (l1 : list A) (l2 : list B) :
  Forall2 (fun a b => f b = a) l1 l2 -> map f l2 = l1.
Proof. induction 1; cbn; congruence. Qed.

(** The end-to-end scenario of the specification. *)
Example comparative_two_tools :
  generate_comparative_analysis df_two_tools =
  Ok [ mkComparativeEntry
         (mkComparativeData "10k" "toolB" 0.5 0.625 1 2 50 80)
         "Timber is 2.00x slower" "Timber uses 1.60x more memory" ].
Proof. vm_compute. reflexivity. Qed.

(** The reference tool measured at zero seconds. *)
Definition df_timber_zero : list Row :=
  [ row "timber" "x_10k.json" 0 50 "10k" (Some 10000);
    row "toolB" "x_10k.json" 2 80 "10k" (Some 10000) ].

(** Counterexample to C3 as stated: in [df_timber_zero] the bucket [10k]
    has a reference measurement and toolB has [time_ratio = 0 / 2 = 0],
    which is below 1; no phrase is produced, because [1 / time_ratio]
    raises [ZeroDivisionError]. *)
Lemma comparative_zero_ratio_raises :
  map Time_Ratio (comparative_data df_timber_zero) = [0%float] /\
  generate_comparative_analysis df_timber_zero = Raise ZeroDivisionError.
Proof. split; vm_compute; reflexivity. Qed.

(** C3, amended: for every size bucket that contains a reference
    measurement and every non-reference tool in it, the engine computes
    [time_ratio = reference_time / tool_time] and
    [memory_ratio = reference_memory / tool_memory]; when no ratio is zero
    the table is produced with one entry per such computation, and each
    entry's phrase is "Timber is {1/time_ratio:.2f}x slower" when
    [time_ratio < 1] and "Timber is {time_ratio:.2f}x faster" when
    [time_ratio >= 1], so [time_ratio = 0.5] yields
    "Timber is 2.00x slower". *)
Theorem comparative_ratios_and_phrases (df : list Row) :
  (forall size t rest r,
     filter is_timber (bucket df size) = t :: rest ->
     In r (bucket df size) -> is_timber r = false ->
     exists d,
       In d (comparative_data df) /\
       cd_File_Size d = size /\ cd_Tool d = tool r /\
       Time_Ratio d = (time_seconds t / time_seconds r)%float /\
       Memory_Ratio d = (memory_mb t / memory_mb r)%float) /\
  ((forall d, In d (comparative_data df) ->
      (Time_Ratio d =? 0)%float = false /\
      (Memory_Ratio d =? 0)%float = false) ->
   exists entries,
     generate_comparative_analysis df = Ok entries /\
     map data entries = comparative_data df) /\
  (forall entries e,
     generate_comparative_analysis df = Ok entries -> In e entries ->
     In (data e) (comparative_data df) /\
     ((Time_Ratio (data e) <? 1)%float = true ->
      Time_Comparison e =
        ("Timber is " ++ format_f 2 (1 / Time_Ratio (data e))
                      ++ "x slower")%string) /\
     ((1 <=? Time_Ratio (data e))%float = true ->
      Time_Comparison e =
        ("Timber is " ++ format_f 2 (Time_Ratio (data e))
                      ++ "x faster")%string) /\
     (Time_Ratio (data e) = 0.5%float ->
      Time_Comparison e = "Timber is 2.00x slower"%string)).
Proof.
  split; [|split].
  - intros size t rest r Ht Hr Hn.
    eexists. split.
    + unfold comparative_data. apply in_flat_map. exists size. split.
      * apply unique_in. apply filter_In in Hr. destruct Hr as [Hr Hs].
        apply String.eqb_eq in Hs. subst size. now apply in_map.
      * eapply comparative_rows_in; eauto.
    + cbn. auto.
  - intros Hnz. unfold generate_comparative_analysis.
    destruct (map_result_ok add_comparisons (comparative_data df))
      as [entries [E F]].
    + intros d Hd. destruct (Hnz d Hd). now apply add_comparisons_ok.
    + exists entries. split; [exact E|].
      apply Forall2_map_eq. eapply Forall2_impl; [|exact F].
      intros d e H. now apply add_comparisons_inv in H.
  - intros entries e E He. unfold generate_comparative_analysis in E.
    apply map_result_inv in E.
    destruct (Forall2_in_r _ _ _ _ E He) as [d [Hd Hde]].
    apply add_comparisons_inv in Hde. destruct Hde as [<- [Ht _]].
    split; [exact Hd|].
    assert (Slow : (Time_Ratio (data e) <? 1)%float = true ->
      Time_Comparison e =
        ("Timber is " ++ format_f 2 (1 / Time_Ratio (data e))
                      ++ "x slower")%string).
    { intros L. unfold time_comparison, reciprocal in Ht. rewrite L in Ht.
      destruct (Time_Ratio (data e) =? 0)%float; cbn [bind] in Ht;
        [discriminate|]. now injection Ht as <-. }
    split; [exact Slow|]. split.
    + intros G. rewrite (time_comparison_faster _ G) in Ht. congruence.
    + intros H. rewrite Slow by (rewrite H; reflexivity).
      rewrite H. vm_compute. reflexivity.
Qed.

Lemma comparative_ratios_and_phrases_witness :
  exists entries,
    generate_comparative_analysis df_two_tools = Ok entries /\
    map data entries = comparative_data df_two_tools.
Proof.
  apply (proj1 (proj2 (comparative_ratios_and_phrases df_two_tools))).
  intros d Hd. vm_compute in Hd. destruct Hd as [<-|[]].
  split; reflexivity.
Defined.

(* ================================================================== *)
(** * Further properties of the Record Loader *)
(* ================================================================== *)

Fixpoint has_char (c : ascii) (s : string) : bool :=
  match s with
  | EmptyString => false
  | String a rest => Ascii.eqb a c || has_char c rest
  end.

Lemma split_nonempty sep s : split sep s <> [].
Proof.
  destruct s as [|c rest]; cbn; [discriminate|].
  destruct (Ascii.eqb c sep); [discriminate|].
  destruct (split sep rest); discriminate.
Qed.

Lemma split_no_sep sep s : has_char sep s = false -> split sep s = [s].
Proof.
  induction s as [|c rest IH]; cbn; [reflexivity|].
  intros H. apply orb_false_iff in H. destruct H as [Hc Hr].
  rewrite Hc, (IH Hr). reflexivity.
Qed.

Lemma split_app_sep sep a r :
  has_char sep a = false ->
  split sep (a ++ String sep r) = a :: split sep r.
Proof.
  induction a as [|c rest IH]; cbn.
  - intros _. now rewrite Ascii.eqb_refl.
  - intros H. apply orb_false_iff in H. destruct H as [Hc Hr].
    rewrite Hc, (IH Hr). reflexivity.
Qed.

Lemma split_pieces sep s p :
  In p (split sep s) -> has_char sep p = false.
Proof.
  revert p. induction s as [|c rest IH]; cbn; intros p.
  - intros [<-|[]]. reflexivity.
  - destruct (Ascii.eqb c sep) eqn:E.
    + intros [<-|H]; [reflexivity | auto].
    + destruct (split sep rest) as [|q qs] eqn:S.
      * intros [<-|[]]. cbn. now rewrite E.
      * intros [<-|H].
        -- cbn. rewrite E. apply IH. now left.
        -- apply IH. now right.
Qed.

Lemma split_hd sep s :
  has_char sep (hd EmptyString (split sep s)) = false.
Proof.
  pose proof (split_nonempty sep s) as N.
  destruct (split sep s) as [|p ps] eqn:E; [contradiction|].
  apply (split_pieces sep s). rewrite E. now left.
Qed.

(** The first piece is a prefix: nothing of it comes from after the first
    separator, so a character absent from the string is absent from it. *)
Lemma split_hd_keeps sep c s :
  has_char c s = false ->
  has_char c (hd EmptyString (split sep s)) = false.
Proof.
  induction s as [|a rest IH]; cbn; [reflexivity|].
  intros H. apply orb_false_iff in H. destruct H as [Ha Hr].
  destruct (Ascii.eqb a sep); [reflexivity|].
  specialize (IH Hr).
  destruct (split sep rest) as [|q qs]; cbn in *.
  - now rewrite Ha.
  - now rewrite Ha, IH.
Qed.

Lemma split_one_piece sep s :
  (exists p, split sep s = [p]) -> has_char sep s = false.
Proof.
  induction s as [|c rest IH]; cbn; [reflexivity|].
  destruct (Ascii.eqb c sep) eqn:E.
  - intros [p H]. injection H as _ H.
    now apply split_nonempty in H.
  - intros [p H]. cbn. apply IH.
    destruct (split sep rest) as [|q [|q' qs]] eqn:S; try discriminate.
    + now apply split_nonempty in S.
    + now exists q.
Qed.

(** The token is missing exactly when the identifier has no underscore. *)
Lemma size_token_error_iff x :
  size_token x = Raise IndexError <-> has_char "_" x = false.
Proof.
  unfold size_token. split.
  - intros H. apply split_one_piece.
    pose proof (split_nonempty "_" x) as N.
    destruct (split "_" x) as [|p [|q qs]]; try contradiction;
      [now exists p | discriminate].
  - intros H. now rewrite (split_no_sep _ _ H).
Qed.

Lemma size_token_ok_or_index x :
  (exists s, size_token x = Ok s) \/ size_token x = Raise IndexError.
Proof.
  unfold size_token. destruct (nth_error (split "_" x) 1); eauto.
Qed.

(** X1: the size token is the second underscore-separated segment of the
    identifier, cut at its first dot.  It never contains an underscore or a
    dot; for an identifier [a_b_rest] or [a_b] whose [a] and [b] have no
    underscore it is [b] up to its first dot (so [a_SIZE.ext] gives [SIZE]);
    and the rule fails with [IndexError] exactly when the identifier has no
    underscore. *)
Theorem size_token_is_second_segment (x : string) :
  (forall s, size_token x = Ok s ->
     has_char "_" s = false /\ has_char "." s = false) /\
  (forall a b rest,
     has_char "_" a = false -> has_char "_" b = false ->
     (x = (a ++ "_" ++ b)%string \/ x = (a ++ "_" ++ b ++ "_" ++ rest)%string) ->
     size_token x = Ok (hd EmptyString (split "." b))) /\
  (forall a size ext,
     has_char "_" a = false -> has_char "_" size = false ->
     has_char "." size = false ->
     x = (a ++ "_" ++ size ++ "." ++ ext)%string ->
     size_token x = Ok size) /\
  (size_token x = Raise IndexError <-> has_char "_" x = false).
Proof.
  split; [|split; [|split]].
  - intros s H. unfold size_token in H.
    destruct (nth_error (split "_" x) 1) as [seg|] eqn:E; [|discriminate].
    injection H as <-. split.
    + apply split_hd_keeps. apply (split_pieces "_" x).
      eapply nth_error_In; eauto.
    + apply split_hd.
  - intros a b rest Ha Hb [->| ->]; unfold size_token.
    + change (a ++ "_" ++ b)%string with (a ++ String "_" b)%string.
      rewrite (split_app_sep _ _ _ Ha), (split_no_sep _ _ Hb). reflexivity.
    + change (a ++ "_" ++ b ++ "_" ++ rest)%string
        with (a ++ String "_" (b ++ String "_" rest))%string.
      rewrite (split_app_sep _ _ _ Ha), (split_app_sep _ _ _ Hb).
      reflexivity.
  - intros a size ext Ha Hs Hd ->. unfold size_token.
    change (a ++ "_" ++ size ++ "." ++ ext)%string
      with (a ++ String "_" (size ++ String "." ext))%string.
    rewrite (split_app_sep _ _ _ Ha).
    pose proof (split_nonempty "_" (size ++ String "." ext)) as N.
    destruct (split "_" (size ++ String "." ext)) as [|seg segs] eqn:E;
      [contradiction|].
    cbn [nth_error]. f_equal.
    (* the segment starts with size followed by a dot *)
    assert (P : exists tail, seg = (size ++ String "." tail)%string).
    { clear N. revert seg segs E.
      induction size as [|c sz IH]; cbn; intros seg segs E.
      - destruct (split "_" ext) as [|q qs] eqn:Q.
        + injection E as <- _. now exists EmptyString.
        + injection E as <- _. now exists q.
      - cbn in Hs, Hd.
        apply orb_false_iff in Hs, Hd. destruct Hs as [Hc Hs], Hd as [_ Hd].
        rewrite Hc in E.
        destruct (split "_" (sz ++ String "." ext)) as [|q qs] eqn:Q.
        + exfalso. now apply (split_nonempty "_" (sz ++ String "." ext)).
        + injection E as <- _.
          destruct (IH Hs Hd q qs eq_refl) as [tail ->].
          now exists tail. }
    destruct P as [tail ->].
    now rewrite (split_app_sep _ _ _ Hd).
  - apply size_token_error_iff.
Qed.

Lemma size_token_is_second_segment_witness :
  size_token "bench_100k.log.gz" = Ok "100k"%string.
Proof.
  refine (proj1 (proj2 (proj2 (size_token_is_second_segment
            "bench_100k.log.gz"))) "bench" "100k" "log.gz"
            _ _ _ _)%string; reflexivity.
Defined.


(** ** What a successful load returns *)

Lemma load_data_inv csv df :
  load_data csv = Ok df ->
  exists l, Forall2 (fun a b => add_size a = Ok b) csv l /\
            df = stable_sort tool_size_leb l.
Proof.
  unfold load_data.
  destruct (map_result add_size csv) as [l|e] eqn:E; cbn; [|discriminate].
  intros [= <-]. exists l. split; [now apply map_result_inv | reflexivity].
Qed.

Lemma load_data_row csv df r :
  load_data csv = Ok df -> In r df ->
  exists a, In a csv /\ add_size a = Ok r.
Proof.
  intros L Hr. destruct (load_data_inv _ _ L) as [l [F ->]].
  apply stable_sort_in in Hr. exact (Forall2_in_r _ _ _ _ F Hr).
Qed.

Lemma load_data_ok csv :
  (forall r, In r csv ->
     exists x name, raw_log r = Some x /\ size_token x = Ok name) ->
  exists df, load_data csv = Ok df.
Proof.
  intros H. destruct (map_result_ok add_size csv) as [bs [E _]].
  - intros r Hr. destruct (H r Hr) as [x [name [Hx Hn]]].
    unfold add_size. rewrite Hx, Hn. cbn. eauto.
  - unfold load_data. rewrite E. cbn. eauto.
Qed.

(** ** The log files the repository generates *)

(** [benchmark/create_json_logs.py], bottom of the script: the entry counts
    and the file names it writes under [bench_dir]; the fourth only when
    [with_large] is set. *)
Definition json_log_files (with_large : bool) : list (Z * string) :=
  [ (10000, "bench_json_10k.json"%string);
    (100000, "bench_json_100k.json"%string);
    (1000000, "bench_json_1m.json"%string) ]
  ++ (if with_large then [ (10000000, "bench_json_10m.json"%string) ]
      else []).

(** X2: for every file name [create_json_logs.py] writes, the loader's
    extraction rule yields the token [json], not the size: the name has two
    underscores and the rule takes the segment after the first.  [json] is
    not in [size_mapping], so in a table whose log identifiers are these
    names every row is loaded with [size_name = json] and a missing
    [size_numeric], and as soon as one tool has two rows both pivots raise
    [ValueError]. *)
Theorem json_log_names_give_token_json (with_large : bool)
  (csv : list RawRow) :
  (forall r, In r csv ->
     exists count name,
       In (count, name) (json_log_files with_large) /\
       raw_log r = Some name) ->
  (forall count name, In (count, name) (json_log_files with_large) ->
     size_token name = Ok "json"%string) /\
  exists df,
    load_data csv = Ok df /\
    (forall r, In r df ->
       size_name r = "json"%string /\ size_numeric r = None) /\
    (forall n1 n2 r1 r2,
       n1 <> n2 -> nth_error df n1 = Some r1 -> nth_error df n2 = Some r2 ->
       tool r1 = tool r2 ->
       generate_time_comparison df = Raise ValueError /\
       generate_memory_comparison df = Raise ValueError).
Proof.
  intros Hcsv.
  assert (Tok : forall count name,
            In (count, name) (json_log_files with_large) ->
            size_token name = Ok "json"%string).
  { intros count name H. unfold json_log_files in H.
    apply in_app_or in H. destruct H as [H|H].
    - cbn in H. destruct H as [H|[H|[H|[]]]]; injection H as _ <-;
        reflexivity.
    - destruct with_large; cbn in H; [|contradiction].
      destruct H as [H|[]]. injection H as _ <-. reflexivity. }
  split; [exact Tok|].
  destruct (load_data_ok csv) as [df L].
  { intros r Hr. destruct (Hcsv r Hr) as [count [name [Hin Hlog]]].
    exists name, "json"%string. split; [exact Hlog | eauto]. }
  exists df. split; [exact L|].
  assert (J : forall r, In r df ->
            size_name r = "json"%string /\ size_numeric r = None).
  { intros r Hr. destruct (load_data_row _ _ _ L Hr) as [a [Ha Hadd]].
    apply add_size_row in Hadd.
    destruct Hadd as [Hl [Ht [_ [_ [_ Hs]]]]].
    destruct (Hcsv a Ha) as [count [name [Hin Hlog]]].
    rewrite Hl in Hlog. injection Hlog as Hlog.
    rewrite Hlog, (Tok _ _ Hin) in Ht. injection Ht as Ht.
    split; [now symmetry|]. rewrite Hs, <- Ht. reflexivity. }
  split; [exact J|].
  intros n1 n2 r1 r2 Hn H1 H2 Ht.
  assert (S : size_name r1 = size_name r2).
  { destruct (J r1 (nth_error_In _ _ H1)) as [-> _].
    destruct (J r2 (nth_error_In _ _ H2)) as [-> _]. reflexivity. }
  split; eapply pivot_by_duplicate; eauto.
Qed.

Definition csv_json_logs : list RawRow :=
  [ mkRawRow "timber" (Some "bench_json_10k.json"%string) 1 50;
    mkRawRow "timber" (Some "bench_json_100k.json"%string) 9 90 ].

Lemma json_log_names_give_token_json_witness :
  exists df,
    load_data csv_json_logs = Ok df /\
    (forall r, In r df ->
       size_name r = "json"%string /\ size_numeric r = None) /\
    (forall n1 n2 r1 r2,
       n1 <> n2 -> nth_error df n1 = Some r1 -> nth_error df n2 = Some r2 ->
       tool r1 = tool r2 ->
       generate_time_comparison df = Raise ValueError /\
       generate_memory_comparison df = Raise ValueError).
Proof.
  refine (proj2 (json_log_names_give_token_json false csv_json_logs _)).
  intros r Hr. cbn in Hr.
  destruct Hr as [<-|[<-|[]]]; do 2 eexists; split;
    try reflexivity; cbn; auto.
Defined.

Example json_logs_pivot_raises :
  (df <- load_data csv_json_logs ;; generate_time_comparison df)
  = Raise ValueError.
Proof. reflexivity. Qed.

(** ** Failure, order and content of the load *)

Lemma add_size_ok_iff a :
  (exists r, add_size a = Ok r) <->
  exists x, raw_log a = Some x /\ has_char "_" x = true.
Proof.
  unfold add_size. destruct (raw_log a) as [x|].
  - destruct (size_token x) as [name|e] eqn:E; cbn.
    + split; [|eauto]. intros _. exists x. split; [reflexivity|].
      destruct (has_char "_" x) eqn:H; [reflexivity|].
      apply size_token_error_iff in H. congruence.
    + split; [intros [r H]; discriminate|].
      intros [y [[= <-] H]].
      destruct (size_token_ok_or_index x) as [[s Hs]|Hs]; [congruence|].
      apply size_token_error_iff in Hs. congruence.
  - split; [intros [r H]; discriminate | intros [x [H _]]; discriminate].
Qed.

Lemma map_result_first_error {A B : Type} (f : A -> result B)
  pre a post e :
  (forall x, In x pre -> exists b, f x = Ok b) ->
  f a = Raise e ->
  map_result f (pre ++ a :: post) = Raise e.
Proof.
  induction pre as [|p pre IH]; intros Hpre Ha; cbn.
  - now rewrite Ha.
  - destruct (Hpre p (or_introl eq_refl)) as [b Hb]. rewrite Hb. cbn.
    rewrite IH; [reflexivity | | exact Ha].
    intros x Hx. apply Hpre. now right.
Qed.

(** X3: [load_data] succeeds exactly when the [log] cell of every row is a
    [str] that contains an underscore.  Otherwise it raises at the first
    row whose cell is not, whatever follows: [AttributeError] when that
    cell is not a [str] (an empty field, or a number, a column of numeric
    fields being read as numbers), [IndexError] when it is a [str] without
    an underscore. *)
Theorem load_data_raises_at_first_bad_row (csv : list RawRow) :
  ((exists df, load_data csv = Ok df) <->
   (forall r, In r csv ->
      exists x, raw_log r = Some x /\ has_char "_" x = true)) /\
  (forall pre r post,
     csv = pre ++ r :: post ->
     (forall a, In a pre ->
        exists x, raw_log a = Some x /\ has_char "_" x = true) ->
     (raw_log r = None -> load_data csv = Raise AttributeError) /\
     (forall x, raw_log r = Some x -> has_char "_" x = false ->
        load_data csv = Raise IndexError)).
Proof.
  split.
  - split.
    + intros [df L] r Hr.
      destruct (load_data_inv _ _ L) as [l [F _]].
      apply add_size_ok_iff.
      clear L. induction F as [|a b csv' l' Hab _ IH]; [destruct Hr|].
      destruct Hr as [<-|Hr]; [eauto | auto].
    + intros H. apply load_data_ok. intros r Hr.
      destruct (proj2 (add_size_ok_iff r) (H r Hr)) as [b Hb].
      apply add_size_row in Hb. destruct Hb as [Hl [Ht _]]. eauto.
  - intros pre r post -> Hpre.
    assert (P : forall a, In a pre -> exists b, add_size a = Ok b)
      by (intros a Ha; apply add_size_ok_iff; auto).
    split.
    + intros Hr. unfold load_data.
      rewrite (map_result_first_error add_size pre r post AttributeError P);
        [reflexivity|].
      unfold add_size. now rewrite Hr.
    + intros x Hx Hu. unfold load_data.
      rewrite (map_result_first_error add_size pre r post IndexError P);
        [reflexivity|].
      unfold add_size. rewrite Hx.
      apply size_token_error_iff in Hu. now rewrite Hu.
Qed.

Definition same_key (t : string) (s : option Z) (r : Row) : bool :=
  String.eqb (tool r) t &&
  match size_numeric r, s with
  | Some a, Some b => a =? b
  | None, None => true
  | _, _ => false
  end.

Lemma same_key_leb t s x y :
  same_key t s x = true -> same_key t s y = true ->
  tool_size_leb x y = true.
Proof.
  unfold same_key, tool_size_leb. intros Hx Hy.
  apply andb_true_iff in Hx, Hy. destruct Hx as [Tx Sx], Hy as [Ty Sy].
  apply String.eqb_eq in Tx, Ty. rewrite Tx, Ty.
  pose proof (proj2 (OrderedTypeEx.String_as_OT.cmp_eq t t) eq_refl) as R.
  unfold OrderedTypeEx.String_as_OT.cmp in R. rewrite R.
  destruct (size_numeric x), (size_numeric y), s; try discriminate;
    cbn; auto.
  apply Z.eqb_eq in Sx, Sy. lia.
Qed.

(** X4: the frame [load_data] returns holds the rows of the input, each
    with its two derived columns and none lost or added, sorted by tool
    name ascending and, within a tool, by [size_numeric] ascending with the
    unmapped sizes last; rows of one tool with the same [size_numeric] keep
    the order they have in the file. *)
Theorem load_data_sorted_by_tool_then_size (csv : list RawRow)
  (df : list Row) :
  load_data csv = Ok df ->
  StronglySorted (le_rel tool_size_leb) df /\
  exists l,
    Forall2 (fun a r => add_size a = Ok r) csv l /\
    Permutation df l /\
    forall t s, filter (same_key t s) df = filter (same_key t s) l.
Proof.
  intros L. destruct (load_data_inv _ _ L) as [l [F ->]].
  split.
  - apply stable_sort_sorted;
      [apply tool_size_leb_total | apply tool_size_leb_trans].
  - exists l. split; [exact F|]. split; [apply stable_sort_perm|].
    intros t s. apply stable_sort_ties.
    + apply tool_size_leb_total.
    + apply tool_size_leb_trans.
    + intros x y _ _. apply same_key_leb.
Qed.

Lemma load_data_sorted_by_tool_then_size_witness :
  StronglySorted (le_rel tool_size_leb) df_tie_loaded /\
  exists l,
    Forall2 (fun a r => add_size a = Ok r) csv_tie l /\
    Permutation df_tie_loaded l /\
    forall t s,
      filter (same_key t s) df_tie_loaded = filter (same_key t s) l.
Proof.
  apply (load_data_sorted_by_tool_then_size csv_tie df_tie_loaded).
  vm_compute. reflexivity.
Defined.

Lemma map_result_perm {A B : Type} (f : A -> result B) l1 l2 bs :
  Permutation l1 l2 -> map_result f l1 = Ok bs ->
  exists bs', map_result f l2 = Ok bs' /\ Permutation bs bs'.
Proof.
  intros P. revert bs.
  induction P as [|x l1 l2 _ IH|x y l|l1 l2 l3 _ IH1 _ IH2]; intros bs.
  - cbn. intros [= <-]. exists []. auto.
  - cbn. destruct (f x) as [b|]; cbn; [|discriminate].
    destruct (map_result f l1) as [bs1|] eqn:E; cbn; [|discriminate].
    intros [= <-]. destruct (IH bs1 eq_refl) as [bs' [E' P']].
    rewrite E'. cbn. exists (b :: bs'). auto.
  - cbn. destruct (f y) as [b|]; cbn; [|discriminate].
    destruct (f x) as [a|]; cbn; [|discriminate].
    destruct (map_result f l) as [bs1|]; cbn; [|discriminate].
    intros [= <-]. exists (a :: b :: bs1). split; [reflexivity|].
    apply perm_swap.
  - intros E. destruct (IH1 bs E) as [bs2 [E2 P2]].
    destruct (IH2 bs2 E2) as [bs3 [E3 P3]].
    exists bs3. split; [exact E3|]. now rewrite P2.
Qed.

(** X5: when no two different loaded rows share both tool and
    [size_numeric], the frame [load_data] returns does not depend on the
    order of the rows in the file. *)
Theorem load_data_row_order_independent (csv csv' : list RawRow)
  (df : list Row) :
  Permutation csv csv' ->
  load_data csv = Ok df ->
  (forall r1 r2, In r1 df -> In r2 df ->
     tool r1 = tool r2 -> size_numeric r1 = size_numeric r2 -> r1 = r2) ->
  load_data csv' = Ok df.
Proof.
  intros P L U. unfold load_data in *.
  destruct (map_result add_size csv) as [l|e] eqn:E; cbn in L;
    [|discriminate].
  injection L as <-.
  destruct (map_result_perm add_size csv csv' l P E) as [l' [E' P']].
  rewrite E'. cbn. f_equal. symmetry.
  apply stable_sort_perm_invariant.
  - apply tool_size_leb_total.
  - apply tool_size_leb_trans.
  - intros x y Hx Hy Hxy Hyx.
    apply U; try (now apply stable_sort_in).
    + unfold tool_size_leb in Hxy, Hyx.
      rewrite (String.compare_antisym (tool y) (tool x)) in Hyx.
      destruct (String.compare (tool x) (tool y)) eqn:C;
        cbn in Hyx; try discriminate.
      now apply String.compare_eq_iff.
    + unfold tool_size_leb in Hxy, Hyx.
      rewrite (String.compare_antisym (tool y) (tool x)) in Hyx.
      destruct (String.compare (tool x) (tool y)) eqn:C;
        cbn in Hyx; try discriminate.
      now apply size_leb_antisym.
  - exact P'.
Qed.

Lemma load_data_row_order_independent_witness :
  load_data (rev csv_tie) = Ok df_tie_loaded.
Proof.
  apply (load_data_row_order_independent csv_tie (rev csv_tie)
           df_tie_loaded).
  - apply Permutation_rev.
  - vm_compute. reflexivity.
  - unfold df_tie_loaded. intros r1 r2 H1 H2 Ht Hs. cbn in H1, H2.
    destruct H1 as [<-|[<-|[]]]; destruct H2 as [<-|[<-|[]]];
      try reflexivity; discriminate.
Defined.

(* ================================================================== *)
(** * Further properties of the Pivot Aggregator *)
(* ================================================================== *)

Section PivotShape.

Variables K V : Type.
Variable keqb : K -> K -> bool.
Variable kleb : K -> K -> bool.
Hypothesis keqb_eq : forall a b, keqb a b = true <-> a = b.

Lemma find_column_none {B : Type} (g : K -> B) (c : K) cols :
  ~ In c cols ->
  find (fun kv => keqb (fst kv) c) (map (fun k => (k, g k)) cols) = None.
Proof.
  induction cols as [|k t IH]; cbn; [reflexivity|].
  intros H. destruct (keqb k c) eqn:E.
  - apply keqb_eq in E. subst. tauto.
  - apply IH. tauto.
Qed.

Lemma dedup_NoDup seen (l : list K) : NoDup (dedup keqb seen l).
Proof.
  revert seen. induction l as [|y t IH]; intros seen; cbn.
  - constructor.
  - destruct (existsb (keqb y) seen); [apply IH|].
    constructor; [|apply IH].
    rewrite (dedup_in K keqb kleb keqb_eq). intros [_ H]. apply H. now left.
Qed.

Lemma pivot_columns (l : list (string * K * V)) fr c :
  pivot keqb kleb l = Ok fr ->
  (In c (columns fr) <-> In c (map (fun e => snd (fst e)) l)).
Proof.
  unfold pivot. destruct (has_duplicates keqb l); [discriminate|].
  intros [= <-]. cbn [columns].
  rewrite stable_sort_in, (dedup_in K keqb kleb keqb_eq). cbn. tauto.
Qed.

Lemma pivot_columns_NoDup (l : list (string * K * V)) fr :
  pivot keqb kleb l = Ok fr -> NoDup (columns fr).
Proof.
  unfold pivot. destruct (has_duplicates keqb l); [discriminate|].
  intros [= <-]. cbn [columns].
  eapply Permutation_NoDup;
    [apply Permutation_sym, stable_sort_perm | apply dedup_NoDup].
Qed.

Lemma pivot_find_row (l : list (string * K * V)) fr i :
  pivot keqb kleb l = Ok fr -> In i (index fr) ->
  find_row fr i
  = Some (map (fun c => (c, cell_value keqb l i c)) (columns fr)).
Proof.
  unfold pivot. destruct (has_duplicates keqb l); [discriminate|].
  intros [= <-]. unfold index, find_row. cbn [rows columns].
  rewrite map_map. cbn [fst]. rewrite map_id. intros Hi.
  rewrite find_labelled by exact Hi. reflexivity.
Qed.

Lemma cell_value_none (l : list (string * K * V)) i c :
  (forall e, In e l -> ~ (fst (fst e) = i /\ snd (fst e) = c)) ->
  cell_value keqb l i c = None.
Proof.
  intros H. unfold cell_value.
  destruct (find (same_cell keqb i c) l) as [e|] eqn:F; [|reflexivity].
  apply find_some in F. destruct F as [He Hs].
  apply (same_cell_iff K V keqb kleb keqb_eq) in Hs.
  exfalso. exact (H e He Hs).
Qed.

(** The cells of a reindexed pivot. *)
Lemma reindex_pivot_get (l : list (string * K * V)) fr labels i c :
  pivot keqb kleb l = Ok fr ->
  frame_get keqb (reindex labels fr) i c =
  if existsb (String.eqb i) labels then
    if existsb (keqb c) (columns fr) then Some (cell_value keqb l i c)
    else None
  else None.
Proof.
  intros P. unfold frame_get at 1. unfold find_row at 1, reindex.
  cbn [rows].
  destruct (existsb (String.eqb i) labels) eqn:El.
  - assert (Hl : In i labels).
    { apply existsb_exists in El. destruct El as [j [Hj E]].
      apply String.eqb_eq in E. now subst. }
    rewrite (find_labelled
      (fun i => match find_row fr i with
                | Some r => r
                | None => map (fun c => (c, None)) (columns fr)
                end)) by exact Hl.
    cbn [option_map snd].
    destruct (existsb (keqb c) (columns fr)) eqn:Ec.
    + assert (Hc : In c (columns fr)).
      { apply existsb_exists in Ec. destruct Ec as [k [Hk E]].
        apply keqb_eq in E. now subst. }
      destruct (find_row fr i) as [r|] eqn:Fr.
      * assert (Hi : In i (index fr)).
        { unfold find_row in Fr.
          destruct (find (fun r => String.eqb (fst r) i) (rows fr))
            as [[j r']|] eqn:F; [|discriminate].
          apply find_some in F. destruct F as [Hin E]. cbn in E.
          apply String.eqb_eq in E. subst j.
          unfold index. apply in_map_iff. exists (i, r'). auto. }
        rewrite (pivot_find_row l fr i P Hi) in Fr. injection Fr as <-.
        rewrite (find_column K keqb kleb keqb_eq
                   (fun c => cell_value keqb l i c)) by assumption.
        reflexivity.
      * rewrite (find_column K keqb kleb keqb_eq (fun _ : K => @None V))
          by assumption.
        cbn. f_equal. symmetry. apply cell_value_none.
        intros e He [H1 H2].
        assert (Hi : In i (index fr)).
        { eapply pivot_index; [exact P|]. apply in_map_iff. eauto. }
        destruct (find_row_some K V fr i Hi) as [r Hr]. congruence.
    + assert (Hc : ~ In c (columns fr)).
      { intros Hc. assert (existsb (keqb c) (columns fr) = true);
          [|congruence].
        apply existsb_exists. exists c. split; [exact Hc|].
        now apply keqb_eq. }
      destruct (find_row fr i) as [r|] eqn:Fr.
      * assert (Hi : In i (index fr)).
        { unfold find_row in Fr.
          destruct (find (fun r => String.eqb (fst r) i) (rows fr))
            as [[j r']|] eqn:F; [|discriminate].
          apply find_some in F. destruct F as [Hin E]. cbn in E.
          apply String.eqb_eq in E. subst j.
          unfold index. apply in_map_iff. exists (i, r'). auto. }
        rewrite (pivot_find_row l fr i P Hi) in Fr. injection Fr as <-.
        now rewrite find_column_none.
      * now rewrite find_column_none.
  - rewrite find_unlabelled; [reflexivity|].
    intros Hl. assert (existsb (String.eqb i) labels = true); [|congruence].
    apply existsb_exists. exists i. split; [exact Hl|].
    apply String.eqb_refl.
Qed.

End PivotShape.

Lemma string_leb_trans a b c :
  String.leb a b = true -> String.leb b c = true -> String.leb a c = true.
Proof.
  unfold String.leb.
  destruct (String.compare a b) eqn:E1; try discriminate;
    destruct (String.compare b c) eqn:E2; try discriminate; intros _ _.
  - apply String.compare_eq_iff in E1, E2. subst.
    pose proof (proj2 (OrderedTypeEx.String_as_OT.cmp_eq c c) eq_refl) as R.
    unfold OrderedTypeEx.String_as_OT.cmp in R. now rewrite R.
  - apply String.compare_eq_iff in E1. subst. now rewrite E2.
  - apply String.compare_eq_iff in E2. subst. now rewrite E1.
  - now rewrite (compare_lt_trans _ _ _ E1 E2).
Qed.

Lemma pivot_by_inv metric df fr :
  pivot_by metric df = Ok fr ->
  exists fr0,
    pivot String.eqb String.leb
      (map (fun r => (size_name r, tool r, metric r)) df) = Ok fr0 /\
    fr = reindex size_order fr0.
Proof.
  unfold pivot_by.
  destruct (pivot String.eqb String.leb
              (map (fun r => (size_name r, tool r, metric r)) df))
    as [fr0|e]; cbn [bind]; [|discriminate].
  intros [= <-]. eauto.
Qed.

Lemma existsb_eqb_in (x : string) l :
  existsb (String.eqb x) l = true <-> In x l.
Proof.
  rewrite existsb_exists. split.
  - intros [y [Hy E]]. apply String.eqb_eq in E. now subst.
  - intros H. exists x. split; [exact H | apply String.eqb_refl].
Qed.

(** X6: in the table a pivot plots, a cell is missing (NaN), never a
    number, when no record has that bucket and tool; the table has no cell
    at all for a label outside the three fixed buckets, so a record with
    such a label is left out, and none for a tool that is not in the
    data. *)
Theorem pivot_cell_without_record_is_missing
  (metric : Row -> float) (df : list Row) (fr : Frame string float) :
  pivot_by metric df = Ok fr ->
  (forall s t, In s size_order -> In t (map tool df) ->
     (forall r, In r df -> ~ (size_name r = s /\ tool r = t)) ->
     frame_get String.eqb fr s t = Some None) /\
  (forall s t, ~ In s size_order -> frame_get String.eqb fr s t = None) /\
  (forall s t, ~ In t (map tool df) -> frame_get String.eqb fr s t = None).
Proof.
  intros P. destruct (pivot_by_inv _ _ _ P) as [fr0 [P0 ->]].
  assert (C : forall t, In t (columns fr0) <-> In t (map tool df)).
  { intros t.
    rewrite (pivot_columns string float String.eqb String.leb
               String.eqb_eq _ _ t P0).
    rewrite map_map. cbn. tauto. }
  assert (G := fun s t =>
    reindex_pivot_get string float String.eqb String.leb String.eqb_eq
      _ fr0 size_order s t P0).
  split; [|split].
  - intros s t Hs Ht Hno. rewrite G.
    rewrite (proj2 (existsb_eqb_in s size_order) Hs).
    rewrite (proj2 (existsb_eqb_in t (columns fr0)) (proj2 (C t) Ht)).
    f_equal.
    apply (cell_value_none string float String.eqb String.leb
             String.eqb_eq).
    intros e He [H1 H2]. apply in_map_iff in He.
    destruct He as [r [<- Hr]]. cbn in H1, H2. exact (Hno r Hr (conj H1 H2)).
  - intros s t Hs. rewrite G.
    destruct (existsb (String.eqb s) size_order) eqn:E; [|reflexivity].
    apply existsb_eqb_in in E. contradiction.
  - intros s t Ht. rewrite G.
    destruct (existsb (String.eqb s) size_order); [|reflexivity].
    destruct (existsb (String.eqb t) (columns fr0)) eqn:E; [|reflexivity].
    apply existsb_eqb_in, C in E. contradiction.
Qed.

Definition df_partial : list Row :=
  [ row "timber" "x_10k.json" 1 50 "10k" (Some 10000);
    row "grep" "x_100k.json" 4 20 "100k" (Some 100000);
    row "grep" "x_5k.json" 2 10 "5k" None ].

(** The time table of [df_partial]: grep has no time at [10k], timber
    none at [100k], nobody at [1m], and the [5k] record is left out. *)
Definition time_table_partial : Frame string float :=
  Eval vm_compute in
    match pivot_by time_seconds df_partial with
    | Ok fr => fr
    | Raise _ => mkFrame [] []
    end.

Lemma pivot_cell_without_record_is_missing_witness :
  frame_get String.eqb time_table_partial "10k"%string "grep"%string
  = Some None.
Proof.
  refine (proj1 (pivot_cell_without_record_is_missing time_seconds
                   df_partial time_table_partial _)
            "10k"%string "grep"%string _ _ _).
  - vm_compute. reflexivity.
  - cbn. auto.
  - cbn. auto.
  - intros r Hr [H1 H2]. cbn in Hr.
    destruct Hr as [<-|[<-|[<-|[]]]]; discriminate.
Defined.

Lemma reindex_rows_rectangular {K V : Type} labels (fr : Frame K V) :
  (forall row, In row (rows fr) -> map fst (snd row) = columns fr) ->
  forall row, In row (rows (reindex labels fr)) ->
    map fst (snd row) = columns (reindex labels fr).
Proof.
  intros H row Hr. unfold reindex in *. cbn [rows columns] in *.
  apply in_map_iff in Hr. destruct Hr as [i [<- _]]. cbn [snd].
  unfold find_row.
  destruct (find (fun r => String.eqb (fst r) i) (rows fr))
    as [[j r]|] eqn:F; cbn.
  - apply find_some in F. destruct F as [Hin _]. exact (H (j, r) Hin).
  - rewrite map_map. cbn. apply map_id.
Qed.

Lemma pivot_rows_rectangular {K V : Type} keqb kleb
  (l : list (string * K * V)) fr :
  pivot keqb kleb l = Ok fr ->
  forall row, In row (rows fr) -> map fst (snd row) = columns fr.
Proof.
  unfold pivot. destruct (has_duplicates keqb l); [discriminate|].
  intros [= <-] row Hr. cbn [rows columns] in *.
  apply in_map_iff in Hr. destruct Hr as [i [<- _]]. cbn [snd].
  rewrite map_map. cbn. apply map_id.
Qed.

(** X7: the table a pivot plots has exactly the three fixed buckets as
    rows, in the fixed order; its columns are the tools of the data, each
    once, in ascending order of name; and every row has one cell per
    column, in column order. *)
Theorem pivot_table_shape
  (metric : Row -> float) (df : list Row) (fr : Frame string float) :
  pivot_by metric df = Ok fr ->
  index fr = size_order /\
  NoDup (columns fr) /\
  StronglySorted (le_rel String.leb) (columns fr) /\
  (forall t, In t (columns fr) <-> In t (map tool df)) /\
  (forall row, In row (rows fr) -> map fst (snd row) = columns fr).
Proof.
  intros P. destruct (pivot_by_inv _ _ _ P) as [fr0 [P0 ->]].
  split; [apply index_reindex|].
  split.
  { exact (pivot_columns_NoDup string float String.eqb String.leb
             String.eqb_eq _ _ P0). }
  split.
  { change (columns (reindex size_order fr0)) with (columns fr0).
    unfold pivot in P0.
    destruct (has_duplicates String.eqb
                (map (fun r => (size_name r, tool r, metric r)) df));
      [discriminate|].
    injection P0 as <-. cbn [columns].
    apply stable_sort_sorted; [apply String.leb_total|].
    apply string_leb_trans. }
  split.
  { intros t.
    change (columns (reindex size_order fr0)) with (columns fr0).
    rewrite (pivot_columns string float String.eqb String.leb
               String.eqb_eq _ _ t P0).
    rewrite map_map. cbn. tauto. }
  apply reindex_rows_rectangular.
  eapply pivot_rows_rectangular; eauto.
Qed.

Lemma pivot_table_shape_witness :
  index time_table_partial = size_order /\
  NoDup (columns time_table_partial).
Proof.
  pose proof (pivot_table_shape time_seconds df_partial time_table_partial)
    as H.
  destruct H as [H1 [H2 _]]; [vm_compute; reflexivity|].
  split; assumption.
Defined.

(* ================================================================== *)
(** * Further properties of the Scaling Analyzer *)
(* ================================================================== *)

Fixpoint sum_nat (l : list nat) : nat :=
  match l with
  | [] => O
  | n :: t => (n + sum_nat t)%nat
  end.

Lemma length_flat_map {A B : Type} (f : A -> list B) l :
  length (flat_map f l) = sum_nat (map (fun x => length (f x)) l).
Proof.
  induction l as [|a t IH]; cbn [flat_map map sum_nat]; [reflexivity|].
  now rewrite length_app, IH.
Qed.

Lemma count_one_hot (x : string) tools :
  NoDup tools -> In x tools ->
  sum_nat (map (fun t => if String.eqb x t then 1 else 0)%nat tools) = 1%nat.
Proof.
  induction 1 as [|a l Ha Hl IH]; cbn [map sum_nat]; [intros []|].
  intros [->|Hx].
  - rewrite String.eqb_refl.
    assert (Z : sum_nat (map (fun t => if String.eqb x t then 1 else 0)%nat l)
                = 0%nat).
    { clear IH Hl. induction l as [|b l IHl]; cbn [map sum_nat];
        [reflexivity|].
      destruct (String.eqb_spec x b) as [->|N].
      - exfalso. apply Ha. now left.
      - rewrite IHl; [reflexivity|]. intros H. apply Ha. now right. }
    now rewrite Z.
  - destruct (String.eqb_spec x a) as [->|N]; [contradiction|].
    now rewrite IH.
Qed.

(** Every row is counted under exactly one tool. *)
Lemma rows_per_tool_sum (df : list Row) tools :
  NoDup tools -> (forall r, In r df -> In (tool r) tools) ->
  sum_nat
    (map (fun t => length (filter (fun r => String.eqb (tool r) t) df))
         tools)
  = length df.
Proof.
  intros Nd. induction df as [|r df IH]; intros H.
  - cbn [filter length]. clear. induction tools as [|t ts IHt]; cbn [map sum_nat];
      [reflexivity|]. now rewrite IHt.
  - change (length (r :: df)) with (1 + length df)%nat.
    rewrite <- IH by (intros x Hx; apply H; now right).
    rewrite <- (count_one_hot (tool r) tools Nd (H r (or_introl eq_refl))).
    clear. induction tools as [|t ts IHt]; cbn [map sum_nat];
      [reflexivity|].
    rewrite IHt. cbn [filter].
    destruct (String.eqb (tool r) t); cbn [length]; lia.
Qed.

Lemma scaling_for_tool_length np df t :
  length (scaling_for_tool np df t)
  = (length (filter (fun r => String.eqb (tool r) t) df) - 1)%nat.
Proof.
  unfold scaling_for_tool. rewrite scaling_loop_adjacent, length_map.
  rewrite adjacent_length.
  now rewrite (Permutation_length (tool_rows_perm np df t)).
Qed.

(** X8: in every run of the analyzer that gets to its loop, it emits one
    entry less than a tool has records, for every tool: the number of
    entries plus the number of distinct tools is the number of rows of the
    table, and a tool appears in the output exactly when it has at least
    two records. *)
Theorem scaling_entry_count
  (np : Numpy) (chart : result unit) (df : list Row)
  (scaling_df : list ScalingEntry) :
  generate_scaling_analysis np chart df = Ok scaling_df ->
  (length scaling_df + length (unique (map tool df)))%nat = length df /\
  (forall t,
     (exists e, In e scaling_df /\ se_Tool e = t) <->
     (2 <= length (filter (fun r => String.eqb (tool r) t) df))%nat).
Proof.
  intros G. apply generate_scaling_analysis_inv in G. destruct G as [_ ->].
  split.
  - unfold scaling_data. rewrite length_flat_map.
    rewrite <- (rows_per_tool_sum df (unique (map tool df)))
      by (try apply unique_NoDup;
          intros r Hr; apply unique_in; now apply in_map).
    assert (P : forall t, In t (unique (map tool df)) ->
      (1 <= length (filter (fun r => String.eqb (tool r) t) df))%nat).
    { intros t Ht. apply unique_in, in_map_iff in Ht.
      destruct Ht as [r [<- Hr]].
      assert (I : In r (filter (fun r0 => String.eqb (tool r0) (tool r)) df))
        by (apply filter_In; split; [exact Hr | apply String.eqb_refl]).
      destruct (filter (fun r0 => String.eqb (tool r0) (tool r)) df);
        [destruct I | cbn; lia]. }
    induction (unique (map tool df)) as [|t ts IH]; cbn [map sum_nat length];
      [reflexivity|].
    rewrite scaling_for_tool_length.
    specialize (P t (or_introl eq_refl)) as Pt.
    specialize (IH (fun x Hx => P x (or_intror Hx))). lia.
  - intros t. split.
    + intros [e [He Ht]].
      assert (I : In e (scaling_for_tool np df t)).
      { rewrite <- scaling_entries_of_tool. apply filter_In.
        split; [exact He|]. rewrite Ht. apply String.eqb_refl. }
      pose proof (scaling_for_tool_length np df t) as L.
      destruct (scaling_for_tool np df t); [destruct I|]. cbn in L. lia.
    + intros H. pose proof (scaling_for_tool_length np df t) as L.
      destruct (scaling_for_tool np df t) as [|e es] eqn:E; cbn in L; [lia|].
      exists e.
      assert (I : In e (filter (fun e => String.eqb (se_Tool e) t)
                               (scaling_data np df))).
      { rewrite scaling_entries_of_tool, E. now left. }
      apply filter_In in I. destruct I as [I T].
      apply String.eqb_eq in T. auto.
Qed.

Lemma scaling_entry_count_witness :
  (length (scaling_data insertion df_two_tools)
   + length (unique (map tool df_two_tools)))%nat = length df_two_tools.
Proof.
  exact (proj1 (scaling_entry_count insertion (Ok tt) df_two_tools
                  (scaling_data insertion df_two_tools) eq_refl)).
Defined.

Lemma sorted_weaken_on {A : Type} (P : A -> Prop) (R S : A -> A -> Prop) l :
  (forall x y, P x -> P y -> R x y -> S x y) ->
  Forall P l -> StronglySorted R l -> StronglySorted S l.
Proof.
  intros H F. induction 1 as [|a t Hs IH Hall]; constructor.
  - apply IH. now inversion F.
  - inversion F as [|? ? Pa Pt]; subst.
    rewrite Forall_forall in *. intros y Hy. apply H; auto.
Qed.

(** X9: on the frame [load_data] returns, the analyzer's own sort by
    [size_numeric] changes nothing for a tool no two of whose records have
    the same size (records without a size apart): its records already come
    in that order, so the pairs compared, in a run that gets to the loop,
    are rows that follow each other in the loaded frame. *)
Theorem scaling_resort_is_identity_after_load
  (np : Numpy) (csv : list RawRow) (df : list Row) (t : string) :
  load_data csv = Ok df ->
  (forall r1 r2, In r1 df -> In r2 df -> tool r1 = t -> tool r2 = t ->
     size_numeric r1 = size_numeric r2 -> size_numeric r1 <> None ->
     r1 = r2) ->
  tool_rows np df t = filter (fun r => String.eqb (tool r) t) df /\
  (forall chart scaling_df,
     generate_scaling_analysis np chart df = Ok scaling_df ->
     filter (fun e => String.eqb (se_Tool e) t) scaling_df
     = map (fun pc => scaling_entry t (fst pc) (snd pc))
           (adjacent (filter (fun r => String.eqb (tool r) t) df))).
Proof.
  intros L U.
  assert (Id : tool_rows np df t
               = filter (fun r => String.eqb (tool r) t) df).
  { rewrite (tool_rows_determined np df t U). apply stable_sort_id.
    destruct (load_data_inv _ _ L) as [l [_ ->]].
    apply (sorted_weaken_on (fun r => tool r = t) (le_rel tool_size_leb)).
    - intros x y Hx Hy. unfold le_rel, tool_size_leb, by_size.
      rewrite Hx, Hy.
      pose proof (proj2 (OrderedTypeEx.String_as_OT.cmp_eq t t) eq_refl)
        as R.
      unfold OrderedTypeEx.String_as_OT.cmp in R. now rewrite R.
    - apply Forall_forall. intros r Hr. apply filter_In in Hr.
      now apply String.eqb_eq.
    - apply sorted_filter.
      apply stable_sort_sorted;
        [apply tool_size_leb_total | apply tool_size_leb_trans]. }
  split; [exact Id|].
  intros chart scaling_df G.
  apply generate_scaling_analysis_inv in G. destruct G as [_ ->].
  rewrite scaling_entries_of_tool. unfold scaling_for_tool.
  now rewrite scaling_loop_adjacent, Id.
Qed.

Definition csv_two_tools : list RawRow :=
  [ mkRawRow "timber" (Some "x_100k.json"%string) 9 90;
    mkRawRow "toolB" (Some "x_10k.json"%string) 2 80;
    mkRawRow "timber" (Some "x_10k.json"%string) 1 50 ].

(** What [load_data] returns for [csv_two_tools]. *)
Definition df_two_tools_loaded : list Row :=
  [ row "timber" "x_10k.json" 1 50 "10k" (Some 10000);
    row "timber" "x_100k.json" 9 90 "100k" (Some 100000);
    row "toolB" "x_10k.json" 2 80 "10k" (Some 10000) ].

Lemma scaling_resort_is_identity_after_load_witness :
  tool_rows insertion df_two_tools_loaded "timber"
  = filter (fun r => String.eqb (tool r) "timber") df_two_tools_loaded.
Proof.
  refine (proj1 (scaling_resort_is_identity_after_load insertion
                   csv_two_tools df_two_tools_loaded "timber" _ _)).
  - vm_compute. reflexivity.
  - unfold df_two_tools_loaded. intros r1 r2 H1 H2 T1 T2 Hs _.
    cbn in H1, H2.
    destruct H1 as [<-|[<-|[<-|[]]]]; destruct H2 as [<-|[<-|[<-|[]]]];
      try reflexivity; discriminate.
Defined.

(* ================================================================== *)
(** * Further properties of the Ranking Engine *)
(* ================================================================== *)



(** X11: the ranks do not depend on the order of the rows.  For two tables
    with the same rows in any order, every size bucket yields the same
    ranked rows (same record, same [time_rank], [memory_rank] and
    [combined_score]); and within a bucket two records with equal
    [time_seconds] have equal [time_rank], two with equal [memory_mb] equal
    [memory_rank]. *)
Theorem ranking_independent_of_row_order (np : Numpy)
  (df df' : list Row) (size : string) :
  Permutation df df' ->
  (forall x, In x (ranking_table np df size) <->
             In x (ranking_table np df' size)) /\
  Permutation (ranking_table np df size) (ranking_table np df' size) /\
  (forall x y, In x (ranking_table np df size) ->
     In y (ranking_table np df size) ->
     ((time_seconds (base x) =? time_seconds (base y))%float = true ->
      time_rank x = time_rank y) /\
     ((memory_mb (base x) =? memory_mb (base y))%float = true ->
      memory_rank x = memory_rank y)).
Proof.
  intros P.
  assert (B := bucket_perm df df' size P).
  assert (PT : Permutation (ranking_table np df size)
                           (ranking_table np df' size)).
  { rewrite !ranking_table_perm.
    rewrite !rank_bucket_ranked_rows.
    rewrite (map_ext_in (ranked_row (bucket df size))
                        (ranked_row (bucket df' size))).
    - now apply Permutation_map.
    - intros r _. unfold ranked_row.
      rewrite (rank_of_self_perm (time_seconds r) _ _
                 (Permutation_map time_seconds B)).
      rewrite (rank_of_self_perm (memory_mb r) _ _
                 (Permutation_map memory_mb B)).
      reflexivity. }
  split.
  { intros x. split; apply Permutation_in;
      [exact PT | now apply Permutation_sym]. }
  split; [exact PT|].
  intros x y Hx Hy.
  apply ranking_table_in in Hx, Hy.
  rewrite rank_bucket_ranked_rows in Hx, Hy.
  apply in_map_iff in Hx, Hy.
  destruct Hx as [r [<- _]], Hy as [s [<- _]]. cbn. split; intros E.
  - apply rank_of_perm; [reflexivity | now left].
  - apply rank_of_perm; [reflexivity | now left].
Qed.

Lemma ranking_independent_of_row_order_witness :
  Permutation (ranking_table insertion df_two_tools "10k")
              (ranking_table insertion df_two_tools_permuted "10k").
Proof.
  refine (proj1 (proj2 (ranking_independent_of_row_order insertion
                          df_two_tools df_two_tools_permuted "10k" _))).
  unfold df_two_tools, df_two_tools_permuted.
  apply Permutation_sym, (Permutation_cons_app [_; _] []). reflexivity.
Defined.

Lemma score_nan_l a b : is_nan a = true -> is_nan ((a + b) / 2)%float = true.
Proof.
  intros N. rewrite FloatOrder.is_nan_sf in N.
  rewrite FloatOrder.is_nan_sf, FloatAxioms.div_spec, FloatAxioms.add_spec.
  destruct (Prim2SF a); try discriminate. reflexivity.
Qed.

Lemma score_nan_r a b : is_nan b = true -> is_nan ((a + b) / 2)%float = true.
Proof.
  intros N. rewrite FloatOrder.is_nan_sf in N.
  rewrite FloatOrder.is_nan_sf, FloatAxioms.div_spec, FloatAxioms.add_spec.
  destruct (Prim2SF b); try discriminate.
  destruct (Prim2SF a) as [[|]|[|]| |[|] ? ?]; reflexivity.
Qed.

Lemma rank_of_nan v l : is_nan v = true -> is_nan (rank_of v l) = true.
Proof. intros N. unfold rank_of. rewrite N. reflexivity. Qed.

(** X12: a record whose time or memory is missing gets a missing
    [combined_score], and [sort_values] puts the rows with a missing score
    at the end of the ranking: no row with a score is listed after a row
    without one. *)
Theorem ranking_missing_measurement_listed_last (np : Numpy)
  (df : list Row) (size : string) :
  (forall x, In x (ranking_table np df size) ->
     is_nan (time_seconds (base x)) = true \/
     is_nan (memory_mb (base x)) = true ->
     is_nan (combined_score x) = true) /\
  (forall i j x y, (i < j)%nat ->
     nth_error (ranking_table np df size) i = Some x ->
     nth_error (ranking_table np df size) j = Some y ->
     is_nan (combined_score x) = true ->
     is_nan (combined_score y) = true).
Proof.
  split.
  - intros x Hx N. apply ranking_table_in in Hx.
    rewrite rank_bucket_ranked_rows in Hx.
    apply in_map_iff in Hx. destruct Hx as [r [<- _]]. cbn in *.
    destruct N as [N|N].
    + apply score_nan_l. now apply rank_of_nan.
    + apply score_nan_r. now apply rank_of_nan.
  - intros i j x y Hij Hi Hj N.
    pose proof (sorted_nth _ _ (ranking_table_sorted np df size)
                  i j x y Hij Hi Hj) as R.
    unfold le_rel, by_score in R. eapply fle_nan_first; eauto.
Qed.

(** A tool whose time was not recorded comes after the tool that has both
    measurements. *)
Example ranking_missing_time_last :
  map rk_Tool
    (snd (hd (EmptyString, [])
       (generate_rankings insertion
          [ row "a" "x_10k.json" nan 10 "10k" (Some 10000);
            row "b" "x_10k.json" 1 20 "10k" (Some 10000) ])))
  = ["b"; "a"]%string.
Proof. vm_compute. reflexivity. Qed.




(** ** When a pivot fails, and on what its table depends *)

Section PivotKeys.

Variables K V : Type.
Variable keqb : K -> K -> bool.
Variable kleb : K -> K -> bool.
Hypothesis keqb_eq : forall a b, keqb a b = true <-> a = b.

Lemma existsb_same_cell i c (t : list (string * K * V)) :
  existsb (same_cell keqb i c) t = true <-> In (i, c) (map fst t).
Proof.
  rewrite existsb_exists, in_map_iff. split.
  - intros [e [He Hs]]. apply (same_cell_iff K V keqb kleb keqb_eq) in Hs.
    exists e. split; [|exact He].
    destruct e as [[i' c'] v]. cbn in *. destruct Hs. now subst.
  - intros [e [Hk He]]. exists e. split; [exact He|].
    apply (same_cell_iff K V keqb kleb keqb_eq).
    rewrite Hk. cbn. auto.
Qed.

Lemma has_duplicates_NoDup (l : list (string * K * V)) :
  has_duplicates keqb l = false <-> NoDup (map fst l).
Proof.
  induction l as [|e t IH]; cbn.
  - split; [constructor | reflexivity].
  - rewrite orb_false_iff, IH. split.
    + intros [Hx Ht]. constructor; [|exact Ht].
      intros I. destruct e as [[i c] v]. cbn in *.
      apply existsb_same_cell in I. congruence.
    + intros N. inversion N as [|? ? Hn Ht]; subst. split; [|exact Ht].
      destruct (existsb _ t) eqn:E; [|reflexivity].
      destruct e as [[i c] v]. cbn in *.
      apply existsb_same_cell in E. contradiction.
Qed.

Lemma has_duplicates_perm (l l' : list (string * K * V)) :
  Permutation l l' -> has_duplicates keqb l = has_duplicates keqb l'.
Proof.
  intros P.
  pose proof (has_duplicates_NoDup l) as H1.
  pose proof (has_duplicates_NoDup l') as H2.
  assert (E : NoDup (map fst l) <-> NoDup (map fst l')).
  { split; apply Permutation_NoDup;
      [|apply Permutation_sym]; now apply Permutation_map. }
  destruct (has_duplicates keqb l), (has_duplicates keqb l');
    try reflexivity.
  - assert (true = false) by (apply H1, E, H2; reflexivity). discriminate.
  - assert (true = false) by (apply H2, E, H1; reflexivity). discriminate.
Qed.

(** A failing pivot has two triples for one cell. *)
Lemma has_duplicates_inv (l : list (string * K * V)) :
  has_duplicates keqb l = true ->
  exists n1 n2 e1 e2, (n1 < n2)%nat /\
    nth_error l n1 = Some e1 /\ nth_error l n2 = Some e2 /\
    fst e1 = fst e2.
Proof.
  induction l as [|e t IH]; cbn; [discriminate|].
  intros H. apply orb_true_iff in H. destruct H as [H|H].
  - apply existsb_exists in H. destruct H as [e2 [I Hs]].
    apply (same_cell_iff K V keqb kleb keqb_eq) in Hs.
    apply In_nth_error in I. destruct I as [n Hn].
    exists 0%nat, (S n), e, e2. repeat split; [lia | exact Hn |].
    destruct e as [[i c] v], e2 as [[i2 c2] v2]. cbn in *.
    destruct Hs. now subst.
  - destruct (IH H) as [n1 [n2 [e1 [e2 [L [H1 [H2 E]]]]]]].
    exists (S n1), (S n2), e1, e2. repeat split; auto. lia.
Qed.

Lemma cell_value_perm (l l' : list (string * K * V)) i c :
  has_duplicates keqb l = false -> Permutation l l' ->
  cell_value keqb l i c = cell_value keqb l' i c.
Proof.
  intros D P.
  assert (D' : has_duplicates keqb l' = false)
    by (now rewrite <- (has_duplicates_perm l l' P)).
  unfold cell_value.
  destruct (find (same_cell keqb i c) l) as [e|] eqn:F.
  - apply find_some in F. destruct F as [He Hs].
    apply (same_cell_iff K V keqb kleb keqb_eq) in Hs.
    destruct Hs as [<- <-].
    rewrite (find_cell_unique K V keqb kleb keqb_eq l' e D').
    + reflexivity.
    + now apply (Permutation_in _ P).
  - destruct (find (same_cell keqb i c) l') as [e|] eqn:F'; [|reflexivity].
    apply find_some in F'. destruct F' as [He Hs].
    apply (Permutation_in _ (Permutation_sym P)) in He.
    pose proof (find_none _ _ F e He) as N. congruence.
Qed.

Lemma dedup_perm (l l' : list K) :
  Permutation l l' -> Permutation (dedup keqb [] l) (dedup keqb [] l').
Proof.
  intros P. apply NoDup_Permutation.
  - apply (dedup_NoDup K keqb kleb keqb_eq).
  - apply (dedup_NoDup K keqb kleb keqb_eq).
  - intros x. rewrite !(dedup_in K keqb kleb keqb_eq). split; intros [I N];
      (split; [|exact N]).
    + now apply (Permutation_in _ P).
    + now apply (Permutation_in _ (Permutation_sym P)).
Qed.

End PivotKeys.

Lemma unique_perm l l' :
  Permutation l l' -> Permutation (unique l) (unique l').
Proof.
  intros P. apply NoDup_Permutation; try apply unique_NoDup.
  intros x. rewrite !unique_in. split.
  - apply (Permutation_in _ P).
  - apply (Permutation_in _ (Permutation_sym P)).
Qed.

Lemma string_leb_antisym a b :
  String.leb a b = true -> String.leb b a = true -> a = b.
Proof.
  unfold String.leb. rewrite (String.compare_antisym b a).
  destruct (String.compare a b) eqn:C; cbn; try discriminate.
  intros _ _. now apply String.compare_eq_iff.
Qed.

Lemma triples_keys (metric : Row -> float) df :
  map fst (map (fun r => (size_name r, tool r, metric r)) df)
  = map (fun r => (size_name r, tool r)) df.
Proof. rewrite map_map. reflexivity. Qed.

Lemma pivot_by_fails_iff metric df :
  pivot_by metric df = Raise ValueError <->
  ~ NoDup (map (fun r => (size_name r, tool r)) df).
Proof.
  unfold pivot_by, pivot. rewrite <- (triples_keys metric).
  rewrite <- (has_duplicates_NoDup string float String.eqb String.leb
                String.eqb_eq).
  destruct (has_duplicates String.eqb _); cbn [bind]; split; intros H;
    try discriminate; try reflexivity; try (intro; discriminate);
    now elim H.
Qed.

(** X14: the pivot of the two comparison functions (lines 46 and 74, with
    the reindex that follows) fails only on a repeated key.  The pivot of
    the time table raises exactly when two records share
    [(size_name, tool)], and what a pivot raises is [ValueError]; the pivot
    of the memory table raises on exactly the same tables; when both
    succeed the two tables have the same row and column labels.  (The chart
    each function then draws from its table is not part of this.) *)
Theorem pivots_fail_only_on_repeated_key (df : list Row) :
  (pivot_by time_seconds df = Raise ValueError <->
   exists n1 n2 r1 r2, (n1 < n2)%nat /\
     nth_error df n1 = Some r1 /\ nth_error df n2 = Some r2 /\
     tool r1 = tool r2 /\ size_name r1 = size_name r2) /\
  (forall metric e, pivot_by metric df = Raise e -> e = ValueError) /\
  (forall e, pivot_by time_seconds df = Raise e <->
             pivot_by memory_mb df = Raise e) /\
  (forall ft fm, pivot_by time_seconds df = Ok ft ->
     pivot_by memory_mb df = Ok fm ->
     index ft = index fm /\ columns ft = columns fm).
Proof.
  assert (E : has_duplicates String.eqb
                (map (fun r => (size_name r, tool r, time_seconds r)) df)
              = has_duplicates String.eqb
                (map (fun r => (size_name r, tool r, memory_mb r)) df)).
  { pose proof (has_duplicates_NoDup string float String.eqb String.leb
                  String.eqb_eq
                  (map (fun r => (size_name r, tool r, time_seconds r)) df))
      as H1.
    pose proof (has_duplicates_NoDup string float String.eqb String.leb
                  String.eqb_eq
                  (map (fun r => (size_name r, tool r, memory_mb r)) df))
      as H2.
    rewrite triples_keys in H1, H2.
    destruct (has_duplicates String.eqb
                (map (fun r => (size_name r, tool r, time_seconds r)) df)),
             (has_duplicates String.eqb
                (map (fun r => (size_name r, tool r, memory_mb r)) df));
      try reflexivity.
    - assert (true = false) by (apply H1, H2; reflexivity). discriminate.
    - assert (true = false) by (apply H2, H1; reflexivity). discriminate. }
  split; [|split; [|split]].
  - split.
    + unfold pivot_by, pivot.
      destruct (has_duplicates String.eqb _) eqn:D; cbn [bind];
        [|discriminate].
      intros _.
      destruct (has_duplicates_inv string float String.eqb String.leb
                  String.eqb_eq _ D)
        as [n1 [n2 [e1 [e2 [L [H1 [H2 K]]]]]]].
      rewrite nth_error_map in H1, H2.
      destruct (nth_error df n1) as [r1|] eqn:R1; [|discriminate].
      destruct (nth_error df n2) as [r2|] eqn:R2; [|discriminate].
      cbn in H1, H2. injection H1 as <-. injection H2 as <-.
      cbn in K. injection K as Ks Kt.
      exists n1, n2, r1, r2. auto.
    + intros [n1 [n2 [r1 [r2 [L [H1 [H2 [Ht Hs]]]]]]]].
      apply (pivot_by_duplicate time_seconds df n1 n2 r1 r2); auto. lia.
  - intros metric e. clear E. unfold pivot_by, pivot.
    destruct (has_duplicates String.eqb _); cbn [bind]; congruence.
  - intros e. unfold pivot_by, pivot.
    rewrite <- E.
    destruct (has_duplicates String.eqb _); cbn [bind]; split;
      congruence.
  - intros ft fm. unfold pivot_by, pivot.
    rewrite <- E.
    destruct (has_duplicates String.eqb _); cbn [bind]; [discriminate|].
    intros [= <-] [= <-]. rewrite !index_reindex. cbn [reindex columns].
    rewrite !map_map. cbn [fst snd]. split; reflexivity.
Qed.

(** X15: the table of a pivot does not depend on the order of the records:
    two tables with the same records in any order give the same pivot, or
    both fail. *)
Theorem pivot_row_order_independent (metric : Row -> float)
  (df df' : list Row) :
  Permutation df df' -> pivot_by metric df = pivot_by metric df'.
Proof.
  intros P.
  set (tr := fun r : Row => (size_name r, tool r, metric r)).
  assert (PT : Permutation (map tr df) (map tr df'))
    by now apply Permutation_map.
  unfold pivot_by. fold tr. unfold pivot.
  rewrite <- (has_duplicates_perm string float String.eqb String.leb
                String.eqb_eq _ _ PT).
  destruct (has_duplicates String.eqb (map tr df)) eqn:D; [reflexivity|].
  cbn [bind]. do 2 f_equal.
  assert (I : stable_sort String.leb
                (unique (map (fun e => fst (fst e)) (map tr df)))
              = stable_sort String.leb
                (unique (map (fun e => fst (fst e)) (map tr df')))).
  { apply stable_sort_perm_invariant.
    - apply String.leb_total.
    - apply string_leb_trans.
    - intros x y _ _. apply string_leb_antisym.
    - apply unique_perm. now apply Permutation_map. }
  assert (C : stable_sort String.leb
                (dedup String.eqb [] (map (fun e => snd (fst e)) (map tr df)))
              = stable_sort String.leb
                (dedup String.eqb []
                   (map (fun e => snd (fst e)) (map tr df')))).
  { apply stable_sort_perm_invariant.
    - apply String.leb_total.
    - apply string_leb_trans.
    - intros x y _ _. apply string_leb_antisym.
    - apply (dedup_perm string String.eqb String.leb String.eqb_eq).
      now apply Permutation_map. }
  rewrite <- I, <- C. f_equal.
  apply map_ext. intros i. f_equal. apply map_ext. intros c. f_equal.
  apply (cell_value_perm string float String.eqb String.leb String.eqb_eq);
    assumption.
Qed.

Lemma pivot_row_order_independent_witness :
  generate_time_comparison df_two_tools
  = generate_time_comparison df_two_tools_permuted.
Proof.
  apply (pivot_row_order_independent time_seconds df_two_tools
           df_two_tools_permuted).
  unfold df_two_tools, df_two_tools_permuted.
  apply Permutation_sym, (Permutation_cons_app [_; _] []). reflexivity.
Defined.

(* ================================================================== *)
(** * Further properties of the Comparative Ratio Engine *)
(* ================================================================== *)

Lemma comparative_data_inv df d :
  In d (comparative_data df) ->
  exists t rest r,
    filter is_timber (bucket df (cd_File_Size d)) = t :: rest /\
    In r (bucket df (cd_File_Size d)) /\ is_timber r = false /\
    d = mkComparativeData (cd_File_Size d) (tool r)
          (time_seconds t / time_seconds r)%float
          (memory_mb t / memory_mb r)%float
          (time_seconds t) (time_seconds r) (memory_mb t) (memory_mb r).
Proof.
  unfold comparative_data. intros H. apply in_flat_map in H.
  destruct H as [size [_ H]].
  apply comparative_rows_inv in H.
  destruct H as [t [rest [r [Ht [Hr [Hn ->]]]]]]. cbn [cd_File_Size].
  exists t, rest, r. auto.
Qed.

Lemma generate_comparative_analysis_data df entries :
  generate_comparative_analysis df = Ok entries ->
  map data entries = comparative_data df.
Proof.
  unfold generate_comparative_analysis. intros E.
  apply map_result_inv in E. apply Forall2_map_eq.
  eapply Forall2_impl; [|exact E].
  intros d e H. now apply add_comparisons_inv in H.
Qed.

Lemma is_timber_iff r : is_timber r = true <-> tool r = "timber"%string.
Proof. unfold is_timber. apply String.eqb_eq. Qed.

(** X16: the comparative table holds nothing but comparisons with the
    reference tool.  Every row compares a record that is not timber's with
    the first timber record of the same size bucket, and carries the two
    measurements of both; a bucket without a timber record gives no row; a
    table without timber, or with timber only, gives an empty result and
    no error. *)
Theorem comparative_only_against_timber (df : list Row) :
  (forall d, In d (comparative_data df) ->
     cd_Tool d <> "timber"%string /\
     exists t rest r,
       filter is_timber (bucket df (cd_File_Size d)) = t :: rest /\
       In t df /\ In r df /\
       tool t = "timber"%string /\ tool r = cd_Tool d /\
       size_name t = cd_File_Size d /\ size_name r = cd_File_Size d /\
       Timber_Time d = time_seconds t /\ Tool_Time d = time_seconds r /\
       Timber_Memory d = memory_mb t /\ Tool_Memory d = memory_mb r /\
       Time_Ratio d = (time_seconds t / time_seconds r)%float /\
       Memory_Ratio d = (memory_mb t / memory_mb r)%float) /\
  (forall size,
     (forall r, In r df -> size_name r = size ->
                tool r <> "timber"%string) ->
     forall d, In d (comparative_data df) -> cd_File_Size d <> size) /\
  ((forall r, In r df -> tool r <> "timber"%string) ->
   generate_comparative_analysis df = Ok []) /\
  ((forall r, In r df -> tool r = "timber"%string) ->
   generate_comparative_analysis df = Ok []).
Proof.
  assert (Inv : forall d, In d (comparative_data df) ->
     exists t rest r,
       filter is_timber (bucket df (cd_File_Size d)) = t :: rest /\
       (In t df /\ size_name t = cd_File_Size d /\
        tool t = "timber"%string) /\
       (In r df /\ size_name r = cd_File_Size d /\
        tool r <> "timber"%string) /\
       d = mkComparativeData (cd_File_Size d) (tool r)
             (time_seconds t / time_seconds r)%float
             (memory_mb t / memory_mb r)%float
             (time_seconds t) (time_seconds r) (memory_mb t) (memory_mb r)).
  { intros d Hd.
    destruct (comparative_data_inv df d Hd)
      as [t [rest [r [Ht [Hr [Hn E]]]]]].
    exists t, rest, r. split; [exact Ht|].
    assert (It : In t (filter is_timber (bucket df (cd_File_Size d))))
      by (rewrite Ht; now left).
    apply filter_In in It. destruct It as [It Tt].
    apply filter_In in It. destruct It as [It St].
    apply filter_In in Hr. destruct Hr as [Hr Sr].
    apply String.eqb_eq in St, Sr. apply is_timber_iff in Tt.
    repeat split; auto.
    intros T. apply is_timber_iff in T. congruence. }
  assert (Empty : comparative_data df = [] ->
                  generate_comparative_analysis df = Ok []).
  { intros E. unfold generate_comparative_analysis. now rewrite E. }
  split; [|split; [|split]].
  - intros d Hd.
    destruct (Inv d Hd)
      as [t [rest [r [Ht [[It [St Tt]] [[Ir [Sr Tr]] E]]]]]].
    destruct d as [fs tl tr mr tt tot tm tom]. cbn [cd_File_Size] in *.
    injection E as -> -> -> -> -> -> ->. cbn.
    split; [exact Tr|].
    exists t, rest, r. repeat split; auto.
  - intros size H d Hd Hs.
    destruct (Inv d Hd) as [t [_ [_ [_ [[It [St Tt]] _]]]]].
    apply (H t It); congruence.
  - intros H. apply Empty.
    destruct (comparative_data df) as [|d l] eqn:E; [reflexivity|].
    destruct (Inv d (or_introl eq_refl))
      as [t [_ [_ [_ [[It [_ Tt]] _]]]]].
    now elim (H t It).
  - intros H. apply Empty.
    destruct (comparative_data df) as [|d l] eqn:E; [reflexivity|].
    destruct (Inv d (or_introl eq_refl))
      as [_ [_ [r [_ [_ [[Ir [_ Tr]] _]]]]]].
    exact (False_ind _ (Tr (H r Ir))).
Qed.

(** ** The two pivots of the comparative chart *)

(** [comparative_df.pivot(index='Tool', columns='File Size', values=...)] *)
Definition comparative_pivot (value : ComparativeData -> float)
  (comparative_df : list ComparativeEntry) : result (Frame string float) :=
  pivot String.eqb String.leb
    (map (fun e => (cd_Tool (data e), cd_File_Size (data e),
                    value (data e))) comparative_df).

(** What follows [to_csv] in [generate_comparative_analysis]: nothing when
    there is no comparative data, else [pivot_time] and [pivot_memory]. *)
Definition comparative_chart (df : list Row)
  : result (option (Frame string float * Frame string float)) :=
  comparative_df <- generate_comparative_analysis df ;;
  match comparative_df with
  | [] => Ok None
  | _ =>
      pivot_time <- comparative_pivot Time_Ratio comparative_df ;;
      pivot_memory <- comparative_pivot Memory_Ratio comparative_df ;;
      Ok (Some (pivot_time, pivot_memory))
  end.

Lemma NoDup_map_filter {A B : Type} (f : A -> B) (p : A -> bool) l :
  NoDup (map f l) -> NoDup (map f (filter p l)).
Proof.
  induction l as [|a t IH]; cbn; [auto|].
  intros N. inversion N as [|? ? Hn Ht]; subst.
  destruct (p a); cbn; [|auto].
  constructor; [|auto].
  intros I. apply Hn. apply in_map_iff in I. destruct I as [x [E I]].
  apply filter_In in I. apply in_map_iff. exists x. tauto.
Qed.

Lemma NoDup_map_change {A B C : Type} (f : A -> B) (g : A -> C) l :
  (forall x y, In x l -> In y l -> g x = g y -> f x = f y) ->
  NoDup (map f l) -> NoDup (map g l).
Proof.
  induction l as [|a t IH]; cbn; [constructor|].
  intros H N. inversion N as [|? ? Hn Ht]; subst. constructor.
  - intros I. apply Hn. apply in_map_iff in I. destruct I as [x [E I]].
    apply in_map_iff. exists x. split; [|exact I].
    apply H; auto.
  - apply IH; auto.
Qed.

Lemma NoDup_flat_map {A B : Type} (f : A -> list B) l :
  NoDup l -> (forall x, In x l -> NoDup (f x)) ->
  (forall x y z, In x l -> In y l -> In z (f x) -> In z (f y) -> x = y) ->
  NoDup (flat_map f l).
Proof.
  induction 1 as [|a t Hn Ht IH]; cbn; [constructor|].
  intros N D. apply NoDup_app.
  - apply N. now left.
  - apply IH.
    + intros x Hx. apply N. now right.
    + intros x y z Hx Hy. apply D; now right.
  - intros z Hz I. apply in_flat_map in I. destruct I as [y [Hy I]].
    assert (a = y)
      by (apply (D a y z); [now left | now right | exact Hz | exact I]).
    subst y. contradiction.
Qed.

Lemma comparative_rows_keys size size_df :
  map (fun d => (cd_Tool d, cd_File_Size d)) (comparative_rows size size_df)
  = match filter is_timber size_df with
    | [] => []
    | _ => map (fun r => (tool r, size))
               (filter (fun r => negb (is_timber r)) size_df)
    end.
Proof.
  unfold comparative_rows.
  destruct (filter is_timber size_df) as [|t rest]; [reflexivity|].
  induction size_df as [|r l IH]; [reflexivity|]. cbn.
  destruct (is_timber r); cbn; now rewrite <- IH.
Qed.

Lemma comparative_keys_NoDup df :
  NoDup (map (fun r => (size_name r, tool r)) df) ->
  NoDup (map (fun d => (cd_Tool d, cd_File_Size d)) (comparative_data df)).
Proof.
  intros N. unfold comparative_data. rewrite flat_map_concat_map.
  rewrite concat_map, map_map, <- flat_map_concat_map.
  apply NoDup_flat_map.
  - apply unique_NoDup.
  - intros size _. rewrite comparative_rows_keys.
    destruct (filter is_timber (bucket df size)); [constructor|].
    unfold bucket.
    apply (NoDup_map_change (fun r => (size_name r, tool r))).
    + intros x y Hx Hy [= E]. f_equal; [|exact E].
      apply filter_In in Hx, Hy. destruct Hx as [Hx _], Hy as [Hy _].
      apply filter_In in Hx, Hy. destruct Hx as [_ Hx], Hy as [_ Hy].
      apply String.eqb_eq in Hx, Hy. congruence.
    + now do 2 apply NoDup_map_filter.
  - intros x y z _ _ Hx Hy. rewrite comparative_rows_keys in Hx, Hy.
    destruct (filter is_timber (bucket df x)); [destruct Hx|].
    destruct (filter is_timber (bucket df y)); [destruct Hy|].
    apply in_map_iff in Hx, Hy.
    destruct Hx as [r1 [<- _]], Hy as [r2 [[= _ E] _]]. now symmetry.
Qed.

(** Toolb was measured twice at 10k. *)
Definition df_toolB_twice : list Row :=
  [ row "timber" "x_10k.json" 1 50 "10k" (Some 10000);
    row "toolB" "x_10k.json" 2 80 "10k" (Some 10000);
    row "toolB" "y_10k.json" 4 80 "10k" (Some 10000) ].

(** Called on its own with a tool measured twice in a bucket, the function
    has written [comparative_analysis.csv] with both rows when the pivot
    raises [ValueError]. *)
Example comparative_chart_repeated_tool_raises :
  exists rows,
    generate_comparative_analysis df_toolB_twice = Ok rows /\
    map (fun e => cd_Tool (data e)) rows = ["toolB"; "toolB"]%string /\
    comparative_pivot Time_Ratio rows = Raise ValueError /\
    comparative_chart df_toolB_twice = Raise ValueError.
Proof.
  eexists. split; [vm_compute; reflexivity|].
  repeat split; vm_compute; reflexivity.
Qed.

Lemma comparative_chart_ok df fr comparative_df :
  generate_time_comparison df = Ok fr ->
  generate_comparative_analysis df = Ok comparative_df ->
  exists pivot_time pivot_memory,
    comparative_pivot Time_Ratio comparative_df = Ok pivot_time /\
    comparative_pivot Memory_Ratio comparative_df = Ok pivot_memory /\
    comparative_chart df
    = Ok (match comparative_df with
          | [] => None
          | _ => Some (pivot_time, pivot_memory)
          end).
Proof.
  intros T G.
  assert (N : NoDup (map (fun r => (size_name r, tool r)) df)).
  { rewrite <- (triples_keys time_seconds).
    apply (has_duplicates_NoDup string float String.eqb String.leb
             String.eqb_eq).
    unfold generate_time_comparison, pivot_by, pivot in T.
    destruct (has_duplicates String.eqb _); [discriminate|reflexivity]. }
  pose proof (comparative_keys_NoDup df N) as NC.
  rewrite <- (generate_comparative_analysis_data df _ G) in NC.
  rewrite map_map in NC.
  assert (P : forall value : ComparativeData -> float,
    has_duplicates String.eqb
      (map (fun e => (cd_Tool (data e), cd_File_Size (data e),
                      value (data e))) comparative_df) = false).
  { intros value.
    apply (has_duplicates_NoDup string float String.eqb String.leb
             String.eqb_eq).
    rewrite map_map. exact NC. }
  unfold comparative_chart. rewrite G. cbn [bind].
  unfold comparative_pivot, pivot. rewrite !P. cbn [bind].
  do 2 eexists. split; [reflexivity|]. split; [reflexivity|].
  destruct comparative_df; reflexivity.
Qed.

(** X17: the two pivots behind the comparative chart cannot fail on a
    table on which [generate_time_comparison] succeeded, as it has when
    [main] reaches them: the comparative rows of a table whose records have
    distinct [(size_name, tool)] have distinct [(Tool, File Size)]. *)
Theorem comparative_chart_pivots_need_distinct_keys (df : list Row)
  (fr : Frame string float) (comparative_df : list ComparativeEntry) :
  generate_time_comparison df = Ok fr ->
  generate_comparative_analysis df = Ok comparative_df ->
  NoDup (map (fun e => (cd_Tool (data e), cd_File_Size (data e)))
             comparative_df) /\
  exists pivot_time pivot_memory,
    comparative_pivot Time_Ratio comparative_df = Ok pivot_time /\
    comparative_pivot Memory_Ratio comparative_df = Ok pivot_memory /\
    comparative_chart df
    = Ok (match comparative_df with
          | [] => None
          | _ => Some (pivot_time, pivot_memory)
          end).
Proof.
  intros T G. split; [|exact (comparative_chart_ok df fr comparative_df T G)].
  destruct (comparative_chart_ok df fr comparative_df T G)
    as [pt [_ [P _]]].
  unfold comparative_pivot, pivot in P.
  destruct (has_duplicates String.eqb _) eqn:D; [discriminate|].
  apply (has_duplicates_NoDup string float String.eqb String.leb
           String.eqb_eq) in D.
  rewrite map_map in D. exact D.
Qed.

Lemma comparative_chart_pivots_need_distinct_keys_witness :
  exists pivot_time pivot_memory,
    comparative_chart df_two_tools = Ok (Some (pivot_time, pivot_memory)).
Proof.
  edestruct (comparative_chart_pivots_need_distinct_keys df_two_tools)
    as [_ [pt [pm [_ [_ C]]]]].
  - vm_compute. reflexivity.
  - vm_compute. reflexivity.
  - exists pt, pm. exact C.
Defined.

(* ================================================================== *)
(** * The reference tool's own table:
      [generate_timber_specific_analysis] *)
(* ================================================================== *)

(** A row of [timber_analysis], with the two throughputs it is formatted
    from. *)
Record TimberRow : Type := mkTimberRow {
  ta_File_Size : string;         (* 'File Size' *)
  ta_Time : string;              (* 'Time (s)', [{:.3f}] *)
  ta_Memory : string;            (* 'Memory (MB)', [{:.2f}] *)
  ta_Lines_Second : string;      (* 'Lines/Second', [{:.0f}] *)
  ta_Lines_MB : string;          (* 'Lines/MB', [{:.0f}] *)
  lines_per_second : float;
  lines_per_mb : float
}.

(** The two divisions are between columns: IEEE division, element by
    element. *)
Definition timber_row (r : Row) : TimberRow :=
  let lines_per_second :=
    (size_float (size_numeric r) / time_seconds r)%float in
  let lines_per_mb :=
    (size_float (size_numeric r) / memory_mb r)%float in
  mkTimberRow (size_name r)
    (format_f 3 (time_seconds r)) (format_f 2 (memory_mb r))
    (format_f 0 lines_per_second) (format_f 0 lines_per_mb)
    lines_per_second lines_per_mb.

(** The table written to [timber_analysis.csv]; [None] when the function
    returns before writing, having found no timber record. *)
Definition generate_timber_specific_analysis (df : list Row)
  : option (list TimberRow) :=
  let timber_data := filter is_timber df in
  match timber_data with
  | [] => None
  | _ => Some (map timber_row timber_data)
  end.

Lemma load_data_tool_sorted_by_size csv df t :
  load_data csv = Ok df ->
  StronglySorted (le_rel by_size)
    (filter (fun r => String.eqb (tool r) t) df).
Proof.
  intros L. destruct (load_data_inv _ _ L) as [l [_ ->]].
  apply (sorted_weaken_on (fun r => tool r = t) (le_rel tool_size_leb)).
  - intros x y Hx Hy. unfold le_rel, tool_size_leb, by_size.
    rewrite Hx, Hy.
    pose proof (proj2 (OrderedTypeEx.String_as_OT.cmp_eq t t) eq_refl) as R.
    unfold OrderedTypeEx.String_as_OT.cmp in R. now rewrite R.
  - apply Forall_forall. intros r Hr. apply filter_In in Hr.
    now apply String.eqb_eq.
  - apply sorted_filter.
    apply stable_sort_sorted;
      [apply tool_size_leb_total | apply tool_size_leb_trans].
Qed.

(** The size a label stands for, as the loader assigns it. *)
Definition label_size (x : TimberRow) : option Z :=
  dict_get size_mapping (ta_File_Size x).

(** X18: the reference tool's table is written exactly when the data has a
    timber record; it then has one row per timber record and no row for any
    other tool; and on the frame [load_data] returns its rows come in
    ascending order of the size their label stands for, the labels outside
    [size_mapping] last. *)
Theorem timber_analysis_rows (csv : list RawRow) (df : list Row) :
  load_data csv = Ok df ->
  (generate_timber_specific_analysis df = None <->
   forall r, In r df -> tool r <> "timber"%string) /\
  (forall rows, generate_timber_specific_analysis df = Some rows ->
     rows <> [] /\
     map ta_File_Size rows = map size_name (filter is_timber df) /\
     length rows
     = length (filter (fun a => String.eqb (raw_tool a) "timber") csv) /\
     StronglySorted
       (fun x y => size_leb (label_size x) (label_size y) = true) rows).
Proof.
  intros L. split.
  - unfold generate_timber_specific_analysis.
    destruct (filter is_timber df) as [|t rest] eqn:F.
    + split; [|reflexivity]. intros _ r Hr T.
      assert (I : In r (filter is_timber df)).
      { apply filter_In. split; [exact Hr | now apply is_timber_iff]. }
      rewrite F in I. destruct I.
    + split; [discriminate|]. intros H. exfalso.
      assert (I : In t (filter is_timber df)) by (rewrite F; now left).
      apply filter_In in I. destruct I as [I T].
      apply is_timber_iff in T. exact (H t I T).
  - intros rows G. unfold generate_timber_specific_analysis in G.
    cbv zeta in G.
    assert (R : rows = map timber_row (filter is_timber df) /\
                filter is_timber df <> []).
    { destruct (filter is_timber df); [discriminate|].
      injection G as <-. split; [reflexivity | discriminate]. }
    destruct R as [-> NE]. clear G. split; [|split; [|split]].
    + intros E. apply map_eq_nil in E. contradiction.
    + rewrite map_map. reflexivity.
    + rewrite length_map.
      destruct (load_data_inv _ _ L) as [l [M ->]].
      unfold is_timber.
      transitivity
        (length (filter (fun r => String.eqb (tool r) "timber") l)).
      { apply Permutation_length, filter_perm, stable_sort_perm. }
      clear -M.
      induction M as [|a b la lb H _ IH]; [reflexivity|]. cbn.
      destruct (add_size_row _ _ H) as [_ [_ [-> _]]].
      destruct (String.eqb (raw_tool a) "timber"); cbn; now rewrite IH.
    + assert (S := load_data_tool_sorted_by_size csv df "timber" L).
      fold is_timber in S.
      assert (E : forall r, In r (filter is_timber df) ->
                  label_size (timber_row r) = size_numeric r).
      { intros r Hr. apply filter_In in Hr. destruct Hr as [Hr _].
        unfold label_size, timber_row. cbn.
        destruct (load_data_row _ _ _ L Hr) as [a [_ A]].
        symmetry. apply (add_size_row _ _ A). }
      revert S E. generalize (filter is_timber df). intros l S.
      induction S as [|a l' Sl IH Hall]; intros E; cbn [map]; constructor.
      * apply IH. intros r Hr. apply E. now right.
      * rewrite Forall_forall in *. intros y Hy.
        apply in_map_iff in Hy. destruct Hy as [r [<- Hr]].
        rewrite (E a (or_introl eq_refl)), (E r (or_intror Hr)).
        apply (Hall r Hr).
Qed.

Lemma timber_analysis_rows_witness :
  generate_timber_specific_analysis df_two_tools_loaded = None <->
  forall r, In r df_two_tools_loaded -> tool r <> "timber"%string.
Proof.
  refine (proj1 (timber_analysis_rows csv_two_tools df_two_tools_loaded _)).
  vm_compute. reflexivity.
Defined.

Lemma nan_div x : Prim2SF (nan / x) = S754_nan.
Proof. rewrite FloatAxioms.div_spec. reflexivity. Qed.

Lemma format_f_nan d x : Prim2SF x = S754_nan -> format_f d x = "nan"%string.
Proof. intros H. unfold format_f. now rewrite H. Qed.

Lemma mapped_size_div_zero name z :
  dict_get size_mapping name = Some z ->
  format_f 0 (Z2F z / 0) = "inf"%string.
Proof.
  unfold size_mapping. cbn [dict_get].
  destruct (String.eqb "10k" name);
    [intros [= <-]; vm_compute; reflexivity|].
  destruct (String.eqb "100k" name);
    [intros [= <-]; vm_compute; reflexivity|].
  destruct (String.eqb "1m" name);
    [intros [= <-]; vm_compute; reflexivity|].
  discriminate.
Qed.

(** X19: no value makes the reference tool's table fail.  On the loaded
    frame every timber record has its row in the table; a record whose
    label is outside [size_mapping] has [nan] in both throughput columns,
    whatever its measurements; and a record with a known label and a time
    (or memory) of zero has [inf] there, the division being IEEE's. *)
Theorem timber_analysis_degenerate_values (csv : list RawRow)
  (df : list Row) (r : Row) :
  load_data csv = Ok df -> In r df -> tool r = "timber"%string ->
  (exists rows, generate_timber_specific_analysis df = Some rows /\
                In (timber_row r) rows) /\
  (dict_get size_mapping (size_name r) = None ->
   ta_Lines_Second (timber_row r) = "nan"%string /\
   ta_Lines_MB (timber_row r) = "nan"%string) /\
  (dict_get size_mapping (size_name r) <> None ->
   (time_seconds r = 0%float ->
    ta_Lines_Second (timber_row r) = "inf"%string) /\
   (memory_mb r = 0%float ->
    ta_Lines_MB (timber_row r) = "inf"%string)).
Proof.
  intros L Hr T.
  assert (S : size_numeric r = dict_get size_mapping (size_name r)).
  { destruct (load_data_row _ _ _ L Hr) as [a [_ A]].
    apply (add_size_row _ _ A). }
  split; [|split].
  - assert (I : In r (filter is_timber df)).
    { apply filter_In. split; [exact Hr | now apply is_timber_iff]. }
    unfold generate_timber_specific_analysis. cbv zeta.
    destruct (filter is_timber df) as [|t rest] eqn:F; [destruct I|].
    eexists. split; [reflexivity|]. now apply in_map.
  - intros N. unfold timber_row. cbn. rewrite S, N. cbn [size_float].
    split; apply format_f_nan, nan_div.
  - intros N. unfold timber_row. cbn. rewrite S.
    destruct (dict_get size_mapping (size_name r)) as [z|] eqn:D;
      [|contradiction].
    cbn [size_float]. split; intros ->;
      exact (mapped_size_div_zero _ _ D).
Qed.

(** A timber record of a generated JSON log (label [json]) measured at
    zero seconds: the table is written, with [nan] for both throughputs. *)
Definition csv_timber_json : list RawRow :=
  [ mkRawRow "timber" (Some "bench_json_10k.json"%string) 0 50 ].

Lemma timber_analysis_degenerate_values_witness :
  ta_Lines_Second
    (timber_row (row "timber" "bench_json_10k.json" 0 50 "json" None))
  = "nan"%string /\
  ta_Lines_MB
    (timber_row (row "timber" "bench_json_10k.json" 0 50 "json" None))
  = "nan"%string.
Proof.
  refine (proj1 (proj2 (timber_analysis_degenerate_values csv_timber_json
            [row "timber" "bench_json_10k.json" 0 50 "json" None]
            (row "timber" "bench_json_10k.json" 0 50 "json" None)
            _ _ _)) _).
  - vm_compute. reflexivity.
  - now left.
  - reflexivity.
  - reflexivity.
Defined.

Example timber_analysis_zero_time :
  option_map (map (fun x => (ta_File_Size x, ta_Time x, ta_Lines_Second x,
                             ta_Lines_MB x)))
    (generate_timber_specific_analysis
       [ row "timber" "x_10k.json" 0 50 "10k" (Some 10000);
         row "timber" "x_100k.json" 0.5 80 "100k" (Some 100000) ])
  = Some [ ("10k", "0.000", "inf", "200");
           ("100k", "0.500", "200000", "1250") ]%string.
Proof. vm_compute. reflexivity. Qed.

(* ================================================================== *)
(** * [main]: the whole analysis *)
(* ================================================================== *)

(** The tables of one run, in the order [main] produces them. *)
Record Reports : Type := mkReports {
  rp_time : Frame string float;            (* time_comparison.png *)
  rp_memory : Frame string float;          (* memory_comparison.png *)
  rp_scaling : list ScalingEntry;          (* scaling_factors.csv *)
  rp_rankings : list (string * list RankingRow);   (* ranking_{size}.csv *)
  rp_timber : option (list TimberRow);     (* timber_analysis.csv *)
  rp_comparative : list ComparativeEntry;  (* comparative_analysis.csv *)
  rp_comparative_chart :
    option (Frame string float * Frame string float)
}.

(** The charts are matplotlib's work, which is not modelled: [Plots] holds
    the outcome of each drawing step in the run at hand, [Ok tt] when the
    chart was drawn and [Raise e] when drawing raised [e]. *)
Record Plots : Type := mkPlots {
  plot_time : result unit;         (* lines 53-69 *)
  plot_memory : result unit;       (* lines 81-97 *)
  plot_scaling : result unit;      (* lines 102-128 *)
  plot_comparative : result unit   (* lines 284-304 *)
}.

(** [main], from the rows of the results file.  An exception of a step
    ends the run: the steps after it do not happen.  The comparative chart
    is drawn only when there is comparative data. *)
Definition main (np : Numpy) (plots : Plots) (csv : list RawRow)
  : result Reports :=
  df <- load_data csv ;;
  t <- generate_time_comparison df ;;
  _ <- plot_time plots ;;
  m <- generate_memory_comparison df ;;
  _ <- plot_memory plots ;;
  s <- generate_scaling_analysis np (plot_scaling plots) df ;;
  let rk := generate_rankings np df in
  let ta := generate_timber_specific_analysis df in
  c <- generate_comparative_analysis df ;;
  cc <- comparative_chart df ;;
  _ <- match c with
       | [] => Ok tt
       | _ => plot_comparative plots
       end ;;
  Ok (mkReports t m s rk ta c cc).

Lemma map_result_raises {A B : Type} (f : A -> result B) l e :
  map_result f l = Raise e -> exists a, In a l /\ f a = Raise e.
Proof.
  induction l as [|a t IH]; cbn; [discriminate|].
  destruct (f a) as [b|e'] eqn:Ea; cbn.
  - destruct (map_result f t) as [bs|e'']; cbn; [discriminate|].
    intros [= ->]. destruct (IH eq_refl) as [x [Hx Fx]].
    exists x. split; [now right | exact Fx].
  - intros [= ->]. exists a. split; [now left | exact Ea].
Qed.

Lemma comparative_raises_zero_division df e :
  generate_comparative_analysis df = Raise e -> e = ZeroDivisionError.
Proof.
  unfold generate_comparative_analysis. intros H.
  apply map_result_raises in H. destruct H as [d [_ H]].
  unfold add_comparisons, time_comparison, memory_comparison, reciprocal
    in H.
  destruct (Time_Ratio d <? 1)%float, (Time_Ratio d =? 0)%float,
    (Memory_Ratio d <? 1)%float, (Memory_Ratio d =? 0)%float;
    cbn in H; congruence.
Qed.

Lemma pivot_by_ok_or_value_error metric df :
  (exists fr, pivot_by metric df = Ok fr) \/
  pivot_by metric df = Raise ValueError.
Proof.
  unfold pivot_by, pivot.
  destruct (has_duplicates String.eqb _); cbn [bind]; eauto.
Qed.

Lemma pivot_by_any_metric m1 m2 df fr :
  pivot_by m1 df = Ok fr -> exists fr', pivot_by m2 df = Ok fr'.
Proof.
  intros H.
  destruct (pivot_by_ok_or_value_error m2 df) as [O|R]; [exact O|].
  apply pivot_by_fails_iff in R.
  apply (pivot_by_fails_iff m1) in R. congruence.
Qed.

Lemma Forall2_nth_l {A B : Type} (R : A -> B -> Prop) l1 l2 n a :
  Forall2 R l1 l2 -> nth_error l1 n = Some a ->
  exists b, nth_error l2 n = Some b /\ R a b.
Proof.
  intros F. revert n. induction F as [|x y l1 l2 H _ IH]; intros [|n]; cbn;
    try discriminate.
  - intros [= <-]. eauto.
  - apply IH.
Qed.

Lemma Forall2_nth_r {A B : Type} (R : A -> B -> Prop) l1 l2 n b :
  Forall2 R l1 l2 -> nth_error l2 n = Some b ->
  exists a, nth_error l1 n = Some a /\ R a b.
Proof.
  intros F. revert n. induction F as [|x y l1 l2 H _ IH]; intros [|n]; cbn;
    try discriminate.
  - intros [= <-]. eauto.
  - apply IH.
Qed.

(** Two rows of the results file for one tool and one size token. *)
Definition repeated_measurement (csv : list RawRow) : Prop :=
  exists n1 n2 a1 a2 x1 x2 s, (n1 < n2)%nat /\
    nth_error csv n1 = Some a1 /\ nth_error csv n2 = Some a2 /\
    raw_tool a1 = raw_tool a2 /\
    raw_log a1 = Some x1 /\ raw_log a2 = Some x2 /\
    size_token x1 = Ok s /\ size_token x2 = Ok s.

Lemma load_data_pivot_fails_iff metric csv df :
  load_data csv = Ok df ->
  (pivot_by metric df = Raise ValueError <-> repeated_measurement csv).
Proof.
  intros L. destruct (load_data_inv _ _ L) as [l [F ->]].
  set (tr := fun r : Row => (size_name r, tool r, metric r)).
  assert (P : has_duplicates String.eqb
                (map tr (stable_sort tool_size_leb l))
              = has_duplicates String.eqb (map tr l)).
  { apply (has_duplicates_perm string float String.eqb String.leb
             String.eqb_eq).
    apply Permutation_map, stable_sort_perm. }
  assert (Q : pivot_by metric (stable_sort tool_size_leb l)
              = Raise ValueError <->
              has_duplicates String.eqb (map tr l) = true).
  { unfold pivot_by, pivot. fold tr. rewrite P.
    destruct (has_duplicates String.eqb (map tr l)); cbn [bind];
      split; congruence. }
  rewrite Q. split.
  - intros D.
    destruct (has_duplicates_inv string float String.eqb String.leb
                String.eqb_eq _ D)
      as [n1 [n2 [e1 [e2 [Hlt [H1 [H2 K]]]]]]].
    rewrite nth_error_map in H1, H2.
    destruct (nth_error l n1) as [r1|] eqn:R1; [|discriminate].
    destruct (nth_error l n2) as [r2|] eqn:R2; [|discriminate].
    cbn in H1, H2. injection H1 as <-. injection H2 as <-.
    cbn in K. injection K as Ks Kt.
    destruct (Forall2_nth_r _ _ _ _ _ F R1) as [a1 [A1 B1]].
    destruct (Forall2_nth_r _ _ _ _ _ F R2) as [a2 [A2 B2]].
    destruct (add_size_row _ _ B1) as [L1 [T1 [U1 _]]].
    destruct (add_size_row _ _ B2) as [L2 [T2 [U2 _]]].
    exists n1, n2, a1, a2, (log r1), (log r2), (size_name r1).
    repeat split; auto; congruence.
  - intros [n1 [n2 [a1 [a2 [x1 [x2 [s [Hlt [A1 [A2 [Ht [L1 [L2 [S1 S2]]]]]]]]]]]]]].
    destruct (Forall2_nth_l _ _ _ _ _ F A1) as [r1 [R1 B1]].
    destruct (Forall2_nth_l _ _ _ _ _ F A2) as [r2 [R2 B2]].
    destruct (add_size_row _ _ B1) as [L1' [T1 [U1 _]]].
    destruct (add_size_row _ _ B2) as [L2' [T2 [U2 _]]].
    apply (has_duplicates_pair _ _ _ _ n1 n2 (tr r1) (tr r2) Hlt).
    + rewrite nth_error_map, R1. reflexivity.
    + rewrite nth_error_map, R2. reflexivity.
    + unfold same_cell, tr. cbn.
      assert (Es : size_name r2 = size_name r1) by congruence.
      assert (Et : tool r2 = tool r1) by congruence.
      rewrite Es, Et, !String.eqb_refl. reflexivity.
Qed.

(** X20: how a run of [main] ends at its first two steps.  An error of
    the loader is the error of the run.  Once the file is loaded, the pivot
    of [generate_time_comparison], the first step, raises exactly when the
    file has two rows for one tool and one size token, and the run then
    ends in [ValueError] before any chart is drawn or report written,
    whatever the drawing steps would have done.  A run that comes to its
    end has met no such rows, has drawn its first three charts, and its
    reports are those of the steps on the loaded frame. *)
Theorem main_failures (np : Numpy) (plots : Plots) (csv : list RawRow) :
  (forall e, load_data csv = Raise e -> main np plots csv = Raise e) /\
  (forall df, load_data csv = Ok df ->
     (repeated_measurement csv <->
      pivot_by time_seconds df = Raise ValueError) /\
     (repeated_measurement csv -> main np plots csv = Raise ValueError) /\
     (forall reports, main np plots csv = Ok reports ->
        ~ repeated_measurement csv /\
        plot_time plots = Ok tt /\ plot_memory plots = Ok tt /\
        plot_scaling plots = Ok tt /\
        generate_time_comparison df = Ok (rp_time reports) /\
        generate_memory_comparison df = Ok (rp_memory reports) /\
        rp_scaling reports = scaling_data np df /\
        rp_rankings reports = generate_rankings np df /\
        rp_timber reports = generate_timber_specific_analysis df /\
        generate_comparative_analysis df = Ok (rp_comparative reports))).
Proof.
  split.
  - intros e L. unfold main. now rewrite L.
  - intros df L.
    assert (T := load_data_pivot_fails_iff time_seconds csv df L).
    split; [symmetry; exact T|]. split.
    + intros R. apply T in R. unfold main. rewrite L. cbn [bind].
      unfold generate_time_comparison. now rewrite R.
    + intros reports. unfold main. rewrite L. cbn [bind].
      destruct (generate_time_comparison df) as [t|e] eqn:Et; cbn [bind];
        [|discriminate].
      destruct (plot_time plots) as [[]|e]; cbn [bind]; [|discriminate].
      destruct (generate_memory_comparison df) as [m|e] eqn:Em;
        cbn [bind]; [|discriminate].
      destruct (plot_memory plots) as [[]|e]; cbn [bind]; [|discriminate].
      destruct (generate_scaling_analysis np (plot_scaling plots) df)
        as [s0|e] eqn:Es; cbn [bind]; [|discriminate].
      apply generate_scaling_analysis_inv in Es. destruct Es as [Ps ->].
      destruct (generate_comparative_analysis df) as [c|e] eqn:Ec;
        cbn [bind]; [|discriminate].
      destruct (comparative_chart df) as [cc|e]; cbn [bind];
        [|discriminate].
      destruct (match c with [] => Ok tt | _ :: _ => plot_comparative plots
                end) as [[]|e]; cbn [bind]; [|discriminate].
      intros [= <-]. cbn. repeat split; auto.
      intros R. apply T in R. unfold generate_time_comparison in Et.
      congruence.
Qed.

(** The same measurement reported twice ends the run at the first step. *)
Example main_repeated_measurement :
  main insertion (mkPlots (Ok tt) (Ok tt) (Ok tt) (Ok tt))
       [ mkRawRow "timber" (Some "a_10k.json"%string) 1 50;
         mkRawRow "toolB" (Some "a_10k.json"%string) 2 80;
         mkRawRow "timber" (Some "b_10k.json"%string) 3 55 ]
  = Raise ValueError.
Proof. vm_compute. reflexivity. Qed.

Example main_two_tools :
  option_map
    (fun r => (map se_Tool (rp_scaling r), map fst (rp_rankings r),
               map Time_Comparison (rp_comparative r)))
    (match main insertion (mkPlots (Ok tt) (Ok tt) (Ok tt) (Ok tt))
                csv_two_tools with
     | Ok r => Some r
     | Raise _ => None
     end)
  = Some (["timber"], ["10k"; "100k"], ["Timber is 2.00x slower"])%string.
Proof. vm_compute. reflexivity. Qed.

(* ================================================================== *)
(** * Further properties of the lenient path *)
(* ================================================================== *)

Module ChartsFacts.

Import Charts.

Lemma pad_length n l : length (pad n l) = n.
Proof.
  revert l. induction n as [|n IH]; intros [|x t]; cbn; auto.
Qed.

(** The fields of a line with at most three fields, as the three cells of
    its row. *)
Definition cells (l : list string) : ChartRow :=
  mkChartRow (match nth_error l 0 with Some s => read_field s | None => None end)
             (match nth_error l 1 with Some s => read_field s | None => None end)
             (match nth_error l 2 with Some s => read_field s | None => None end)
             None.

Lemma read_line_short l :
  (length l <= 3)%nat ->
  match skipn (3 - 3) (pad 3 (map read_field l)) with
  | [t; x; s] => [mkChartRow t x s None]
  | _ => []
  end = [cells l].
Proof.
  destruct l as [|a [|b [|c [|d l]]]]; cbn; intros H; reflexivity.
Qed.

(** X21: [on_bad_lines='skip'] skips no line for being short.  When no
    line of the file has more than three fields, every line that is not
    blank becomes a row, in order, the fields it lacks being missing
    values. *)
Theorem read_csv_keeps_every_short_line (lines : list (list string)) :
  (forall l, In l lines -> (length l <= 3)%nat) ->
  read_csv lines = map cells (filter (fun l => negb (length l =? 0)%nat) lines).
Proof.
  intros H. unfold read_csv.
  set (kept := filter (fun l => negb (length l =? 0)%nat) lines).
  assert (K : forall l, In l kept -> (length l <= 3)%nat).
  { intros l Hl. apply filter_In in Hl. apply H, Hl. }
  assert (W : Nat.max 3 (length (hd [] kept)) = 3%nat).
  { destruct kept as [|l0 t]; [reflexivity|]. cbn [hd].
    pose proof (K l0 (or_introl eq_refl)). lia. }
  rewrite W. clear W. induction kept as [|l t IH]; [reflexivity|].
  cbn [flat_map map].
  pose proof (K l (or_introl eq_refl)) as Hl.
  destruct (Nat.leb_spec (length l) 3) as [_|G]; [|lia].
  rewrite (read_line_short l Hl). cbn [app]. f_equal.
  apply IH. intros l' Hl'. apply K. now right.
Qed.

Lemma read_csv_keeps_every_short_line_witness :
  read_csv lines_short = map cells lines_short.
Proof.
  apply (read_csv_keeps_every_short_line lines_short).
  intros l [<-|[<-|[]]]; cbn; lia.
Defined.

Lemma assign_size_inv df df' :
  assign_size df = Ok df' ->
  Forall2 (fun r r' => extract_size (log r) = Ok (size r') /\
                       tool r' = tool r /\ log r' = log r /\
                       time_seconds r' = time_seconds r) df df'.
Proof.
  unfold assign_size. intros E. apply map_result_inv in E.
  eapply Forall2_impl; [|exact E].
  intros r r' H. cbn in H.
  destruct (extract_size (log r)) as [o|e]; cbn in H; [|discriminate].
  injection H as <-. cbn. auto.
Qed.

Lemma extract_size_none x :
  extract_size x = Ok None <->
  match x with Some y => has_char "_" y = false | None => True end.
Proof.
  unfold extract_size. destruct x as [y|]; [|tauto].
  destruct (size_token y) as [s|e] eqn:E.
  - split; [discriminate|]. intros H.
    apply size_token_error_iff in H. congruence.
  - split; intros _.
    + destruct (has_char "_" y) eqn:H; [|reflexivity].
      destruct (size_token_ok_or_index y) as [[s Hs]|Hs]; [congruence|].
      apply size_token_error_iff in Hs. congruence.
    + destruct (size_token_ok_or_index y) as [[s Hs]|Hs]; [congruence|].
      rewrite Hs in E. injection E as <-. reflexivity.
Qed.

(** Whether the lenient loader keeps a row. *)
Definition has_token (r : ChartRow) : bool :=
  match log r with
  | Some x => has_char "_" x
  | None => false
  end.

(** X22: the lenient loader raises nothing, whatever the file holds.  It
    keeps, in order, exactly the rows whose log identifier is present and
    contains an underscore, and the [size] of a kept row is the token the
    strict loader computes from the same identifier. *)
Theorem lenient_load_keeps_rows_with_token (lines : list (list string)) :
  exists df,
    load lines = Ok df /\
    map (fun r => (tool r, log r, time_seconds r)) df
    = map (fun r => (tool r, log r, time_seconds r))
          (filter has_token (read_csv lines)) /\
    (forall r, In r df ->
       exists x s, log r = Some x /\ size r = Some s /\
                   size_token x = Ok s) /\
    (length df <= length lines)%nat.
Proof.
  destruct (load_total lines) as [df L]. exists df.
  split; [exact L|]. split; [|split].
  - unfold load in L.
    destruct (assign_size (read_csv lines)) as [df0|e] eqn:A;
      cbn [bind] in L; [|discriminate].
    injection L as <-. apply assign_size_inv in A.
    unfold dropna_size.
    induction A as [|r r' l l' [Hs [Ht [Hl Hm]]] _ IH]; [reflexivity|].
    cbn [filter]. unfold has_token at 1.
    destruct (size r') as [s|] eqn:Es.
    + apply extract_size_some in Hs. destruct Hs as [y [Hy Hk]].
      rewrite Hy.
      assert (U : has_char "_" y = true).
      { destruct (has_char "_" y) eqn:U; [reflexivity|].
        apply size_token_error_iff in U. congruence. }
      rewrite U. cbn [map]. rewrite IH, Ht, Hl, Hm. reflexivity.
    + apply extract_size_none in Hs.
      destruct (log r) as [y|]; [rewrite Hs|]; exact IH.
  - intros r Hr.
    destruct (load_rows_have_size lines df r L Hr) as [x [s [Hx [Ht Hs]]]].
    eauto.
  - unfold load in L.
    destruct (assign_size (read_csv lines)) as [df0|e] eqn:A;
      cbn [bind] in L; [|discriminate].
    injection L as <-. apply assign_size_inv in A.
    apply Forall2_length in A. unfold dropna_size.
    eapply Nat.le_trans; [apply filter_length_le|]. rewrite <- A.
    unfold read_csv. clear.
    set (w := Nat.max 3 _). clearbody w.
    eapply Nat.le_trans; [|apply (filter_length_le
                                    (fun l => negb (length l =? 0)%nat))].
    induction (filter (fun l => negb (length l =? 0)%nat) lines)
      as [|l t IH]; [reflexivity|].
    cbn [flat_map]. rewrite length_app. cbn [length].
    assert (length (if (length l <=? w)%nat
                    then match skipn (w - 3) (pad w (map read_field l)) with
                         | [t0; x; s] => [mkChartRow t0 x s None]
                         | _ => []
                         end
                    else []) <= 1)%nat.
    { destruct (length l <=? w)%nat; [|cbn; lia].
      destruct (skipn (w - 3) (pad w (map read_field l)))
        as [|a [|b [|c [|d q]]]]; cbn; lia. }
    lia.
Qed.

(** X23: the lenient script is not lenient about a repeated measurement:
    two kept rows with the same tool and the same size token make the pivot
    raise [ValueError], so no chart is drawn.  When the pivot succeeds, the
    rows of [time_df] are the buckets of [size_order] that occur in the
    kept rows, in the fixed order; a kept row whose token is none of the
    three is not in the table. *)
Theorem lenient_pivot (lines : list (list string)) (df : list ChartRow) :
  load lines = Ok df ->
  (forall n1 n2 r1 r2 t,
     n1 <> n2 -> nth_error df n1 = Some r1 -> nth_error df n2 = Some r2 ->
     tool r1 = Some t -> tool r2 = Some t -> size r1 = size r2 ->
     time_df lines = Raise ValueError) /\
  (forall e, time_df lines = Raise e -> e = ValueError) /\
  (forall fr, time_df lines = Ok fr ->
     index fr
     = filter (fun s => existsb (fun r => match size r with
                                          | Some s' => String.eqb s s'
                                          | None => false
                                          end) df) size_order /\
     (forall r s, In r df -> size r = Some s -> ~ In s size_order ->
                  ~ In s (index fr))).
Proof.
  intros L. split; [|split].
  - assert (D : forall n1 n2 r1 r2 t, (n1 < n2)%nat ->
       nth_error df n1 = Some r1 -> nth_error df n2 = Some r2 ->
       tool r1 = Some t -> tool r2 = Some t -> size r1 = size r2 ->
       time_df lines = Raise ValueError).
    { intros n1 n2 r1 r2 t Hlt H1 H2 T1 T2 S.
      destruct (load_rows_have_size lines df r1 L (nth_error_In _ _ H1))
        as [x1 [s [_ [_ S1]]]].
      assert (S2 : size r2 = Some s) by congruence.
      assert (Tr : triples df
                   = map (fun r => (match size r with
                                    | Some s => s
                                    | None => EmptyString
                                    end, tool r, time_seconds r)) df).
      { unfold triples. clear -L.
        assert (A : forall r, In r df -> exists s, size r = Some s).
        { intros r Hr.
          destruct (load_rows_have_size lines df r L Hr)
            as [x [s [_ [_ S]]]]. eauto. }
        clear L. induction df as [|r l IH]; [reflexivity|]. cbn.
        destruct (A r (or_introl eq_refl)) as [s ->]. cbn. f_equal.
        apply IH. intros r' Hr'. apply A. now right. }
      unfold time_df. rewrite L. cbn [bind]. unfold pivot.
      rewrite Tr.
      rewrite (has_duplicates_pair _ _ _ _ n1 n2
                 (s, tool r1, time_seconds r1) (s, tool r2, time_seconds r2)
                 Hlt).
      - reflexivity.
      - rewrite nth_error_map, H1. cbn. rewrite S1. reflexivity.
      - rewrite nth_error_map, H2. cbn. rewrite S2. reflexivity.
      - unfold same_cell. cbn. rewrite String.eqb_refl, T1, T2. cbn.
        apply String.eqb_refl. }
    intros n1 n2 r1 r2 t Hn H1 H2 T1 T2 S.
    destruct (Nat.lt_total n1 n2) as [Hlt|[E|Hlt]]; [|contradiction|].
    + exact (D n1 n2 r1 r2 t Hlt H1 H2 T1 T2 S).
    + exact (D n2 n1 r2 r1 t Hlt H2 H1 T2 T1 (eq_sym S)).
  - intros e. unfold time_df. rewrite L. cbn [bind]. unfold pivot.
    destruct (has_duplicates tool_eqb (triples df)); cbn [bind];
      congruence.
  - intros fr T. pose proof (time_df_index lines df fr L T) as I.
    split; [exact I|].
    intros r s _ _ N H. rewrite I in H. apply filter_In in H. tauto.
Qed.

(** The same log size measured twice for one tool. *)
Definition lines_repeated : list (list string) :=
  [ ["timber"; "a_10k.json"; "1.0"]; ["timber"; "b_10k.json"; "2.0"] ]%string.

Lemma lenient_pivot_witness : time_df lines_repeated = Raise ValueError.
Proof.
  refine (proj1 (lenient_pivot lines_repeated
            [ mkChartRow (Some "timber") (Some "a_10k.json") (Some "1.0")
                         (Some "10k");
              mkChartRow (Some "timber") (Some "b_10k.json") (Some "2.0")
                         (Some "10k") ]%string _)
            0%nat 1%nat _ _ "timber"%string _ _ _ _ _ _).
  - vm_compute. reflexivity.
  - discriminate.
  - reflexivity.
  - reflexivity.
  - reflexivity.
  - reflexivity.
  - reflexivity.
Defined.

End ChartsFacts.
